(** * A shallow embedding of the free-list allocator of metrics_monitor

    The allocator (find_block, split_block, fusion, extend_heap, my_malloc,
    my_free, my_calloc, my_realloc, malloc_control, external_frag) keeps its
    block headers inside the memory it hands out.  The embedding therefore
    works on a flat, byte-addressed memory: a block header is forty bytes of
    that memory, read and written field by field at the offsets the C
    structure [s_block] has on an LP64 target, and a field that the code
    never writes keeps whatever bytes were there before.

    Conventions.
    - [size_t] values are integers reduced modulo 2^64 after every
      arithmetic operation; [int] values occupy four bytes.
    - Addresses are integers, 0 is NULL, and pointer arithmetic is plain
      integer arithmetic.
    - Memory is a finite map from byte addresses to byte values; a byte
      that was never written reads as 0, which is what an anonymous
      mapping delivers.  The pages the process may write are those of the
      mappings mmap has granted ([mapped]).  The stores of the zeroing loop
      of my_calloc, which run past the block they were given, are checked
      against them; the stores into block headers are not.
    - Loops that follow [next] links take a [fuel] bound; [None] means the
      walk did not finish within that many steps or, in my_calloc, that a
      store of the zeroing loop fell outside the mapped pages, where the
      call does not return.
    - [double] is IEEE 754 binary64 with round to nearest even, as the
      Standard Library specifies it in SpecFloat (53 bits of precision,
      exponent bound 1024); a NaN carries no sign and no payload.
    - The operating system is the list [mmap_answers] of the results the
      next calls to mmap will give: the address of a new mapping, which is
      never null, or a refusal.  Every system call, every line handed to
      the log and every line printed is appended to [trace]. *)

From Stdlib Require Import ZArith List Lia String.
From Stdlib Require Import Floats.SpecFloat.
From stdpp Require Import base option numbers list gmap.

Local Open Scope Z_scope.

(** ** Constants of memory.h *)

Definition BLOCK_SIZE : Z := 40.
Definition PAGESIZE : Z := 4096.
Definition INVALID_ADDR : Z := 0.

Definition wrap64 (x : Z) : Z := x mod 2 ^ 64.

(** [#define align(x) (((((x) - 1) >> 3) << 3) + 8)] on a [size_t]. *)
Definition align (x : Z) : Z :=
  wrap64 (Z.shiftl (Z.shiftr (wrap64 (x - 1)) 3) 3 + 8).

(** ** Byte-addressed memory *)

Definition load8 (m : gmap Z Z) (a : Z) : Z := default 0 (m !! a) mod 256.

Fixpoint load_le (n : nat) (m : gmap Z Z) (a : Z) : Z :=
  match n with
  | O => 0
  | S k => load8 m a + 256 * load_le k m (a + 1)
  end.

Fixpoint store_le (n : nat) (m : gmap Z Z) (a v : Z) : gmap Z Z :=
  match n with
  | O => m
  | S k => store_le k (<[a := v mod 256]> m) (a + 1) (v / 256)
  end.

Definition load64 := load_le 8.
Definition load32 := load_le 4.
Definition store64 := store_le 8.
Definition store32 := store_le 4.

(** ** The block header

    [struct s_block { size_t size; s_block *next; s_block *prev; int free;
    void *ptr; char data[1]; }]: size at 0, next at 8, prev at 16, free at
    24 (four bytes, then four bytes of padding), ptr at 32, data at 40. *)

Definition size_of (m : gmap Z Z) (b : Z) : Z := load64 m b.
Definition next_of (m : gmap Z Z) (b : Z) : Z := load64 m (b + 8).
Definition prev_of (m : gmap Z Z) (b : Z) : Z := load64 m (b + 16).
Definition free_of (m : gmap Z Z) (b : Z) : Z := load32 m (b + 24).
Definition ptr_of (m : gmap Z Z) (b : Z) : Z := load64 m (b + 32).
Definition data_of (b : Z) : Z := b + 40.

Definition set_size (m : gmap Z Z) (b v : Z) := store64 m b v.
Definition set_next (m : gmap Z Z) (b v : Z) := store64 m (b + 8) v.
Definition set_prev (m : gmap Z Z) (b v : Z) := store64 m (b + 16) v.
Definition set_free (m : gmap Z Z) (b v : Z) := store32 m (b + 24) v.
Definition set_ptr (m : gmap Z Z) (b v : Z) := store64 m (b + 32) v.

(** C truth value of the [free] field. *)
Definition is_free (m : gmap Z Z) (b : Z) : bool := negb (free_of m b =? 0).

(** ** Program state *)

Inductive alloc_type :=
  | ALLOC_TYPE_MALLOC
  | ALLOC_TYPE_CALLOC
  | ALLOC_TYPE_REALLOC
  | ALLOC_TYPE_FREE.

Inductive event :=
  | EvMmap (len : Z) (res : option Z)
  | EvBrk (addr : Z)
  | EvLog (func : string) (ty : alloc_type) (ptr size : Z)
  | EvPrintf (line : string).

Record state := mkState {
  base : Z;
  method : Z;
  malloc_call : Z;
  mem : gmap Z Z;
  mmap_answers : list (option positive);
  trace : list event
}.

Definition with_base (st : state) (v : Z) : state :=
  mkState v (method st) (malloc_call st) (mem st) (mmap_answers st) (trace st).
Definition with_method (st : state) (v : Z) : state :=
  mkState (base st) v (malloc_call st) (mem st) (mmap_answers st) (trace st).
Definition with_malloc_call (st : state) (v : Z) : state :=
  mkState (base st) (method st) v (mem st) (mmap_answers st) (trace st).
Definition with_mem (st : state) (v : gmap Z Z) : state :=
  mkState (base st) (method st) (malloc_call st) v (mmap_answers st) (trace st).
Definition emit (st : state) (e : event) : state :=
  mkState (base st) (method st) (malloc_call st) (mem st) (mmap_answers st)
          (trace st ++ [e]).

(** The state of a freshly started process: no heap, first fit. *)
Definition initial (answers : list (option positive)) : state :=
  mkState 0 0 0 ∅ answers [].

(** [mmap(0, len, PROT_READ | PROT_WRITE, MAP_PRIVATE | MAP_ANONYMOUS, -1, 0)]:
    a request of length 0 is refused (EINVAL); otherwise the next answer of
    the operating system is consumed; [None] is MAP_FAILED. *)
Definition mmap (st : state) (len : Z) : state * option Z :=
  if len =? 0 then (emit st (EvMmap len None), None)
  else match mmap_answers st with
       | Some a :: rest =>
           (emit (mkState (base st) (method st) (malloc_call st) (mem st) rest
                          (trace st)) (EvMmap len (Some (Z.pos a))),
            Some (Z.pos a))
       | None :: rest =>
           (emit (mkState (base st) (method st) (malloc_call st) (mem st) rest
                          (trace st)) (EvMmap len None), None)
       | [] => (emit st (EvMmap len None), None)
       end.

(** The pages the process may write.  A mapping of [len] bytes at [p]
    extends to the end of its last page, pages being of PAGESIZE bytes;
    the allocator never unmaps, so every mapping granted so far is still
    there. *)
Definition in_mapping (a : Z) (e : event) : bool :=
  match e with
  | EvMmap len (Some p) =>
      (p <=? a) && (a <? p + (len + PAGESIZE - 1) / PAGESIZE * PAGESIZE)
  | _ => false
  end.

Definition mapped (st : state) (a : Z) : bool :=
  existsb (in_mapping a) (trace st).

(** [log_handler] followed by [log_function_call]: one record per call.
    The time stamp and the state of the log file are not modelled. *)
Definition log_handler (st : state) (func : string) (ty : alloc_type)
    (ptr size : Z) : state :=
  emit st (EvLog func ty ptr size).

(** ** find_block

    Each policy is a walk from [base]; [last] is the caller's variable that
    the walk overwrites with every block it leaves behind.  The result is
    the pair (block found or NULL, final value of [last]). *)

Fixpoint first_fit (fuel : nat) (m : gmap Z Z) (size b last : Z)
    : option (Z * Z) :=
  match fuel with
  | O => None
  | S k =>
      if b =? 0 then Some (b, last)
      else if is_free m b && (size <=? size_of m b) then Some (b, last)
      else first_fit k m size (next_of m b) b
  end.

Fixpoint best_fit (fuel : nat) (m : gmap Z Z) (size b last dif best : Z)
    : option (Z * Z) :=
  match fuel with
  | O => None
  | S k =>
      if b =? 0 then Some (best, last)
      else if is_free m b then
        if size_of m b =? size then Some (b, last)
        else if (size <? size_of m b) && (wrap64 (size_of m b - size) <? dif)
        then best_fit k m size (next_of m b) b (wrap64 (size_of m b - size)) b
        else best_fit k m size (next_of m b) b dif best
      else best_fit k m size (next_of m b) b dif best
  end.

Fixpoint worst_fit (fuel : nat) (m : gmap Z Z) (size b last dif best : Z)
    : option (Z * Z) :=
  match fuel with
  | O => None
  | S k =>
      if b =? 0 then Some (best, last)
      else if is_free m b then
        if size_of m b =? size then Some (b, last)
        else if (size <? size_of m b) && (dif <? wrap64 (size_of m b - size))
        then worst_fit k m size (next_of m b) b (wrap64 (size_of m b - size)) b
        else worst_fit k m size (next_of m b) b dif best
      else worst_fit k m size (next_of m b) b dif best
  end.

Definition find_block (fuel : nat) (st : state) (last size : Z)
    : option (Z * Z) :=
  if method st =? 0 then first_fit fuel (mem st) size (base st) last
  else if method st =? 1 then
    best_fit fuel (mem st) size (base st) last PAGESIZE 0
  else if method st =? 2 then
    worst_fit fuel (mem st) size (base st) last 0 0
  else Some (0, last).

(** ** split_block *)

Definition split_block (m : gmap Z Z) (b s : Z) : gmap Z Z :=
  if size_of m b <=? wrap64 (s + BLOCK_SIZE) then m
  else
    let new := data_of b + s in
    let m1 := set_size m new (wrap64 (size_of m b - s - BLOCK_SIZE)) in
    let m2 := set_next m1 new (next_of m1 b) in
    let m3 := set_free m2 new 1 in
    let m4 := set_size m3 b s in
    set_next m4 b new.

(** ** copy_block: the loop copies one [int] per round and reads both
    sizes again before every round. *)

Fixpoint copy_loop (fuel : nat) (m : gmap Z Z) (src dst sdata ddata i : Z)
    : option (gmap Z Z) :=
  match fuel with
  | O => None
  | S k =>
      if (wrap64 (i * 4) <? size_of m src) && (wrap64 (i * 4) <? size_of m dst)
      then copy_loop k (store32 m (ddata + 4 * i) (load32 m (sdata + 4 * i)))
                     src dst sdata ddata (wrap64 (i + 1))
      else Some m
  end.

Definition copy_block (fuel : nat) (m : gmap Z Z) (src dst : Z)
    : option (gmap Z Z) :=
  if (ptr_of m src =? 0) || (ptr_of m dst =? 0) then Some m
  else copy_loop fuel m src dst (ptr_of m src) (ptr_of m dst) 0.

(** ** get_block and valid_addr *)

Definition get_block (p : Z) : Z := p - BLOCK_SIZE.

Fixpoint valid_walk (fuel : nat) (m : gmap Z Z) (b p current : Z) : option Z :=
  match fuel with
  | O => None
  | S k =>
      if current =? 0 then Some INVALID_ADDR
      else if current =? b then Some (if ptr_of m current =? p then 1 else 0)
      else valid_walk k m b p (next_of m current)
  end.

Definition valid_addr (fuel : nat) (st : state) (p : Z) : option Z :=
  if (p =? 0) || (base st =? 0) then Some 0
  else valid_walk fuel (mem st) (get_block p) p (base st).

(** ** fusion: the pointer it returns is its argument and no caller uses
    it, so the embedding returns the memory only. *)

Fixpoint fusion_loop (fuel : nat) (m : gmap Z Z) (b : Z) : option (gmap Z Z) :=
  match fuel with
  | O => None
  | S k =>
      if negb (next_of m b =? 0) && is_free m (next_of m b) then
        if (next_of m b =? 0) || (next_of m (next_of m b) =? 0) then Some m
        else
          let m1 := set_size m b (wrap64 (size_of m b + size_of m (next_of m b))) in
          let m2 := set_next m1 b (next_of m1 (next_of m1 b)) in
          let m3 := if negb (next_of m2 b =? 0)
                    then set_prev m2 (next_of m2 b) b else m2 in
          fusion_loop k m3 b
      else Some m
  end.

Definition fusion (fuel : nat) (m : gmap Z Z) (b : Z) : option (gmap Z Z) :=
  if b =? 0 then Some m else fusion_loop fuel m b.

(** ** extend_heap *)

Definition extend_heap (st : state) (last s : Z) : state * Z :=
  match mmap st s with
  | (st1, None) => (st1, 0)
  | (st1, Some b) =>
      let m1 := set_size (mem st1) b s in
      let m2 := set_next m1 b 0 in
      let m3 := set_prev m2 b last in
      let m4 := set_ptr m3 b (data_of b) in
      let m5 := if negb (last =? 0) then set_next m4 last b else m4 in
      let m6 := set_free m5 b 0 in
      (with_mem st1 m6, b)
  end.

(** ** get_method, set_method, malloc_control *)

Definition get_method (st : state) : Z := method st.

Definition set_method (st : state) (m : Z) : state := with_method st m.

Definition malloc_control (st : state) (m : Z) : state :=
  if m =? 0 then set_method st 0
  else if m =? 1 then set_method st 1
  else if m =? 2 then set_method st 2
  else emit st (EvPrintf "Error: invalid method").

(** ** my_malloc *)

(** [if ((b->size - s) >= (BLOCK_SIZE + 4)) split_block(b, s);], as
    my_malloc and my_realloc both write it. *)
Definition resplit (m : gmap Z Z) (b s : Z) : gmap Z Z :=
  if BLOCK_SIZE + 4 <=? wrap64 (size_of m b - s) then split_block m b s else m.

Definition malloc_return (st : state) (b size : Z) : state * Z :=
  let st1 := if malloc_call st =? 0
             then log_handler st "malloc" ALLOC_TYPE_MALLOC (data_of b) size
             else st in
  (with_malloc_call st1 0, data_of b).

Definition my_malloc (fuel : nat) (st : state) (size : Z) : option (state * Z) :=
  let s := align size in
  if negb (base st =? 0) then
    '(b, last) ← find_block fuel st (base st) s;
    if negb (b =? 0) then
      let m1 := resplit (mem st) b s in
      let m2 := set_free m1 b 0 in
      Some (malloc_return (with_mem st m2) b size)
    else
      match extend_heap st last s with
      | (st1, b1) =>
          if b1 =? 0 then Some (st1, 0)
          else Some (malloc_return st1 b1 size)
      end
  else
    match extend_heap st 0 s with
    | (st1, b1) =>
        if b1 =? 0 then Some (st1, 0)
        else Some (malloc_return (with_base st1 b1) b1 size)
    end.

(** ** my_free *)

Definition my_free (fuel : nat) (st : state) (ptr : Z) : option state :=
  v ← valid_addr fuel st ptr;
  if negb (v =? 0) then
    let b := get_block ptr in
    let m1 := set_free (mem st) b 1 in
    m2 ← fusion fuel m1 b;
    let st2 := with_mem st m2 in
    let st3 :=
      if next_of m2 b =? 0 then
        let st' := if prev_of m2 b =? 0 then with_base st2 0
                   else with_mem st2 (set_next m2 (prev_of m2 b) 0) in
        emit st' (EvBrk (b + size_of (mem st') b))
      else st2 in
    Some (log_handler st3 "free" ALLOC_TYPE_FREE ptr 0)
  else Some st.

(** ** my_calloc: [new] is a [size_t *], so round [i] writes the eight
    bytes at [new + 8 * i].  The loop bound is four times the aligned
    size, so the rounds run past the block: a round whose eight bytes are
    not all in a mapped page stops the process, and the loop has no
    result. *)

Definition zero_words (st : state) (new s4 : Z) : option (gmap Z Z) :=
  fold_left
    (fun acc i =>
       m ← acc;
       if forallb (mapped st) (seqZ (new + 8 * i) 8)
       then Some (store64 m (new + 8 * i) 0) else None)
    (seqZ 0 s4) (Some (mem st)).

Definition my_calloc (fuel : nat) (st : state) (number size : Z)
    : option (state * Z) :=
  if (number =? 0) || (size =? 0) then Some (st, 0)
  else
    '(st1, new) ← my_malloc fuel (with_malloc_call st 1) (wrap64 (number * size));
    st2 ← (if negb (new =? 0) then
             let s4 := wrap64 (Z.shiftl (align (wrap64 (number * size))) 2) in
             m ← zero_words st1 new s4; Some (with_mem st1 m)
           else Some st1);
    Some (log_handler st2 "calloc" ALLOC_TYPE_CALLOC new 0, new).

(** ** my_realloc *)

(** The test that selects growth in place:
    [b->next && b->next->free && (b->size + BLOCK_SIZE + b->next->size) >= s]. *)
Definition grows_in_place (m : gmap Z Z) (b s : Z) : bool :=
  negb (next_of m b =? 0) && is_free m (next_of m b)
  && (s <=? wrap64 (size_of m b + BLOCK_SIZE + size_of m (next_of m b))).

Definition my_realloc (fuel : nat) (st : state) (ptr size : Z)
    : option (state * Z) :=
  let st0 := with_malloc_call st 1 in
  if ptr =? 0 then
    '(st1, newp) ← my_malloc fuel st0 size;
    Some (log_handler st1 "realloc" ALLOC_TYPE_REALLOC newp 0, newp)
  else
    v ← valid_addr fuel st0 ptr;
    if negb (v =? 0) then
      let s := align size in
      let b := get_block ptr in
      let m := mem st0 in
      if s <=? size_of m b then
        let st1 := with_mem st0 (resplit m b s) in
        Some (log_handler st1 "realloc" ALLOC_TYPE_REALLOC ptr 0, ptr)
      else if grows_in_place m b s then
        m1 ← fusion fuel m b;
        let st1 := with_mem st0 (resplit m1 b s) in
        Some (log_handler st1 "realloc" ALLOC_TYPE_REALLOC ptr 0, ptr)
      else
        '(st1, newp) ← my_malloc fuel st0 s;
        if newp =? 0 then Some (st1, 0)
        else
          let new := get_block newp in
          m2 ← copy_block fuel (mem st1) b new;
          st3 ← my_free fuel (with_mem st1 m2) ptr;
          Some (log_handler st3 "realloc" ALLOC_TYPE_REALLOC newp 0, newp)
    else Some (st0, 0).

(** ** external_frag

    [total_free] and [total] are of type [double]: every [+=] converts the
    [size_t] operand to [double] and adds in [double], and the quotient and
    the product by 100 are operations of [double] as well, each rounded to
    nearest even. *)

Definition double : Type := spec_float.

(** Conversion of an integer value ([size_t], or the [int] constants 0 and
    100) to [double]. *)
Definition to_double (x : Z) : double := binary_normalize 53 1024 x 0 false.

Definition dadd : double → double → double := SFadd 53 1024.
Definition ddiv : double → double → double := SFdiv 53 1024.
Definition dmul : double → double → double := SFmul 53 1024.

Fixpoint frag_max (fuel : nat) (m : gmap Z Z) (current maxs : Z) : option Z :=
  match fuel with
  | O => None
  | S k =>
      if current =? 0 then Some maxs
      else
        let maxs' := if negb (is_free m current) && (maxs <? size_of m current)
                     then size_of m current else maxs in
        frag_max k m (next_of m current) maxs'
  end.

Fixpoint frag_sum (fuel : nat) (m : gmap Z Z) (current maxs : Z)
    (total_free total : double) : option (double * double) :=
  match fuel with
  | O => None
  | S k =>
      if current =? 0 then Some (total_free, total)
      else
        let total_free' := if is_free m current && (size_of m current <? maxs)
                           then dadd total_free (to_double (size_of m current))
                           else total_free in
        frag_sum k m (next_of m current) maxs total_free'
                 (dadd total (to_double (size_of m current)))
  end.

Definition external_frag (fuel : nat) (st : state) : option double :=
  maxs ← frag_max fuel (mem st) (base st) 0;
  '(total_free, total) ←
    frag_sum fuel (mem st) (base st) maxs (to_double 0) (to_double 0);
  Some (dmul (ddiv total_free total) (to_double 100)).

(** ** Sequences of calls to the public operations

    A caller holds the addresses it was given; [Free i] and [Realloc i n]
    pass the address returned by the [i]-th allocating call so far. *)

Inductive op :=
  | Malloc (size : Z)
  | Calloc (number size : Z)
  | Realloc (i : nat) (size : Z)
  | Free (i : nat)
  | Control (m : Z).

Definition run_op (fuel : nat) (cfg : state * list Z) (o : op)
    : option (state * list Z) :=
  let '(st, ps) := cfg in
  match o with
  | Malloc size =>
      '(st', p) ← my_malloc fuel st size; Some (st', ps ++ [p])
  | Calloc number size =>
      '(st', p) ← my_calloc fuel st number size; Some (st', ps ++ [p])
  | Realloc i size =>
      '(st', p) ← my_realloc fuel st (nth i ps 0) size; Some (st', ps ++ [p])
  | Free i =>
      st' ← my_free fuel st (nth i ps 0); Some (st', ps)
  | Control m => Some (malloc_control st m, ps)
  end.

Fixpoint run (fuel : nat) (cfg : state * list Z) (ops : list op)
    : option (state * list Z) :=
  match ops with
  | [] => Some cfg
  | o :: rest => cfg' ← run_op fuel cfg o; run fuel cfg' rest
  end.

(** What a state shows of its ledger: address, size and free flag of each
    block, in ledger order (at most [fuel] blocks). *)
Fixpoint ledger_view (fuel : nat) (m : gmap Z Z) (b : Z) : list (Z * Z * bool) :=
  match fuel with
  | O => []
  | S k =>
      if b =? 0 then []
      else (b, size_of m b, is_free m b) :: ledger_view k m (next_of m b)
  end.

Definition view (fuel : nat) (st : state) : list (Z * Z * bool) :=
  ledger_view fuel (mem st) (base st).

(** ** The fragmentation ratio as the specification words it *)

(** Maximum size among the not-free blocks (0 when there is none). *)
Definition cap (m : gmap Z Z) (l : list Z) : Z :=
  fold_right Z.max 0
    (map (size_of m) (List.filter (fun b => negb (is_free m b)) l)).

(** Sum of the sizes of the free blocks strictly smaller than [c]. *)
Definition unusable_free (m : gmap Z Z) (l : list Z) (c : Z) : Z :=
  fold_right Z.add 0
    (map (size_of m)
         (List.filter (fun b => is_free m b && (size_of m b <? c)) l)).

(** Sum of the sizes of all blocks. *)
Definition total_size (m : gmap Z Z) (l : list Z) : Z :=
  fold_right Z.add 0 (map (size_of m) l).

(** A sum of sizes accumulated in [double], front to back. *)
Definition dsum (sizes : list Z) : double :=
  fold_left (fun acc s => dadd acc (to_double s)) sizes (to_double 0).

(** The ratio with both sums accumulated in [double] in ledger order. *)
Definition fragmentation_ratio (m : gmap Z Z) (l : list Z) : double :=
  dmul (ddiv (dsum (map (size_of m)
                        (List.filter
                           (fun b => is_free m b && (size_of m b <? cap m l)) l)))
             (dsum (map (size_of m) l)))
       (to_double 100).

(** * The ledger as a list of block addresses

    [chain m a l]: following [next] links in [m] from [a] visits exactly
    the blocks of [l], in that order, and then reaches NULL.  Block
    addresses are positive. *)

Fixpoint chain (m : gmap Z Z) (a : Z) (l : list Z) : Prop :=
  match l with
  | [] => a = 0
  | x :: rest => a = x ∧ 0 < x ∧ chain m (next_of m x) rest
  end.

Definition ledger (st : state) (l : list Z) : Prop :=
  chain (mem st) (base st) l.

(** Address resolution stated on the list of blocks: the address is not
    null, the header forty bytes below it is a block of the ledger, and the
    ptr field of that header is the address. *)
Definition resolves (st : state) (l : list Z) (p : Z) : bool :=
  negb (p =? 0) && bool_decide (get_block p ∈ l)
  && (ptr_of (mem st) (get_block p) =? p).

(** No two neighbours of the ledger are both free. *)
Fixpoint no_adjacent_free (m : gmap Z Z) (l : list Z) : bool :=
  match l with
  | x :: ((y :: _) as rest) =>
      negb (is_free m x && is_free m y) && no_adjacent_free m rest
  | _ => true
  end.

(** The walk of the ledger with a bound, for concrete states. *)
Fixpoint blocks_from (fuel : nat) (m : gmap Z Z) (b : Z) : list Z :=
  match fuel with
  | O => []
  | S k => if b =? 0 then [] else b :: blocks_from k m (next_of m b)
  end.

(** * Concrete runs

    Three mappings at 0x10000, 0x20000 and 0x30000 are what the operating
    system hands out in the runs below; [fuel] is 16 throughout. *)

Definition region_a : positive := 65536.
Definition region_b : positive := 131072.
Definition region_c : positive := 196608.

Definition three_regions : list (option positive) :=
  [Some region_a; Some region_b; Some region_c].

(** The state a sequence of calls leaves behind, from an empty heap. *)
Definition state_after (answers : list (option positive)) (ops : list op)
    : state :=
  default (initial answers) (fst <$> run 16 (initial answers, []) ops).

(** The addresses the allocating calls of a run returned, in call order. *)
Definition returned (answers : list (option positive)) (ops : list op)
    : option (list Z) :=
  snd <$> run 16 (initial answers, []) ops.

(** The ledger a run leaves behind. *)
Definition ledger_after (answers : list (option positive)) (ops : list op)
    : option (list (Z * Z * bool)) :=
  view 16 <$> (fst <$> run 16 (initial answers, []) ops).

(** * The remaining functions of the allocator *)

(** ** check_heap

    The function prints; each call to printf is one [heap_line], carrying
    the values it formats.  [brk_now] is what [sbrk(0)] returns. *)

Inductive heap_line :=
  | LDataIsNull
  | LBlockIsNull
  | LHeapCheck
  | LSize (size : Z)
  | LNextBlock (a : Z)
  | LNextBlockNull
  | LPrevBlock (a : Z)
  | LPrevBlockNull
  | LFree (flag : Z)
  | LBeginningData (a : Z)
  | LLastData (a : Z)
  | LDataAddressNull
  | LHeapAddress (a : Z)
  | LWarnAdjacentFree (a b : Z)
  | LErrorInvalidSize (a : Z).

(** The loop under "Check for inconsistencies". *)
Fixpoint check_scan (fuel : nat) (m : gmap Z Z) (current : Z)
    : option (list heap_line) :=
  match fuel with
  | O => None
  | S k =>
      if current =? 0 then Some []
      else
        let w := if is_free m current && negb (next_of m current =? 0)
                    && is_free m (next_of m current)
                 then [LWarnAdjacentFree current (next_of m current)] else [] in
        let e := if size_of m current <=? 0
                 then [LErrorInvalidSize current] else [] in
        rest ← check_scan k m (next_of m current);
        Some (w ++ e ++ rest)
  end.

Definition check_heap (fuel : nat) (st : state) (brk_now data : Z)
    : option (list heap_line) :=
  if data =? 0 then Some [LDataIsNull]
  else
    let block := get_block data in
    if block =? 0 then Some [LBlockIsNull]
    else
      let m := mem st in
      let head :=
        [LHeapCheck; LSize (size_of m block)]
        ++ [if negb (next_of m block =? 0)
            then LNextBlock (next_of m block) else LNextBlockNull]
        ++ [if negb (prev_of m block =? 0)
            then LPrevBlock (prev_of m block) else LPrevBlockNull]
        ++ [LFree (free_of m block)]
        ++ (if negb (ptr_of m block =? 0)
            then [LBeginningData (ptr_of m block);
                  LLastData (ptr_of m block + size_of m block)]
            else [LDataAddressNull])
        ++ [LHeapAddress brk_now] in
      scan ← check_scan fuel m (base st);
      Some (head ++ scan).

(** ** memory_usage: the two totals it accumulates in [size_t] and prints
    (the lines printed per block are left out). *)

Fixpoint usage_loop (fuel : nat) (m : gmap Z Z) (current : Z)
    (total_allocated total_free : Z) : option (Z * Z) :=
  match fuel with
  | O => None
  | S k =>
      if current =? 0 then Some (total_allocated, total_free)
      else if is_free m current
      then usage_loop k m (next_of m current) total_allocated
                      (wrap64 (total_free + size_of m current))
      else usage_loop k m (next_of m current)
                      (wrap64 (total_allocated + size_of m current)) total_free
  end.

Definition memory_usage (fuel : nat) (st : state) : option (Z * Z) :=
  usage_loop fuel (mem st) (base st) 0 0.

(** ** mem_trim *)

Fixpoint trim_loop (fuel : nat) (st : state) (current : Z) : option state :=
  match fuel with
  | O => None
  | S k =>
      if current =? 0 then Some st
      else
        st1 ← (if negb (is_free (mem st) current)
               then my_free fuel st (ptr_of (mem st) current) else Some st);
        m2 ← fusion fuel (mem st1) current;
        let st2 := with_mem st1 m2 in
        let st3 := if next_of m2 current =? 0 then with_base st2 0 else st2 in
        trim_loop k st3 (next_of (mem st3) current)
  end.

Definition mem_trim (fuel : nat) (st : state) : option state :=
  trim_loop fuel st (base st).

(** ** Vocabulary for the properties below *)

(** A block that can serve a request of [size] bytes. *)
Definition suitable (m : gmap Z Z) (size x : Z) : bool :=
  is_free m x && (size <=? size_of m x).

(** The blocks that fusion merges into the block in front of [l]: the
    leading free blocks of [l], the last block of [l] excepted. *)
Fixpoint absorbed (m : gmap Z Z) (l : list Z) : list Z :=
  match l with
  | x :: ((_ :: _) as rest) => if is_free m x then x :: absorbed m rest else []
  | _ => []
  end.

(** The headers of the blocks of [l] do not overlap one another. *)
Fixpoint spaced (l : list Z) : Prop :=
  match l with
  | [] => True
  | x :: rest => Forall (fun y => x + 40 <= y ∨ y + 40 <= x) rest ∧ spaced rest
  end.

(** * Properties of the memory model *)

Section Memory.

Implicit Types (m : gmap Z Z) (a v : Z) (n : nat).

Lemma load8_range m a : 0 <= load8 m a < 256.
Proof. unfold load8. apply Z.mod_pos_bound. lia. Qed.

Lemma load_le_nonneg n m a : 0 <= load_le n m a.
Proof.
  revert a. induction n as [|k IH]; intros a; simpl; [lia|].
  pose proof (load8_range m a). pose proof (IH (a + 1)). lia.
Qed.

Lemma load8_insert_ne m a a' v : a ≠ a' → load8 (<[a := v]> m) a' = load8 m a'.
Proof. intros Hne. unfold load8. by rewrite lookup_insert_ne. Qed.

Lemma load8_insert_eq m a v : load8 (<[a := v]> m) a = v mod 256.
Proof. unfold load8. by rewrite lookup_insert_eq. Qed.

Lemma load8_store_le_out n m a v a' :
  a' < a ∨ a + Z.of_nat n <= a' →
  load8 (store_le n m a v) a' = load8 m a'.
Proof.
  revert m a v. induction n as [|k IH]; intros m a v Hout; simpl; [done|].
  rewrite IH by lia. apply load8_insert_ne. lia.
Qed.

(** A store does not change what a load of a disjoint range returns. *)
Lemma load_le_store_le_disjoint n' n m a v a' :
  a' + Z.of_nat n' <= a ∨ a + Z.of_nat n <= a' →
  load_le n' (store_le n m a v) a' = load_le n' m a'.
Proof.
  revert a'. induction n' as [|k IH]; intros a' Hd; simpl; [done|].
  rewrite IH by lia. rewrite load8_store_le_out by lia. done.
Qed.

(** A load returns what was stored at the same place, truncated to the
    width of the access. *)
Lemma load_le_store_le_same n m a v :
  load_le n (store_le n m a v) a = v mod 256 ^ Z.of_nat n.
Proof.
  revert m a v. induction n as [|k IH]; intros m a v.
  - simpl. by rewrite Z.mod_1_r.
  - cbn [load_le store_le]. rewrite IH.
    rewrite load8_store_le_out by lia. rewrite load8_insert_eq.
    rewrite Zmod_mod.
    replace (256 ^ Z.of_nat (S k)) with (256 * 256 ^ Z.of_nat k)
      by (rewrite Nat2Z.inj_succ, Z.pow_succ_r by lia; done).
    rewrite Z.rem_mul_r by lia. done.
Qed.

End Memory.

(** Discharges the side conditions of the frame lemma on header fields. *)
Ltac frame_fields :=
  unfold size_of, next_of, prev_of, free_of, ptr_of, set_size, set_next,
    set_prev, set_free, set_ptr, data_of, load64, load32, store64, store32;
  repeat (rewrite load_le_store_le_disjoint by (simpl; lia));
  try reflexivity.

Section Fields.

Implicit Types (m : gmap Z Z) (b v s : Z).

Lemma size_of_nonneg m b : 0 <= size_of m b.
Proof. apply load_le_nonneg. Qed.

Lemma next_of_nonneg m b : 0 <= next_of m b.
Proof. apply load_le_nonneg. Qed.

Lemma ptr_of_set_ptr m b v : ptr_of (set_ptr m b v) b = wrap64 v.
Proof. unfold ptr_of, set_ptr, load64, store64. apply load_le_store_le_same. Qed.

Lemma wrap64_nonneg v : 0 <= wrap64 v.
Proof. unfold wrap64. apply Z.mod_pos_bound. lia. Qed.

Lemma align_nonneg v : 0 <= align v.
Proof. apply wrap64_nonneg. Qed.

(** split_block writes the size, next and free fields of the block it
    carves out and the size and next fields of the block it shrinks; the
    ptr fields of both keep the bytes they had. *)
Lemma split_block_new_ptr m b s :
  0 <= s → ptr_of (split_block m b s) (data_of b + s) = ptr_of m (data_of b + s).
Proof.
  intros Hs. unfold split_block.
  destruct (size_of m b <=? wrap64 (s + BLOCK_SIZE)); [done|].
  cbv zeta. frame_fields.
Qed.

Lemma split_block_old_ptr m b s :
  0 <= s → ptr_of (split_block m b s) b = ptr_of m b.
Proof.
  intros Hs. unfold split_block.
  destruct (size_of m b <=? wrap64 (s + BLOCK_SIZE)); [done|].
  cbv zeta. frame_fields.
Qed.

End Fields.

(** * Resolution on a finite ledger *)

Section Ledger.

Implicit Types (m : gmap Z Z) (l : list Z) (st : state) (fuel : nat).

Lemma chain_functional m a l1 l2 : chain m a l1 → chain m a l2 → l1 = l2.
Proof.
  revert a l2. induction l1 as [|x l1 IH]; intros a [|y l2]; simpl.
  - done.
  - intros -> (? & ? & _). lia.
  - intros (? & ? & _) ->. lia.
  - intros (-> & _ & H1) (Hy & _ & H2). subst y. f_equal. eauto.
Qed.

Lemma valid_walk_chain fuel m b p a l :
  chain m a l → (length l < fuel)%nat →
  valid_walk fuel m b p a
  = Some (if bool_decide (b ∈ l)
          then (if ptr_of m b =? p then 1 else 0) else 0).
Proof.
  revert fuel a. induction l as [|x l IH]; intros fuel a Hc Hf;
    destruct fuel as [|k]; simpl in *; try lia.
  - by subst a.
  - destruct Hc as (-> & Hx & Hc).
    destruct (x =? 0) eqn:E0; [lia|].
    destruct (x =? b) eqn:Eb.
    + apply Z.eqb_eq in Eb. subst b.
      rewrite bool_decide_eq_true_2; [done | apply elem_of_cons; by left].
    + apply Z.eqb_neq in Eb. rewrite (IH k) by (done || lia).
      destruct (bool_decide (b ∈ l)) eqn:Hin.
      * apply bool_decide_eq_true_1 in Hin.
        rewrite bool_decide_eq_true_2; [done | apply elem_of_cons; by right].
      * apply bool_decide_eq_false_1 in Hin.
        rewrite bool_decide_eq_false_2; [done|].
        intros [?|?]%elem_of_cons; congruence.
Qed.

(** valid_addr decides resolution on every finite ledger. *)
Lemma valid_addr_resolves fuel st l p :
  ledger st l → (length l < fuel)%nat →
  valid_addr fuel st p = Some (if resolves st l p then 1 else 0).
Proof.
  intros Hc Hf. unfold valid_addr, resolves.
  destruct (p =? 0) eqn:Ep; [done|].
  destruct (base st =? 0) eqn:Eb.
  - apply Z.eqb_eq in Eb. unfold ledger in Hc. rewrite Eb in Hc.
    destruct l as [|x l]; simpl in Hc; [|lia].
    cbn [orb andb negb]. case_bool_decide as Hin; [|done].
    by apply elem_of_nil in Hin.
  - simpl. rewrite (valid_walk_chain _ _ _ _ _ l) by done.
    by destruct (bool_decide _), (ptr_of _ _ =? p).
Qed.

Lemma blocks_from_chain fuel m a l :
  chain m a l → (length l < fuel)%nat → blocks_from fuel m a = l.
Proof.
  revert fuel a. induction l as [|x l IH]; intros fuel a Hc Hf;
    destruct fuel as [|k]; simpl in *; try lia.
  - by subst a.
  - destruct Hc as (-> & Hx & Hc).
    destruct (x =? 0) eqn:E0; [lia|]. f_equal. apply IH; [done | lia].
Qed.

End Ledger.

(** * The searches on a finite ledger *)

Section Search.

Implicit Types (m : gmap Z Z) (l : list Z) (st : state) (fuel : nat).

Lemma chain_positive m a l b : chain m a l → b ∈ l → 0 < b.
Proof.
  revert a. induction l as [|x l IH]; intros a Hc Hin.
  - by apply elem_of_nil in Hin.
  - destruct Hc as (-> & Hx & Hc).
    apply elem_of_cons in Hin as [->|Hin]; [done | eauto].
Qed.

Lemma first_fit_chain fuel m size a last l :
  chain m a l → (length l < fuel)%nat →
  ∃ b last', first_fit fuel m size a last = Some (b, last')
             ∧ (b = 0 ∨ b ∈ l).
Proof.
  revert fuel a last. induction l as [|x l IH]; intros fuel a last Hc Hf;
    destruct fuel as [|k]; simpl in *; try lia.
  - subst a. simpl. eauto.
  - destruct Hc as (-> & Hx & Hc).
    destruct (x =? 0) eqn:E0; [lia|].
    destruct (is_free m x && (size <=? size_of m x)).
    + eexists _, _. split; [done|]. right. apply elem_of_cons. by left.
    + destruct (IH k (next_of m x) x Hc) as (b & last' & -> & Hb); [lia|].
      eexists _, _. split; [done|].
      destruct Hb as [->|Hb]; [by left | right; apply elem_of_cons; by right].
Qed.

Lemma best_fit_chain fuel m size a last dif best l :
  chain m a l → (length l < fuel)%nat →
  ∃ b last', best_fit fuel m size a last dif best = Some (b, last')
             ∧ (b = best ∨ b ∈ l).
Proof.
  revert fuel a last dif best.
  induction l as [|x l IH]; intros fuel a last dif best Hc Hf;
    destruct fuel as [|k]; simpl in *; try lia.
  - subst a. simpl. eauto.
  - destruct Hc as (-> & Hx & Hc).
    destruct (x =? 0) eqn:E0; [lia|].
    assert (Hstep : ∀ dif' best', best' = best ∨ best' = x →
              ∃ b last', best_fit k m size (next_of m x) x dif' best'
                         = Some (b, last') ∧ (b = best ∨ b ∈ x :: l)).
    { intros dif' best' Hb'.
      destruct (IH k (next_of m x) x dif' best' Hc) as (b & last' & -> & Hb);
        [lia|].
      eexists _, _. split; [done|].
      destruct Hb as [->|Hb].
      - destruct Hb' as [->| ->]; [by left | right; apply elem_of_cons; by left].
      - right. apply elem_of_cons. by right. }
    destruct (is_free m x); [|by apply Hstep; left].
    destruct (size_of m x =? size).
    { eexists _, _. split; [done|]. right. apply elem_of_cons. by left. }
    destruct ((size <? size_of m x) && _); apply Hstep; auto.
Qed.

Lemma worst_fit_chain fuel m size a last dif best l :
  chain m a l → (length l < fuel)%nat →
  ∃ b last', worst_fit fuel m size a last dif best = Some (b, last')
             ∧ (b = best ∨ b ∈ l).
Proof.
  revert fuel a last dif best.
  induction l as [|x l IH]; intros fuel a last dif best Hc Hf;
    destruct fuel as [|k]; simpl in *; try lia.
  - subst a. simpl. eauto.
  - destruct Hc as (-> & Hx & Hc).
    destruct (x =? 0) eqn:E0; [lia|].
    assert (Hstep : ∀ dif' best', best' = best ∨ best' = x →
              ∃ b last', worst_fit k m size (next_of m x) x dif' best'
                         = Some (b, last') ∧ (b = best ∨ b ∈ x :: l)).
    { intros dif' best' Hb'.
      destruct (IH k (next_of m x) x dif' best' Hc) as (b & last' & -> & Hb);
        [lia|].
      eexists _, _. split; [done|].
      destruct Hb as [->|Hb].
      - destruct Hb' as [->| ->]; [by left | right; apply elem_of_cons; by left].
      - right. apply elem_of_cons. by right. }
    destruct (is_free m x); [|by apply Hstep; left].
    destruct (size_of m x =? size).
    { eexists _, _. split; [done|]. right. apply elem_of_cons. by left. }
    destruct ((size <? size_of m x) && _); apply Hstep; auto.
Qed.

(** On a finite ledger find_block returns, and what it returns is NULL
    or a block of the ledger. *)
Lemma find_block_chain fuel st last size l :
  ledger st l → (length l < fuel)%nat →
  ∃ b last', find_block fuel st last size = Some (b, last')
             ∧ (b = 0 ∨ b ∈ l).
Proof.
  intros Hc Hf. unfold find_block.
  destruct (method st =? 0); [by apply first_fit_chain|].
  destruct (method st =? 1); [by apply best_fit_chain|].
  destruct (method st =? 2); [by apply worst_fit_chain|].
  eexists _, _. split; [done | by left].
Qed.

Lemma mmap_refused st len st' :
  mmap st len = (st', None) →
  mem st' = mem st ∧ base st' = base st ∧ method st' = method st
  ∧ malloc_call st' = malloc_call st.
Proof.
  unfold mmap. destruct (len =? 0).
  - intros [= <-]. done.
  - destruct (mmap_answers st) as [|[a|] rest]; intros [= <-]; done.
Qed.

Lemma mmap_granted st len st' a : mmap st len = (st', Some a) → 0 < a.
Proof.
  unfold mmap. destruct (len =? 0); [done|].
  destruct (mmap_answers st) as [|[a'|] rest]; intros [= <- <-]; lia.
Qed.

Lemma extend_heap_null st last s st' :
  extend_heap st last s = (st', 0) →
  mem st' = mem st ∧ base st' = base st ∧ method st' = method st
  ∧ malloc_call st' = malloc_call st.
Proof.
  unfold extend_heap. destruct (mmap st s) as [st1 [a|]] eqn:Hm.
  - intros [= <- Ha]. apply mmap_granted in Hm. lia.
  - intros [= <-]. by apply mmap_refused in Hm.
Qed.

(** On a finite ledger my_malloc returns; when it returns NULL it has
    changed neither the memory nor the anchor nor the policy. *)
Lemma my_malloc_chain fuel st size l :
  ledger st l → (length l < fuel)%nat →
  ∃ st' p, my_malloc fuel st size = Some (st', p)
           ∧ (p = 0 → mem st' = mem st ∧ base st' = base st
                      ∧ method st' = method st
                      ∧ malloc_call st' = malloc_call st).
Proof.
  intros Hc Hf. unfold my_malloc.
  destruct (base st =? 0) eqn:Eb; cbn [negb].
  - destruct (extend_heap st 0 (align size)) as [st1 b1] eqn:He.
    destruct (b1 =? 0) eqn:E1.
    + apply Z.eqb_eq in E1. subst b1. eexists _, _. split; [done|].
      intros _. by apply extend_heap_null in He.
    + apply Z.eqb_neq in E1. eexists _, _. split; [done|].
      unfold malloc_return, data_of. cbn. intros Hp.
      unfold extend_heap in He. destruct (mmap st (align size)) as [s1 [a|]] eqn:Hm;
        injection He as <- <-; [apply mmap_granted in Hm; lia | done].
  - destruct (find_block_chain fuel st (base st) (align size) l Hc Hf)
      as (b & last & -> & Hb). cbn [mbind option_bind].
    destruct (b =? 0) eqn:E0; cbn [negb].
    + destruct (extend_heap st last (align size)) as [st1 b1] eqn:He.
      destruct (b1 =? 0) eqn:E1.
      * apply Z.eqb_eq in E1. subst b1. eexists _, _. split; [done|].
        intros _. by apply extend_heap_null in He.
      * apply Z.eqb_neq in E1. eexists _, _. split; [done|].
        unfold malloc_return, data_of. cbn. intros Hp.
        unfold extend_heap in He.
        destruct (mmap st (align size)) as [s1 [a|]] eqn:Hm;
          injection He as <- <-; [apply mmap_granted in Hm; lia | done].
    + apply Z.eqb_neq in E0. destruct Hb as [->|Hb]; [done|].
      eexists _, _. split; [done|].
      unfold malloc_return, data_of. cbn. intros Hp.
      pose proof (chain_positive _ _ _ _ Hc Hb). lia.
Qed.

End Search.

(** * Arithmetic of double

    What external_frag needs of binary64: the conversion of an integer
    below 2^53 and the addition of two such values are exact, the
    conversion of a positive integer is never zero, and rounding a value
    below a double does not give a double above it. *)

Section Double.

Implicit Types (p c : positive) (m e n k : Z).

Lemma digits2_pos_bounds p :
  2 ^ (Z.pos (digits2_pos p) - 1) <= Z.pos p < 2 ^ Z.pos (digits2_pos p).
Proof.
  induction p as [p IH|p IH|]; cbn [digits2_pos].
  - rewrite Pos2Z.inj_succ. change (Z.pos p~1) with (2 * Z.pos p + 1).
    replace (Z.succ (Z.pos (digits2_pos p)) - 1)
      with (Z.succ (Z.pos (digits2_pos p) - 1)) by lia.
    pose proof (Pos2Z.is_pos (digits2_pos p)).
    rewrite (Z.pow_succ_r 2 (Z.pos (digits2_pos p) - 1)) by lia.
    rewrite (Z.pow_succ_r 2 (Z.pos (digits2_pos p))) by lia. lia.
  - rewrite Pos2Z.inj_succ. change (Z.pos p~0) with (2 * Z.pos p).
    replace (Z.succ (Z.pos (digits2_pos p)) - 1)
      with (Z.succ (Z.pos (digits2_pos p) - 1)) by lia.
    pose proof (Pos2Z.is_pos (digits2_pos p)).
    rewrite (Z.pow_succ_r 2 (Z.pos (digits2_pos p) - 1)) by lia.
    rewrite (Z.pow_succ_r 2 (Z.pos (digits2_pos p))) by lia. lia.
  - simpl. lia.
Qed.

Lemma digits2_pos_unique p d :
  2 ^ (d - 1) <= Z.pos p < 2 ^ d → Z.pos (digits2_pos p) = d.
Proof.
  intros [Hlo Hhi]. pose proof (digits2_pos_bounds p) as [Hlo' Hhi'].
  set (d' := Z.pos (digits2_pos p)) in *.
  destruct (Z.lt_trichotomy d' d) as [Hlt|[Heq|Hgt]]; [|done|].
  - assert (2 ^ d' <= 2 ^ (d - 1)) by (apply Z.pow_le_mono_r; lia). lia.
  - assert (0 <= d) by (destruct (Z.le_gt_cases 0 d); [done|];
      rewrite Z.pow_neg_r in Hhi by lia; lia).
    assert (2 ^ d <= 2 ^ (d' - 1)) by (apply Z.pow_le_mono_r; lia). lia.
Qed.

Lemma Zdigits2_shift c n :
  0 <= n → Zdigits2 (Z.pos c * 2 ^ n) = Z.pos (digits2_pos c) + n.
Proof.
  intros Hn. pose proof (digits2_pos_bounds c) as [Hlo Hhi].
  assert (Hp : 0 < 2 ^ n) by (apply Z.pow_pos_nonneg; lia).
  destruct (Z.pos c * 2 ^ n) as [|q|q] eqn:E; [lia| |lia].
  cbn [Zdigits2]. apply digits2_pos_unique. rewrite <- E.
  replace (Z.pos (digits2_pos c) + n - 1)
    with (Z.pos (digits2_pos c) - 1 + n) by lia.
  rewrite !Z.pow_add_r by lia. nia.
Qed.

Lemma iter_pos_nat {A : Type} (f : A → A) (q : positive) (x : A) :
  SpecFloat.iter_pos f q x = Nat.iter (Pos.to_nat q) f x.
Proof.
  revert x. induction q as [q IH|q IH|]; intros x; cbn [SpecFloat.iter_pos].
  - rewrite !IH, Pos2Nat.inj_xI, <- Nat.iter_add, <- Nat.iter_succ_r.
    f_equal. lia.
  - rewrite !IH, Pos2Nat.inj_xO, <- Nat.iter_add. f_equal. lia.
  - done.
Qed.

Lemma shr_m_shr_1 (r : shr_record) : 0 <= shr_m r → shr_m (shr_1 r) = shr_m r / 2.
Proof.
  destruct r as [m rr s]. cbn [shr_m]. intros Hm.
  rewrite <- Z.div2_div. by destruct m as [|[q|q|]|].
Qed.

Lemma shr_m_iter (j : nat) (r : shr_record) :
  0 <= shr_m r → shr_m (Nat.iter j shr_1 r) = shr_m r / 2 ^ Z.of_nat j.
Proof.
  intros Hm. induction j as [|j IH].
  - cbn. by rewrite Z.div_1_r.
  - rewrite Nat.iter_succ, shr_m_shr_1.
    + rewrite IH, Nat2Z.inj_succ, Z.pow_succ_r by lia.
      rewrite Z.div_div by lia. f_equal. lia.
    + rewrite IH. apply Z.div_pos; lia.
Qed.

Lemma shr_iter_exact (j : nat) m :
  0 <= m →
  Nat.iter j shr_1 (Build_shr_record (m * 2 ^ Z.of_nat j) false false)
  = Build_shr_record m false false.
Proof.
  revert m. induction j as [|j IH]; intros m Hm.
  - cbn. by rewrite Z.mul_1_r.
  - rewrite Nat.iter_succ_r, Nat2Z.inj_succ, Z.pow_succ_r by lia.
    replace (m * (2 * 2 ^ Z.of_nat j)) with (2 * (m * 2 ^ Z.of_nat j)) by lia.
    replace (shr_1 (Build_shr_record (2 * (m * 2 ^ Z.of_nat j)) false false))
      with (Build_shr_record (m * 2 ^ Z.of_nat j) false false).
    + by apply IH.
    + by destruct (m * 2 ^ Z.of_nat j).
Qed.

Lemma shr_exact m e n :
  0 <= m → 0 <= n →
  shr (Build_shr_record (m * 2 ^ n) false false) e n
  = (Build_shr_record m false false, e + n).
Proof.
  intros Hm Hn. destruct n as [|q|q]; [|clear Hn|lia].
  - cbn. by rewrite Z.mul_1_r, Z.add_0_r.
  - cbn [shr]. rewrite iter_pos_nat.
    rewrite <- (positive_nat_Z q) at 1. by rewrite shr_iter_exact.
Qed.

Lemma fexp_unclamped e : -1021 <= e → fexp 53 1024 e = e - 53.
Proof. intros He. unfold fexp, emin. lia. Qed.

(** A mantissa of 53 binary digits is what rounding produces; trailing
    zero bits shifted out leave it exact. *)
Lemma binary_round_aux_exact c e n :
  Z.pos (digits2_pos c) = 53 → -1074 <= e <= 971 → 0 <= n →
  binary_round_aux 53 1024 false (Z.pos c * 2 ^ n) (e - n) loc_Exact
  = S754_finite false c e.
Proof.
  intros Hd He Hn. unfold binary_round_aux, shr_fexp.
  rewrite Zdigits2_shift by done. rewrite Hd.
  replace (53 + n + (e - n)) with (53 + e) by lia.
  rewrite fexp_unclamped by lia.
  replace (53 + e - 53 - (e - n)) with n by lia.
  cbn [shr_record_of_loc]. rewrite shr_exact by lia.
  cbn [shr_m loc_of_shr_record round_nearest_even Zdigits2].
  rewrite Hd. replace (e - n + n) with e by lia.
  rewrite fexp_unclamped by lia.
  replace (53 + e - 53 - e) with 0 by lia.
  cbn [shr_record_of_loc shr shr_m].
  replace (e <=? 1024 - 53) with true by (symmetry; apply Z.leb_le; lia).
  done.
Qed.

Lemma pos_iter_xO c (q : positive) :
  Z.pos (Pos.iter xO c q) = Z.pos c * 2 ^ Z.pos q.
Proof.
  rewrite Pos2Nat.inj_iter, <- (positive_nat_Z q).
  induction (Pos.to_nat q) as [|j IH].
  - cbn. lia.
  - cbn [nat_rect]. rewrite Pos2Z.inj_xO, IH, Nat2Z.inj_succ.
    rewrite (Z.pow_succ_r 2 (Z.of_nat j)) by lia. lia.
Qed.

Lemma shl_align_value c e e' :
  e' <= e → Z.pos (fst (shl_align c e e')) = Z.pos c * 2 ^ (e - e').
Proof.
  intros He. unfold shl_align.
  destruct (e' - e) as [|q|q] eqn:E.
  - replace (e - e') with 0 by lia. cbn. lia.
  - lia.
  - cbn [fst]. rewrite pos_iter_xO. f_equal. f_equal. lia.
Qed.

(** Rounding a mantissa and exponent whose value a 53-digit mantissa
    represents gives that mantissa. *)
Lemma binary_round_exact (M c : positive) (E e : Z) :
  Z.pos (digits2_pos c) = 53 → -1074 <= e <= 971 →
  (e <= E ∧ Z.pos c = Z.pos M * 2 ^ (E - e))
  ∨ (E <= e ∧ Z.pos M = Z.pos c * 2 ^ (e - E)) →
  binary_round 53 1024 false M E = S754_finite false c e.
Proof.
  intros Hd He Hv. unfold binary_round.
  assert (HdM : Z.pos (digits2_pos M) + E = 53 + e).
  { destruct Hv as [[Hle Hv]|[Hle Hv]].
    - pose proof (Zdigits2_shift M (E - e) ltac:(lia)) as H.
      rewrite <- Hv in H. cbn [Zdigits2] in H. lia.
    - pose proof (Zdigits2_shift c (e - E) ltac:(lia)) as H.
      rewrite <- Hv in H. cbn [Zdigits2] in H. lia. }
  rewrite HdM, fexp_unclamped by lia.
  replace (53 + e - 53) with e by lia.
  unfold shl_align. destruct (e - E) as [|q|q] eqn:Eq.
  - assert (E = e) by lia. subst E.
    assert (M = c).
    { destruct Hv as [[_ Hv]|[_ Hv]];
        rewrite ?Z.sub_diag, ?Z.pow_0_r in Hv; lia. }
    subst M. pose proof (binary_round_aux_exact c e 0 Hd He ltac:(lia)) as H.
    rewrite Z.pow_0_r, Z.mul_1_r, Z.sub_0_r in H. exact H.
  - destruct Hv as [[Hle Hv]|[Hle Hv]]; [lia|].
    rewrite Hv. replace E with (e - Z.pos q) by lia.
    apply binary_round_aux_exact; [done|done|lia].
  - destruct Hv as [[Hle Hv]|[Hle Hv]]; [|lia].
    assert (Pos.iter xO M q = c) as ->.
    { apply Pos2Z.inj. rewrite pos_iter_xO, Hv. f_equal. f_equal. lia. }
    pose proof (binary_round_aux_exact c e 0 Hd He ltac:(lia)) as H.
    rewrite Z.pow_0_r, Z.mul_1_r, Z.sub_0_r in H. exact H.
Qed.


(** Every positive integer below 2^53 has a 53-digit mantissa. *)
Lemma canon_exists p :
  Z.pos p < 2 ^ 53 →
  ∃ c e, Z.pos (digits2_pos c) = 53 ∧ -52 <= e <= 0
         ∧ Z.pos c = Z.pos p * 2 ^ (- e).
Proof.
  intros Hp. pose proof (digits2_pos_bounds p) as [Hlo Hhi].
  set (d := Z.pos (digits2_pos p)) in *.
  assert (Hd1 : 1 <= d) by (unfold d; lia).
  assert (Hd : d <= 53).
  { destruct (Z.le_gt_cases d 53); [done|].
    assert (2 ^ 53 <= 2 ^ (d - 1)) by (apply Z.pow_le_mono_r; lia). lia. }
  assert (Hpos : 0 < Z.pos p * 2 ^ (53 - d)).
  { apply Z.mul_pos_pos; [lia|]. apply Z.pow_pos_nonneg; lia. }
  exists (Z.to_pos (Z.pos p * 2 ^ (53 - d))), (d - 53).
  rewrite Z2Pos.id by done. split; [|split; [lia|f_equal; f_equal; lia]].
  pose proof (Zdigits2_shift p (53 - d) ltac:(lia)) as H.
  destruct (Z.pos p * 2 ^ (53 - d)) as [|q|q]; [lia| |lia].
  cbn [Zdigits2] in H. cbn [Z.to_pos]. fold d in H. lia.
Qed.

Lemma to_double_pos_unfold p :
  to_double (Z.pos p) = binary_round 53 1024 false p 0.
Proof. reflexivity. Qed.

(** An integer below 2^53 given with trailing zero bits rounds to the
    double of that integer. *)
Lemma binary_round_int (M p : positive) k :
  0 <= k → Z.pos M = Z.pos p * 2 ^ k → Z.pos p < 2 ^ 53 →
  binary_round 53 1024 false M (- k) = to_double (Z.pos p).
Proof.
  intros Hk HM Hp. destruct (canon_exists p Hp) as (c & e & Hd & He & Hc).
  rewrite to_double_pos_unfold.
  assert (H0 : binary_round 53 1024 false p 0 = S754_finite false c e).
  { apply binary_round_exact; [done|lia|].
    left. split; [lia|]. rewrite Hc. by replace (0 - e) with (- e) by lia. }
  rewrite H0.
  apply binary_round_exact; [done|lia|].
  destruct (Z.le_gt_cases e (- k)) as [Hle|Hgt].
  - left. split; [done|]. rewrite Hc, HM, <- Z.mul_assoc, <- Z.pow_add_r by lia.
    f_equal. f_equal. lia.
  - right. split; [lia|]. rewrite Hc, HM, <- Z.mul_assoc, <- Z.pow_add_r by lia.
    f_equal. f_equal. lia.
Qed.

Lemma to_double_small p :
  Z.pos p < 2 ^ 53 →
  ∃ c e, to_double (Z.pos p) = S754_finite false c e
         ∧ -52 <= e <= 0 ∧ Z.pos c = Z.pos p * 2 ^ (- e).
Proof.
  intros Hp. destruct (canon_exists p Hp) as (c & e & Hd & He & Hc).
  exists c, e. split; [|done]. rewrite to_double_pos_unfold.
  apply binary_round_exact; [done|lia|].
  left. split; [lia|]. rewrite Hc. by replace (0 - e) with (- e) by lia.
Qed.

(** Below 2^53 the addition of two converted sizes is exact. *)
Lemma dadd_exact a b :
  0 <= a → 0 <= b → a + b < 2 ^ 53 →
  dadd (to_double a) (to_double b) = to_double (a + b).
Proof.
  intros Ha Hb Hab.
  destruct a as [|pa|pa]; [|clear Ha|lia]; (destruct b as [|pb|pb]; [|clear Hb|lia]).
  - reflexivity.
  - destruct (to_double_small pb ltac:(lia)) as (c & e & E & _).
    rewrite Z.add_0_l, E. reflexivity.
  - destruct (to_double_small pa ltac:(lia)) as (c & e & E & _).
    rewrite Z.add_0_r, E. reflexivity.
  - change (Z.pos pa + Z.pos pb) with (Z.pos (pa + pb)) in *.
    destruct (to_double_small pa ltac:(lia)) as (ca & ea & -> & Hea & Hca).
    destruct (to_double_small pb ltac:(lia)) as (cb & eb & -> & Heb & Hcb).
    unfold dadd, SFadd. cbn [cond_Zopp].
    set (ez := Z.min ea eb).
    pose proof (shl_align_value ca ea ez ltac:(unfold ez; lia)) as Va.
    pose proof (shl_align_value cb eb ez ltac:(unfold ez; lia)) as Vb.
    assert (Hez : -52 <= ez <= 0) by (unfold ez; lia).
    assert (Hsum : Z.pos (fst (shl_align ca ea ez)) + Z.pos (fst (shl_align cb eb ez))
                   = Z.pos (pa + pb) * 2 ^ (- ez)).
    { rewrite Va, Vb, Hca, Hcb, <- !Z.mul_assoc, <- !Z.pow_add_r by lia.
      replace (- ea + (ea - ez)) with (- ez) by lia.
      replace (- eb + (eb - ez)) with (- ez) by lia. lia. }
    destruct (Z.pos (fst (shl_align ca ea ez)) + Z.pos (fst (shl_align cb eb ez)))
      as [|M|M] eqn:EM; [lia| |lia].
    cbn [binary_normalize]. replace ez with (- (- ez)) at 1 by lia.
    apply binary_round_int; [lia|done|lia].
Qed.

Lemma dsum_exact_from (l : list Z) (acc : Z) :
  0 <= acc → Forall (fun s => 0 <= s) l →
  acc + fold_right Z.add 0 l < 2 ^ 53 →
  fold_left (fun a s => dadd a (to_double s)) l (to_double acc)
  = to_double (acc + fold_right Z.add 0 l).
Proof.
  revert acc. induction l as [|s l IH]; intros acc Hacc Hl Hlt.
  - cbn. by rewrite Z.add_0_r.
  - apply Forall_cons in Hl as [Hs Hl]. cbn [fold_left fold_right] in *.
    assert (0 <= fold_right Z.add 0 l).
    { clear -Hl. induction Hl; cbn; lia. }
    rewrite dadd_exact by lia. rewrite IH by (done || lia). f_equal. lia.
Qed.

Lemma dsum_exact (l : list Z) :
  Forall (fun s => 0 <= s) l → fold_right Z.add 0 l < 2 ^ 53 →
  dsum l = to_double (fold_right Z.add 0 l).
Proof.
  intros Hl Hlt. unfold dsum. rewrite dsum_exact_from by (done || lia). done.
Qed.

(** Rounding a positive mantissa never gives zero: the shifts keep the
    leading digit. *)
Lemma shr_m_of_loc m l : shr_m (shr_record_of_loc m l) = m.
Proof. by destruct l as [|[]]. Qed.

Lemma shr_fexp_pos m e l :
  0 < m → -1022 <= e →
  0 < shr_m (shr_fexp 53 1024 m e l).1 ∧ -1022 <= (shr_fexp 53 1024 m e l).2.
Proof.
  intros Hm He. unfold shr_fexp.
  destruct m as [|q|q]; [lia| |lia]. cbn [Zdigits2].
  pose proof (digits2_pos_bounds q) as [Hlo Hhi].
  rewrite fexp_unclamped by lia.
  destruct (Z.pos (digits2_pos q) + e - 53 - e) as [|j|j] eqn:Ej; cbn [shr fst snd].
  - rewrite shr_m_of_loc. lia.
  - split; [|lia]. rewrite iter_pos_nat, shr_m_iter; rewrite shr_m_of_loc; [|lia].
    rewrite positive_nat_Z.
    assert (2 ^ Z.pos j <= 2 ^ (Z.pos (digits2_pos q) - 1))
      by (apply Z.pow_le_mono_r; lia).
    apply Z.div_str_pos. split; [apply Z.pow_pos_nonneg; lia|lia].
  - rewrite shr_m_of_loc. lia.
Qed.

Lemma round_nearest_even_pos m l : 0 < m → 0 < round_nearest_even m l.
Proof.
  intros Hm. destruct l as [|[]]; cbn [round_nearest_even]; try lia.
  destruct (Z.even m); lia.
Qed.

Lemma binary_round_aux_pos (sx : bool) (mx : positive) ex lx :
  -1022 <= ex →
  (∃ c e, binary_round_aux 53 1024 sx (Z.pos mx) ex lx = S754_finite sx c e)
  ∨ binary_round_aux 53 1024 sx (Z.pos mx) ex lx = S754_infinity sx.
Proof.
  intros He. unfold binary_round_aux.
  pose proof (shr_fexp_pos (Z.pos mx) ex lx ltac:(lia) He) as [H1 H2].
  destruct (shr_fexp 53 1024 (Z.pos mx) ex lx) as [mrs' e'].
  cbn [fst snd] in H1, H2.
  pose proof (round_nearest_even_pos _ (loc_of_shr_record mrs') H1) as H3.
  pose proof (shr_fexp_pos _ e' loc_Exact H3 H2) as [H4 _].
  destruct (shr_fexp 53 1024 _ e' loc_Exact) as [mrs'' e''].
  cbn [fst] in H4. destruct (shr_m mrs'') as [|q|q]; [lia| |lia].
  destruct (e'' <=? 1024 - 53); [left; by eexists _, _|by right].
Qed.

Lemma to_double_pos x :
  0 < x →
  (∃ c e, to_double x = S754_finite false c e)
  ∨ to_double x = S754_infinity false.
Proof.
  intros Hx. destruct x as [|p|p]; [lia| |lia].
  rewrite to_double_pos_unfold. unfold binary_round.
  pose proof (digits2_pos_bounds p) as _.
  rewrite fexp_unclamped by lia.
  destruct (shl_align p 0 (Z.pos (digits2_pos p) + 0 - 53)) as [mz ez] eqn:E.
  apply binary_round_aux_pos.
  unfold shl_align in E.
  destruct (Z.pos (digits2_pos p) + 0 - 53 - 0) eqn:E'; injection E as <- <-; lia.
Qed.


Lemma to_double_canon p :
  Z.pos p < 2 ^ 53 →
  ∃ c e, to_double (Z.pos p) = S754_finite false c e
         ∧ Z.pos (digits2_pos c) = 53
         ∧ -52 <= e <= 0 ∧ Z.pos c = Z.pos p * 2 ^ (- e).
Proof.
  intros Hp. destruct (canon_exists p Hp) as (c & e & Hd & He & Hc).
  exists c, e. split; [|done]. rewrite to_double_pos_unfold.
  apply binary_round_exact; [done|lia|].
  left. split; [lia|]. rewrite Hc. by replace (0 - e) with (- e) by lia.
Qed.

Lemma round_nearest_even_bounds m l :
  m <= round_nearest_even m l <= m + 1.
Proof.
  destruct l as [|[]]; cbn [round_nearest_even]; try lia.
  destruct (Z.even m); lia.
Qed.

Lemma digits2_pos_ge p d : 2 ^ (d - 1) <= Z.pos p → d <= Z.pos (digits2_pos p).
Proof.
  intros Hlo. pose proof (digits2_pos_bounds p) as [_ Hhi].
  destruct (Z.le_gt_cases d (Z.pos (digits2_pos p))) as [|Hgt]; [done|].
  assert (2 ^ Z.pos (digits2_pos p) <= 2 ^ (d - 1))
    by (apply Z.pow_le_mono_r; lia). lia.
Qed.

(** The shift that rounding applies to a positive mantissa of at least 53
    digits, away from the subnormal range, leaves its 53 leading digits. *)
Lemma shr_fexp_spec (q : positive) e l :
  53 <= Z.pos (digits2_pos q) → -1022 <= e →
  shr_m (shr_fexp 53 1024 (Z.pos q) e l).1
  = Z.pos q / 2 ^ (Z.pos (digits2_pos q) - 53)
  ∧ (shr_fexp 53 1024 (Z.pos q) e l).2 = e + (Z.pos (digits2_pos q) - 53).
Proof.
  intros Hd He. unfold shr_fexp. cbn [Zdigits2].
  rewrite fexp_unclamped by lia.
  replace (Z.pos (digits2_pos q) + e - 53 - e)
    with (Z.pos (digits2_pos q) - 53) by lia.
  destruct (Z.pos (digits2_pos q) - 53) as [|j|j] eqn:Ej; [| |lia];
    cbn [shr fst snd].
  - rewrite shr_m_of_loc, Z.div_1_r. lia.
  - rewrite iter_pos_nat, shr_m_iter; rewrite shr_m_of_loc; [|lia].
    by rewrite positive_nat_Z.
Qed.

(** Rounding a value strictly below a double [cB * 2^eB] gives a double
    that is not above it. *)
Lemma binary_round_aux_below (q cB : positive) (e eB : Z) l :
  53 <= Z.pos (digits2_pos q) → Z.pos (digits2_pos cB) = 53 →
  -1022 <= e → e <= eB → eB <= 971 →
  Z.pos q < Z.pos cB * 2 ^ (eB - e) →
  ∃ c e1, binary_round_aux 53 1024 false (Z.pos q) e l = S754_finite false c e1
          ∧ Z.pos (digits2_pos c) = 53
          ∧ e <= e1
          ∧ (e1 < eB ∨ (e1 = eB ∧ Z.pos c <= Z.pos cB)).
Proof.
  intros Hd HdB He HeB HeB' Hlt.
  pose proof (digits2_pos_bounds q) as [Hqlo Hqhi].
  pose proof (digits2_pos_bounds cB) as [HBlo HBhi]. rewrite HdB in HBlo, HBhi.
  set (d := Z.pos (digits2_pos q)) in *. set (n := d - 53).
  (* the exponent after the first shift is at most eB *)
  assert (Hexp : e + n <= eB).
  { destruct (Z.le_gt_cases (e + n) eB) as [|Hgt]; [done|].
    assert (2 ^ (53 + (eB - e)) <= 2 ^ (d - 1))
      by (apply Z.pow_le_mono_r; unfold n in Hgt; lia).
    rewrite Z.pow_add_r in H by lia. nia. }
  (* the mantissa after the first shift has 53 digits *)
  assert (Hpn : 0 < 2 ^ n) by (apply Z.pow_pos_nonneg; unfold n; lia).
  assert (Hm1 : 2 ^ 52 <= Z.pos q / 2 ^ n < 2 ^ 53).
  { split.
    - apply Z.div_le_lower_bound; [done|].
      rewrite <- Z.pow_add_r by (unfold n; lia).
      replace (n + 52) with (d - 1) by (unfold n; lia). done.
    - apply Z.div_lt_upper_bound; [done|].
      rewrite <- Z.pow_add_r by (unfold n; lia).
      replace (n + 53) with d by (unfold n; lia). done. }
  assert (Hm1B : e + n = eB → Z.pos q / 2 ^ n < Z.pos cB).
  { intros E. apply Z.div_lt_upper_bound; [done|].
    replace n with (eB - e) by lia. lia. }
  unfold binary_round_aux.
  pose proof (shr_fexp_spec q e l Hd He) as [H1 H2]. fold d n in H1, H2.
  set (m0 := Z.pos q / 2 ^ n) in *.
  destruct (shr_fexp 53 1024 (Z.pos q) e l) as [mrs' e'].
  cbn [fst snd] in H1, H2. subst e'.
  pose proof (round_nearest_even_bounds (shr_m mrs') (loc_of_shr_record mrs'))
    as Hr.
  destruct (round_nearest_even (shr_m mrs') (loc_of_shr_record mrs'))
    as [|m1|m1] eqn:Em1; [lia| |lia].
  destruct (Z.lt_ge_cases (Z.pos m1) (2 ^ 53)) as [Hsmall|Hcarry].
  - (* no carry *)
    assert (Hd1 : Z.pos (digits2_pos m1) = 53)
      by (apply digits2_pos_unique; lia).
    pose proof (shr_fexp_spec m1 (e + n) loc_Exact ltac:(lia) ltac:(unfold n; lia))
      as [H3 H4].
    rewrite Hd1, Z.sub_diag, Z.pow_0_r, Z.div_1_r in H3.
    rewrite Hd1, Z.sub_diag, Z.add_0_r in H4.
    destruct (shr_fexp 53 1024 (Z.pos m1) (e + n) loc_Exact) as [mrs'' e''].
    cbn [fst snd] in H3, H4. subst e''. rewrite H3.
    replace (e + n <=? 1024 - 53) with true by (symmetry; apply Z.leb_le; lia).
    exists m1, (e + n). split; [done|]. split; [done|].
    split; [unfold n; lia|].
    destruct (Z.eq_dec (e + n) eB) as [E|NE]; [right|left; lia].
    split; [done|]. specialize (Hm1B E). lia.
  - (* the rounding carried into a 54th digit *)
    assert (Hm1v : Z.pos m1 = 2 ^ 53) by lia.
    assert (Hd1 : Z.pos (digits2_pos m1) = 54)
      by (apply digits2_pos_unique; rewrite Hm1v; split; [done|];
          apply Z.pow_lt_mono_r; lia).
    assert (Hne : e + n ≠ eB) by (intros E; specialize (Hm1B E); lia).
    pose proof (shr_fexp_spec m1 (e + n) loc_Exact ltac:(lia) ltac:(unfold n; lia))
      as [H3 H4].
    rewrite Hd1 in H3, H4.
    assert (Ehalf : Z.pos m1 / 2 ^ (54 - 53) = 2 ^ 52)
      by (rewrite Hm1v; reflexivity).
    rewrite Ehalf in H3.
    destruct (shr_fexp 53 1024 (Z.pos m1) (e + n) loc_Exact) as [mrs'' e''].
    cbn [fst snd] in H3, H4. subst e''. rewrite H3.
    change (2 ^ 52) with (Z.pos 4503599627370496). cbv iota.
    replace (e + n + (54 - 53) <=? 1024 - 53) with true
      by (symmetry; apply Z.leb_le; lia).
    exists 4503599627370496%positive, (e + n + (54 - 53)).
    split; [done|]. split; [done|]. split; [unfold n; lia|].
    destruct (Z.eq_dec (e + n + (54 - 53)) eB) as [E|NE]; [right|left; lia].
    split; [done|]. change (Z.pos 4503599627370496) with (2 ^ 52). lia.
Qed.

Lemma Zdiv_eucl_eq a b : Z.div_eucl a b = (a / b, a mod b).
Proof. unfold Z.div, Z.modulo. by destruct (Z.div_eucl a b). Qed.

(** The quotient of two integers below 2^53, the smaller over the larger,
    is a double that is not above 1. *)
Lemma ddiv_below_one u t :
  0 < u < t → t < 2 ^ 53 →
  ∃ c e, ddiv (to_double u) (to_double t) = S754_finite false c e
         ∧ Z.pos (digits2_pos c) = 53 ∧ -105 <= e
         ∧ (e < -52 ∨ (e = -52 ∧ Z.pos c = 2 ^ 52)).
Proof.
  intros Hu Ht.
  destruct u as [|pu|pu]; [lia| |lia]. destruct t as [|pt|pt]; [lia| |lia].
  destruct (to_double_canon pu ltac:(lia)) as (cu & eu & -> & Hdu & Heu & Hcu).
  destruct (to_double_canon pt ltac:(lia)) as (ct & et & -> & Hdt & Het & Hct).
  pose proof (digits2_pos_bounds cu) as [Hculo Hcuhi]. rewrite Hdu in Hculo, Hcuhi.
  pose proof (digits2_pos_bounds ct) as [Hctlo Hcthi]. rewrite Hdt in Hctlo, Hcthi.
  change (2 ^ (53 - 1)) with (2 ^ 52) in *.
  (* u < t in terms of the mantissas *)
  assert (Hpu : 0 < 2 ^ (- eu)) by (apply Z.pow_pos_nonneg; lia).
  assert (Hpt : 0 < 2 ^ (- et)) by (apply Z.pow_pos_nonneg; lia).
  assert (Hee : eu <= et).
  { destruct (Z.le_gt_cases eu et) as [|Hgt]; [done|].
    assert (2 ^ (- et) = 2 ^ (- eu) * 2 ^ (eu - et)) as E
      by (rewrite <- Z.pow_add_r by lia; f_equal; lia).
    assert (2 <= 2 ^ (eu - et))
      by (change 2 with (2 ^ 1) at 1; apply Z.pow_le_mono_r; lia).
    nia. }
  assert (Hcmp : Z.pos cu < Z.pos ct * 2 ^ (et - eu)).
  { assert (2 ^ (- eu) = 2 ^ (- et) * 2 ^ (et - eu)) as E
      by (rewrite <- Z.pow_add_r by lia; f_equal; lia).
    rewrite Hcu, Hct, E. 
    assert (0 < 2 ^ (et - eu)) by (apply Z.pow_pos_nonneg; lia). nia. }
  unfold ddiv, SFdiv, SFdiv_core_binary. cbn [Zdigits2]. rewrite Hdu, Hdt.
  replace (53 + eu - (53 + et)) with (eu - et) by lia.
  rewrite fexp_unclamped by lia. rewrite Z.min_l by lia.
  replace (eu - et - (eu - et - 53)) with 53 by lia. cbv iota.
  rewrite Z.shiftl_mul_pow2 by lia. rewrite Zdiv_eucl_eq.
  set (q := Z.pos cu * 2 ^ 53 / Z.pos ct).
  assert (Hq : 2 ^ 52 <= q < 2 ^ 52 * 2 ^ (et - eu + 1)).
  { unfold q. split.
    - apply Z.div_le_lower_bound; [lia|]. lia.
    - apply Z.div_lt_upper_bound; [lia|].
      rewrite Z.pow_add_r by lia. lia. }
  destruct q as [|pq|pq] eqn:Eq; [lia| |lia]. cbn [xorb].
  destruct (binary_round_aux_below pq 4503599627370496 (eu - et - 53) (-52)
              (new_location (Z.pos ct) (Z.pos cu * 2 ^ 53 mod Z.pos ct)))
    as (c & e1 & -> & Hdc & Hlo & Hhi).
  - apply digits2_pos_ge. change (2 ^ (53 - 1)) with (2 ^ 52). lia.
  - reflexivity.
  - lia.
  - lia.
  - lia.
  - change (Z.pos 4503599627370496) with (2 ^ 52).
    replace (-52 - (eu - et - 53)) with (et - eu + 1) by lia. lia.
  - exists c, e1. split; [done|]. split; [done|]. split; [lia|].
    destruct Hhi as [Hhi|[Hhi Hc]]; [by left|right]. split; [done|].
    pose proof (digits2_pos_bounds c) as [Hclo _]. rewrite Hdc in Hclo.
    change (Z.pos 4503599627370496) with (2 ^ 52) in Hc.
    change (2 ^ (53 - 1)) with (2 ^ 52) in Hclo. lia.
Qed.

Lemma to_double_100 : to_double 100 = S754_finite false 7036874417766400 (-46).
Proof. vm_compute. reflexivity. Qed.

Lemma SFleb_below (c cB : positive) (e eB : Z) :
  e < eB ∨ (e = eB ∧ Z.pos c <= Z.pos cB) →
  SFleb (S754_finite false c e) (S754_finite false cB eB) = true.
Proof.
  intros Hhi. unfold SFleb, SFcompare.
  destruct Hhi as [Hhi|[-> Hc]].
  - apply Z.compare_lt_iff in Hhi. by rewrite Hhi.
  - rewrite Z.compare_refl.
    pose proof (Pos.compare_spec c cB) as Hs.
    unfold Pos.compare in Hs. destruct Hs as [?|?|Hgt]; [done|done|lia].
Qed.

Lemma dmul_100_finite c e :
  Z.pos (digits2_pos c) = 53 → -105 <= e → e < -52 →
  ∃ c' e', dmul (S754_finite false c e) (to_double 100) = S754_finite false c' e'
           ∧ (e' < -46 ∨ (e' = -46 ∧ Z.pos c' <= 7036874417766400)).
Proof.
  intros Hd He Hlt.
  pose proof (digits2_pos_bounds c) as [Hclo Hchi]. rewrite Hd in Hclo, Hchi.
  rewrite to_double_100. unfold dmul, SFmul. cbn [xorb].
  destruct (binary_round_aux_below (c * 7036874417766400) 7036874417766400
              (e + -46) (-46) loc_Exact) as (c' & e' & -> & Hdc & Hlo & Hhi).
  - apply digits2_pos_ge. rewrite Pos2Z.inj_mul.
    assert (2 ^ (53 - 1) <= 2 ^ (53 - 1) * 1) by lia.
    assert (1 <= Z.pos 7036874417766400) by lia. nia.
  - reflexivity.
  - lia.
  - lia.
  - lia.
  - rewrite Pos2Z.inj_mul.
    assert (2 ^ 53 <= 2 ^ (-46 - (e + -46)))
      by (apply Z.pow_le_mono_r; lia). nia.
  - by exists c', e'.
Qed.

(** One hundred times a double that is not above 1 is not above 100. *)
Lemma dmul_100_below c e :
  Z.pos (digits2_pos c) = 53 → -105 <= e →
  e < -52 ∨ (e = -52 ∧ Z.pos c = 2 ^ 52) →
  SFleb (to_double 0) (dmul (S754_finite false c e) (to_double 100)) = true
  ∧ SFleb (dmul (S754_finite false c e) (to_double 100)) (to_double 100) = true.
Proof.
  intros Hd He [Hlt|[-> Hc]].
  - destruct (dmul_100_finite c e Hd He Hlt) as (c' & e' & -> & Hhi).
    split; [reflexivity|]. rewrite to_double_100. by apply SFleb_below.
  - assert (c = 4503599627370496%positive) as -> by (apply Pos2Z.inj; exact Hc).
    split; vm_compute; reflexivity.
Qed.

End Double.

(** * The two passes of external_frag *)

Section Fragmentation.

Implicit Types (m : gmap Z Z) (l : list Z) (st : state) (fuel : nat).

Lemma cap_nonneg m l : 0 <= cap m l.
Proof.
  unfold cap. induction l as [|x l IH]; simpl; [lia|].
  destruct (negb (is_free m x)); simpl; lia.
Qed.

Lemma cap_cons m x l :
  cap m (x :: l)
  = if negb (is_free m x) then Z.max (size_of m x) (cap m l) else cap m l.
Proof. unfold cap. simpl. by destruct (negb (is_free m x)). Qed.

Lemma frag_max_chain fuel m a l maxs :
  chain m a l → (length l < fuel)%nat → 0 <= maxs →
  frag_max fuel m a maxs = Some (Z.max maxs (cap m l)).
Proof.
  revert fuel a maxs. induction l as [|x l IH]; intros fuel a maxs Hc Hf Hm;
    destruct fuel as [|k]; cbn [length] in Hf; try lia.
  - simpl in Hc. subst a. simpl. f_equal. unfold cap. simpl. lia.
  - destruct Hc as (-> & Hx & Hc). cbn [frag_max].
    destruct (x =? 0) eqn:E0; [lia|].
    pose proof (size_of_nonneg m x) as Hs. pose proof (cap_nonneg m l) as Hcap.
    rewrite cap_cons. destruct (negb (is_free m x)); cbn [andb].
    + destruct (maxs <? size_of m x) eqn:E.
      * apply Z.ltb_lt in E. rewrite (IH k) by (done || lia). f_equal. lia.
      * apply Z.ltb_ge in E. rewrite (IH k) by (done || lia). f_equal. lia.
    + rewrite (IH k) by (done || lia). done.
Qed.

Lemma frag_sum_chain fuel m a l c (tf tot : double) :
  chain m a l → (length l < fuel)%nat →
  frag_sum fuel m a c tf tot
  = Some (fold_left (fun acc s => dadd acc (to_double s))
            (map (size_of m)
               (List.filter (fun b => is_free m b && (size_of m b <? c)) l)) tf,
          fold_left (fun acc s => dadd acc (to_double s)) (map (size_of m) l) tot).
Proof.
  revert fuel a tf tot. induction l as [|x l IH]; intros fuel a tf tot Hc Hf;
    destruct fuel as [|k]; cbn [length] in Hf; try lia.
  - simpl in Hc. subst a. done.
  - destruct Hc as (-> & Hx & Hc). cbn [frag_sum].
    destruct (x =? 0) eqn:E0; [lia|].
    rewrite (IH k) by (done || lia). cbn [List.filter].
    by destruct (is_free m x && (size_of m x <? c)).
Qed.

(** external_frag computes the ratio of the specification on every
    finite ledger. *)
Lemma external_frag_chain fuel st l :
  ledger st l → (length l < fuel)%nat →
  external_frag fuel st = Some (fragmentation_ratio (mem st) l).
Proof.
  intros Hc Hf. unfold external_frag, fragmentation_ratio.
  rewrite (frag_max_chain _ _ _ l) by (done || lia). cbn [mbind option_bind].
  rewrite (frag_sum_chain _ _ _ l) by done. cbn [mbind option_bind].
  rewrite Z.max_r by apply cap_nonneg. done.
Qed.

Lemma sizes_nonneg m l : Forall (fun s => 0 <= s) (map (size_of m) l).
Proof.
  induction l as [|x l IH]; [by apply Forall_nil|].
  cbn [map]. apply Forall_cons. split; [apply size_of_nonneg | done].
Qed.

End Fragmentation.

(** * The claims *)

(** C1 (defect in extend_heap).  The claim wants the new region to be as
    long as the aligned request plus the block header.  extend_heap hands
    its argument [s] to mmap as it is, and my_malloc passes the aligned
    request.  On an empty heap [my_malloc(4096)] asks mmap for exactly 4096
    bytes, puts the forty-byte header at the start of the mapping at
    0x10000 and returns 0x10028 as a payload of 4096 bytes: the payload
    ends forty bytes after the end of the mapping. *)
Theorem extend_heap_maps_payload_length_only :
  (∀ (st : state) (last s : Z),
     ∃ res, trace (extend_heap st last s).1 = trace st ++ [EvMmap s res])
  ∧ align 4096 = 4096
  ∧ returned [Some region_a] [Malloc 4096] = Some [65576]
  ∧ trace (state_after [Some region_a] [Malloc 4096])
    = [EvMmap 4096 (Some 65536); EvLog "malloc" ALLOC_TYPE_MALLOC 65576 4096]
  ∧ ledger_after [Some region_a] [Malloc 4096] = Some [(65536, 4096, false)]
  ∧ 65536 + 4096 < 65576 + 4096.
Proof.
  split; [|repeat split; vm_compute; reflexivity].
  intros st last s. unfold extend_heap, mmap.
  destruct (s =? 0); [by eexists|].
  destruct (mmap_answers st) as [|[a|] rest]; by eexists.
Qed.

(** C2 (defect in my_calloc).  The claim wants the zeroes to cover the
    returned capacity and nothing else.  The loop bound is
    [align(number * size) << 2] and each round writes eight bytes, so
    [my_calloc(1, 8)] writes 32 words, 256 bytes, into a payload of 8.
    After [my_malloc(4096); my_malloc(8); my_free(first)] an allocation of 8
    bytes reuses the first block and carves a free block of 4048 bytes at
    0x10030; with [my_calloc(1, 8)] in its place the header of that block
    is zeroed, and the ledger ends there. *)
Theorem my_calloc_zeroes_past_the_block :
  wrap64 (Z.shiftl (align (wrap64 (1 * 8))) 2) = 32
  ∧ returned three_regions [Malloc 4096; Malloc 8; Free 0; Malloc 8]
    = Some [65576; 131112; 65576]
  ∧ ledger_after three_regions [Malloc 4096; Malloc 8; Free 0; Malloc 8]
    = Some [(65536, 8, false); (65584, 4048, true); (131072, 8, false)]
  ∧ returned three_regions [Malloc 4096; Malloc 8; Free 0; Calloc 1 8]
    = Some [65576; 131112; 65576]
  ∧ ledger_after three_regions [Malloc 4096; Malloc 8; Free 0; Calloc 1 8]
    = Some [(65536, 8, false); (65584, 0, false)].
Proof. repeat split; vm_compute; reflexivity. Qed.

(** C3 (defect in find_block, best fit).  The claim wants best fit to
    return a block whenever a free block is large enough.  The running
    best difference starts at PAGESIZE, so a free block that exceeds the
    request by 4096 bytes or more is never chosen: with a free block of
    8192 bytes in the ledger, a request of 8 bytes under best fit finds
    nothing and the heap is extended by a third mapping, where first fit
    reuses the free block. *)
Theorem best_fit_misses_large_free_block :
  ledger_after three_regions [Malloc 8192; Malloc 8; Free 0]
  = Some [(65536, 8192, true); (131072, 8, false)]
  ∧ find_block 16 (state_after three_regions
                     [Malloc 8192; Malloc 8; Free 0; Control 1]) 65536 8
    = Some (0, 131072)
  ∧ returned three_regions [Malloc 8192; Malloc 8; Free 0; Control 1; Malloc 8]
    = Some [65576; 131112; 196648]
  ∧ ledger_after three_regions
      [Malloc 8192; Malloc 8; Free 0; Control 1; Malloc 8]
    = Some [(65536, 8192, true); (131072, 8, false); (196608, 8, false)]
  ∧ returned three_regions [Malloc 8192; Malloc 8; Free 0; Control 0; Malloc 8]
    = Some [65576; 131112; 65576].
Proof. repeat split; vm_compute; reflexivity. Qed.

(** C4 (defect in my_free).  The claim wants no two neighbouring free
    blocks after any public operation.  my_free coalesces with the blocks
    that follow the released one and never with the one before it: after
    three allocations, releasing the first and then the second block
    leaves the first two blocks of the ledger both free. *)
Theorem my_free_leaves_adjacent_free_blocks :
  ledger_after three_regions [Malloc 8; Malloc 8; Malloc 8; Free 0; Free 1]
  = Some [(65536, 8, true); (131072, 8, true); (196608, 8, false)]
  ∧ (let st := state_after three_regions
                 [Malloc 8; Malloc 8; Malloc 8; Free 0; Free 1] in
     no_adjacent_free (mem st) (blocks_from 16 (mem st) (base st)) = false).
Proof. repeat split; vm_compute; reflexivity. Qed.

(** C5 (defect in fusion as my_realloc uses it).  The claim wants the
    capacity after growth in place to reach the aligned new size.  The test
    in my_realloc counts the header of the next block, fusion adds the size
    of the next block only: with two neighbours of 8 bytes, the second one
    free, [my_realloc(first, 24)] passes the test (8 + 40 + 8 >= 24), merges
    and returns the same address with a capacity of 16. *)
Theorem my_realloc_grows_less_than_asked :
  align 24 = 24
  ∧ ledger_after three_regions [Malloc 8; Malloc 8; Malloc 8; Free 1]
    = Some [(65536, 8, false); (131072, 8, true); (196608, 8, false)]
  ∧ grows_in_place
      (mem (state_after three_regions [Malloc 8; Malloc 8; Malloc 8; Free 1]))
      65536 24 = true
  ∧ returned three_regions [Malloc 8; Malloc 8; Malloc 8; Free 1; Realloc 0 24]
    = Some [65576; 131112; 196648; 65576]
  ∧ ledger_after three_regions
      [Malloc 8; Malloc 8; Malloc 8; Free 1; Realloc 0 24]
    = Some [(65536, 16, false); (196608, 8, false)].
Proof. repeat split; vm_compute; reflexivity. Qed.

(** An address that does not resolve is ignored by my_free. *)
Lemma my_free_unresolved_noop_aux (fuel : nat) (st : state) (l : list Z) (p : Z) :
  ledger st l → (length l < fuel)%nat → resolves st l p = false →
  my_free fuel st p = Some st.
Proof.
  intros Hc Hf Hr. unfold my_free.
  rewrite (valid_addr_resolves fuel st l p Hc Hf), Hr. done.
Qed.

(** C6 (counterexample).  Releasing an address a second time is not
    always ignored: valid_addr does not look at the free flag, so a freed
    block that is still in the ledger resolves again and fusion runs again.
    After three allocations and the release of the first and the second
    block, a second release of the first block merges the second into it. *)
Lemma my_free_twice_changes_ledger :
  let ops := [Malloc 8; Malloc 8; Malloc 8; Free 0; Free 1] in
  let st := state_after three_regions ops in
  returned three_regions ops = Some [65576; 131112; 196648]
  ∧ view 16 st = [(65536, 8, true); (131072, 8, true); (196608, 8, false)]
  ∧ view 16 <$> my_free 16 st 65576
    = Some [(65536, 16, true); (196608, 8, false)]
  ∧ my_free 16 st 65576 ≠ Some st.
Proof.
  repeat split; try (vm_compute; reflexivity).
  intros H. apply (f_equal (fmap (view 16))) in H. vm_compute in H. discriminate.
Qed.

(** Nor is an address that no call returned always ignored.  split_block
    does not write the ptr field of the block it carves, so the field
    holds whatever the payload held before.  Here fusion and split_block
    leave the size 65624 of an earlier carved block in the eight bytes at
    65616, which are the ptr field of the block carved next at 65584: the
    address 65624, the payload of that free block, was returned by no
    call, yet it resolves, and my_free merges the free block behind it and
    writes a log record. *)
Lemma my_free_of_unreturned_address_merges :
  let answers := three_regions ++ [Some 262144%positive] in
  let ops := [Malloc 4096; Malloc 61608; Malloc 8; Malloc 8; Free 1; Free 0;
              Malloc 40; Free 4; Malloc 8; Free 2] in
  let st := state_after answers ops in
  returned answers ops
  = Some [65576; 131112; 196648; 262184; 65576; 65576]
  ∧ view 16 st = [(65536, 8, false); (65584, 65616, true);
                  (196608, 8, true); (262144, 8, false)]
  ∧ ptr_of (mem st) 65584 = 65624
  ∧ valid_addr 16 st 65624 = Some 1
  ∧ view 16 <$> my_free 16 st 65624
    = Some [(65536, 8, false); (65584, 65624, true); (262144, 8, false)]
  ∧ trace <$> my_free 16 st 65624
    = Some (trace st ++ [EvLog "free" ALLOC_TYPE_FREE 65624 0]).
Proof.
  intros answers ops st.
  split; [|split; [|split; [|split; [|split]]]]; vm_compute; reflexivity.
Qed.

(** C6 (amended).  When the address does not resolve -- it is null, or the
    header below it is not a block of the ledger (in particular when the
    ledger is empty), or the ptr field of that block is not the address --
    my_free returns without changing anything: memory, anchor, policy and
    trace are what they were. *)
Theorem my_free_unresolved_is_noop (fuel : nat) (st : state) (l : list Z) (p : Z) :
  ledger st l → (length l < fuel)%nat → resolves st l p = false →
  my_free fuel st p = Some st.
Proof.
  exact (my_free_unresolved_noop_aux fuel st l p).
Qed.

Lemma my_free_unresolved_is_noop_witness :
  let st := state_after three_regions [Malloc 8; Malloc 8; Free 1] in
  my_free 16 st 131112 = Some st.
Proof.
  apply (my_free_unresolved_is_noop 16 _ [65536] 131112).
  - vm_compute. repeat split; reflexivity.
  - simpl. lia.
  - vm_compute. reflexivity.
Defined.

(** C7.  When my_realloc takes the relocation path (the address resolves,
    the block is too small, growth in place is not possible) and the fresh
    my_malloc returns NULL, my_realloc returns NULL and the memory, the
    anchor and the policy are unchanged: the ledger is the same list of
    blocks with the same sizes, flags and payload bytes, and the address
    still resolves. *)
Theorem my_realloc_failed_relocation_keeps_block
    (fuel : nat) (st st' : state) (l : list Z) (ptr size : Z) :
  ledger st l → (length l < fuel)%nat →
  resolves st l ptr = true →
  size_of (mem st) (get_block ptr) < align size →
  grows_in_place (mem st) (get_block ptr) (align size) = false →
  my_malloc fuel (with_malloc_call st 1) (align size) = Some (st', 0) →
  my_realloc fuel st ptr size = Some (st', 0)
  ∧ mem st' = mem st ∧ base st' = base st ∧ method st' = method st
  ∧ ledger st' l ∧ resolves st' l ptr = true
  ∧ valid_addr fuel st' ptr = Some 1.
Proof.
  intros Hc Hf Hr Hsz Hg Hm.
  assert (Hc0 : ledger (with_malloc_call st 1) l) by exact Hc.
  destruct (my_malloc_chain fuel _ (align size) l Hc0 Hf)
    as (st1 & p1 & Hm1 & Hframe).
  rewrite Hm in Hm1. injection Hm1 as <- <-.
  destruct (Hframe eq_refl) as (Hmem & Hbase & Hmeth & _).
  cbn in Hmem, Hbase, Hmeth.
  assert (Hc' : ledger st' l) by (unfold ledger; by rewrite Hmem, Hbase).
  assert (Hr' : resolves st' l ptr = true) by (unfold resolves; by rewrite Hmem).
  split; [|repeat split; try done].
  - unfold my_realloc.
    assert (Hp : (ptr =? 0) = false).
    { unfold resolves in Hr. by destruct (ptr =? 0). }
    rewrite Hp.
    rewrite (valid_addr_resolves fuel _ l ptr Hc0 Hf).
    replace (resolves (with_malloc_call st 1) l ptr) with true by (by rewrite <- Hr).
    cbn [mbind option_bind Z.eqb negb mem with_malloc_call].
    destruct (align size <=? size_of (mem st) (get_block ptr)) eqn:E;
      [apply Z.leb_le in E; lia|].
    rewrite Hg, Hm. done.
  - rewrite (valid_addr_resolves fuel st' l ptr Hc' Hf), Hr'. done.
Qed.

Lemma my_realloc_failed_relocation_keeps_block_witness :
  let st := state_after [Some region_a; Some region_b] [Malloc 8; Malloc 8] in
  let st' := emit (with_malloc_call st 1) (EvMmap 104 None) in
  my_realloc 16 st 65576 100 = Some (st', 0)
  ∧ mem st' = mem st ∧ base st' = base st ∧ method st' = method st
  ∧ ledger st' [65536; 131072] ∧ resolves st' [65536; 131072] 65576 = true
  ∧ valid_addr 16 st' 65576 = Some 1.
Proof.
  apply (my_realloc_failed_relocation_keeps_block 16 _ _ [65536; 131072] 65576 100).
  - vm_compute. repeat split; reflexivity.
  - simpl. lia.
  - vm_compute. reflexivity.
  - vm_compute. reflexivity.
  - vm_compute. reflexivity.
  - vm_compute. reflexivity.
Defined.

Lemma unusable_free_bounds (m : gmap Z Z) (l : list Z) (c : Z) :
  0 <= unusable_free m l c <= total_size m l.
Proof.
  unfold unusable_free, total_size. induction l as [|x l IH]; simpl; [lia|].
  pose proof (size_of_nonneg m x).
  destruct (is_free m x && (size_of m x <? c)); simpl; lia.
Qed.

(** C8 (counterexample).  A ledger of exactly one not-free block and no
    free block does not always give 0: the block may have size 0, and then
    the sum of all sizes is 0 and the quotient is 0.0 / 0.0.  Such a ledger
    arises from public calls: [my_malloc(0)] on a free block of 4096 bytes
    shrinks it to size 0 ([align(0)] wraps to 0), and releasing the tail
    block, whose prev link still names the shrunk block, cuts the ledger
    after it. *)
Lemma external_frag_single_block_nan :
  let ops := [Malloc 4096; Malloc 8; Free 0; Malloc 0; Free 1] in
  let st := state_after three_regions ops in
  align 0 = 0
  ∧ returned three_regions ops = Some [65576; 131112; 65576]
  ∧ view 16 st = [(65536, 0, false)]
  ∧ external_frag 16 st = Some S754_nan
  ∧ external_frag 16 st ≠ Some (to_double 0).
Proof.
  repeat split; try (vm_compute; reflexivity).
  intros H. vm_compute in H. discriminate.
Qed.

(** C8 (amended).  On every finite ledger external_frag returns
    (sum of the sizes of the free blocks strictly smaller than the largest
    not-free block) / (sum of all sizes) * 100 computed in double: each
    size is converted to double and added to a running double sum in
    ledger order, and the quotient and the product are rounded to nearest
    even.  When the sizes add up to less than 2^53 both sums are exact, so
    the result is the rounded product by 100 of the rounded quotient of
    the two integer sums.  The result is the NaN of 0.0 / 0.0 whenever the
    sizes add up to 0, in particular on the empty ledger; on a ledger of
    one not-free block of non-zero size it is 0. *)
Theorem external_frag_ratio (fuel : nat) (st : state) (l : list Z) :
  ledger st l → (length l < fuel)%nat →
  external_frag fuel st = Some (fragmentation_ratio (mem st) l)
  ∧ (total_size (mem st) l < 2 ^ 53 →
     external_frag fuel st
     = Some (dmul (ddiv (to_double (unusable_free (mem st) l (cap (mem st) l)))
                        (to_double (total_size (mem st) l)))
                  (to_double 100)))
  ∧ (total_size (mem st) l = 0 → external_frag fuel st = Some S754_nan)
  ∧ (l = [] → external_frag fuel st = Some S754_nan)
  ∧ (∀ b, l = [b] → is_free (mem st) b = false → size_of (mem st) b ≠ 0 →
          external_frag fuel st = Some (to_double 0)).
Proof.
  intros Hc Hf. rewrite (external_frag_chain fuel st l Hc Hf).
  pose proof (unusable_free_bounds (mem st) l (cap (mem st) l)) as Hb.
  assert (Hexact : total_size (mem st) l < 2 ^ 53 →
            fragmentation_ratio (mem st) l
            = dmul (ddiv (to_double (unusable_free (mem st) l (cap (mem st) l)))
                         (to_double (total_size (mem st) l)))
                   (to_double 100)).
  { intros Ht. unfold fragmentation_ratio.
    rewrite !dsum_exact; first done.
    - apply sizes_nonneg.
    - exact Ht.
    - apply sizes_nonneg.
    - unfold unusable_free in Hb. lia. }
  split; [done|]. split; [intros Ht; by rewrite Hexact|].
  split; [|split].
  - intros Ht. rewrite Hexact by lia. rewrite Ht.
    replace (unusable_free (mem st) l (cap (mem st) l)) with 0 by lia. done.
  - intros ->. done.
  - intros b -> Hfree Hs. unfold fragmentation_ratio.
    cbn [List.filter map]. rewrite Hfree. cbn [andb map].
    pose proof (size_of_nonneg (mem st) b) as Hn.
    unfold dsum. cbn [fold_left].
    destruct (to_double_pos (size_of (mem st) b)) as [(c & e & ->)| ->]; [lia| |];
      done.
Qed.

Lemma external_frag_ratio_witness :
  let st := state_after three_regions [Malloc 8; Malloc 16; Free 0] in
  view 16 st = [(65536, 8, true); (131072, 16, false)]
  ∧ external_frag 16 st = Some (S754_finite false 4691249611844266 (-47)).
Proof.
  intros st. split; [vm_compute; reflexivity|].
  destruct (external_frag_ratio 16 st [65536; 131072]) as (_ & H & _).
  - vm_compute. repeat split; reflexivity.
  - simpl. lia.
  - rewrite H; vm_compute; reflexivity.
Defined.

(** C9.  malloc_control called with a value other than 0, 1 and 2 prints
    the error line and changes neither the policy nor the memory nor the
    anchor; called with 0, 1 or 2 it stores that value as the policy and
    changes nothing else. *)
Theorem malloc_control_policy (st : state) (m : Z) :
  (m ≠ 0 → m ≠ 1 → m ≠ 2 →
     method (malloc_control st m) = method st
     ∧ mem (malloc_control st m) = mem st
     ∧ base (malloc_control st m) = base st
     ∧ trace (malloc_control st m)
       = trace st ++ [EvPrintf "Error: invalid method"])
  ∧ (m = 0 ∨ m = 1 ∨ m = 2 →
     method (malloc_control st m) = m
     ∧ mem (malloc_control st m) = mem st
     ∧ base (malloc_control st m) = base st
     ∧ trace (malloc_control st m) = trace st).
Proof.
  unfold malloc_control. split.
  - intros H0 H1 H2.
    apply Z.eqb_neq in H0, H1, H2. rewrite H0, H1, H2. done.
  - intros [-> | [-> | ->]]; done.
Qed.

Lemma malloc_control_policy_witness :
  let st := state_after three_regions [Malloc 8; Control 1] in
  method (malloc_control st 7) = 1 ∧ method (malloc_control st 2) = 2.
Proof.
  intros st. split.
  - destruct (malloc_control_policy st 7) as [H _].
    destruct H as (H & _); [lia | lia | lia |]. exact H.
  - destruct (malloc_control_policy st 2) as [_ H].
    destruct H as (H & _); [lia|]. exact H.
Defined.

Lemma extend_heap_sets_ptr (st st' : state) (last s b : Z) :
  extend_heap st last s = (st', b) → b ≠ 0 → b + 40 < 2 ^ 64 →
  last = 0 ∨ last + 16 <= b + 32 ∨ b + 40 <= last + 8 →
  ptr_of (mem st') b = data_of b.
Proof.
  unfold extend_heap. destruct (mmap st s) as [st1 [a|]] eqn:Hm;
    [|intros [= <- <-]; done].
  intros [= <- <-] _ Hlt Hlast. apply mmap_granted in Hm. cbn [mem with_mem].
  transitivity (wrap64 (data_of a)).
  - rewrite <- (ptr_of_set_ptr
                  (set_prev (set_next (set_size (mem st1) a s) a 0) a last) a).
    destruct (last =? 0) eqn:E; cbn [negb].
    + frame_fields.
    + apply Z.eqb_neq in E. frame_fields.
  - unfold wrap64, data_of. apply Z.mod_small. lia.
Qed.

(** C10.  split_block writes the size, next and free fields of the block
    it carves out and leaves the eight bytes of its ptr field as they were,
    whereas extend_heap stores the payload address there.  So when an
    allocation reuses a free block [b] whose ptr field is not [b + 40], the
    address it returns is [b + 40], the field is still what it was, and on
    that address valid_addr answers 0: my_free changes nothing and
    my_realloc returns NULL. *)
Theorem split_block_leaves_ptr_and_address_never_resolves :
  (∀ (m : gmap Z Z) (b s : Z), 0 <= s →
     ptr_of (split_block m b s) (data_of b + s) = ptr_of m (data_of b + s))
  ∧ (∀ (st st' : state) (last s b : Z),
       extend_heap st last s = (st', b) → b ≠ 0 → b + 40 < 2 ^ 64 →
       last = 0 ∨ last + 16 <= b + 32 ∨ b + 40 <= last + 8 →
       ptr_of (mem st') b = data_of b)
  ∧ (∀ (fuel : nat) (st : state) (l : list Z) (n b last : Z),
       ledger st l → (length l < fuel)%nat →
       find_block fuel st (base st) (align n) = Some (b, last) → b ≠ 0 →
       ptr_of (mem st) b ≠ data_of b →
       ∃ st', my_malloc fuel st n = Some (st', data_of b)
              ∧ ptr_of (mem st') b = ptr_of (mem st) b
              ∧ ∀ l', ledger st' l' → (length l' < fuel)%nat →
                  valid_addr fuel st' (data_of b) = Some 0
                  ∧ my_free fuel st' (data_of b) = Some st'
                  ∧ ∀ k, my_realloc fuel st' (data_of b) k
                         = Some (with_malloc_call st' 1, 0)).
Proof.
  split; [exact split_block_new_ptr|]. split; [exact extend_heap_sets_ptr|].
  intros fuel st l n b last Hc Hf Hfind Hb Hptr.
  destruct (find_block_chain fuel st (base st) (align n) l Hc Hf)
    as (b' & last' & Hfind' & Hin).
  rewrite Hfind in Hfind'. injection Hfind' as <- <-.
  destruct Hin as [?|Hin]; [done|].
  pose proof (chain_positive _ _ _ _ Hc Hin) as Hpos.
  assert (Hbase : (base st =? 0) = false).
  { apply Z.eqb_neq. intros H0. unfold ledger in Hc. rewrite H0 in Hc.
    destruct l; simpl in Hc; [by apply elem_of_nil in Hin | lia]. }
  assert (Hkeep : ptr_of (set_free (resplit (mem st) b (align n)) b 0) b
                  = ptr_of (mem st) b).
  { transitivity (ptr_of (resplit (mem st) b (align n)) b); [frame_fields|].
    unfold resplit. destruct (_ <=? _); [|done].
    apply split_block_old_ptr, align_nonneg. }
  eexists. split; [|split].
  - unfold my_malloc. rewrite Hbase, Hfind. cbn [negb mbind option_bind].
    apply Z.eqb_neq in Hb. rewrite Hb. cbn [negb]. unfold malloc_return.
    reflexivity.
  - destruct (malloc_call _ =? 0); exact Hkeep.
  - set (st' := with_malloc_call _ 0).
    assert (Hmem : ptr_of (mem st') b = ptr_of (mem st) b).
    { subst st'. destruct (malloc_call _ =? 0); exact Hkeep. }
    intros l' Hc' Hf'.
    assert (Hr : ∀ s0, mem s0 = mem st' → resolves s0 l' (data_of b) = false).
    { intros s0 Hs0. unfold resolves. rewrite Hs0.
      replace (get_block (data_of b)) with b
        by (unfold get_block, data_of, BLOCK_SIZE; lia).
      rewrite Hmem. apply Z.eqb_neq in Hptr. rewrite Hptr.
      by rewrite andb_false_r. }
    split; [|split].
    + rewrite (valid_addr_resolves fuel st' l' _ Hc' Hf'), Hr; done.
    + apply (my_free_unresolved_noop_aux fuel st' l'); auto.
    + intros k. unfold my_realloc.
      assert (Hp : (data_of b =? 0) = false)
        by (apply Z.eqb_neq; unfold data_of; lia).
      rewrite Hp.
      assert (Hc0 : ledger (with_malloc_call st' 1) l') by exact Hc'.
      rewrite (valid_addr_resolves fuel _ l' _ Hc0 Hf'), Hr; done.
Qed.

Lemma split_block_leaves_ptr_and_address_never_resolves_witness :
  let st0 := state_after three_regions [Malloc 4096; Malloc 8; Free 0] in
  let st := state_after three_regions [Malloc 4096; Malloc 8; Free 0; Malloc 8] in
  ptr_of (split_block (mem st0) 65536 8) 65584 = ptr_of (mem st0) 65584
  ∧ ptr_of (mem (extend_heap (initial [Some region_a]) 0 8).1) 65536 = 65576
  ∧ ∃ st', my_malloc 16 st 8 = Some (st', 65624)
           ∧ ptr_of (mem st') 65584 = ptr_of (mem st) 65584
           ∧ valid_addr 16 st' 65624 = Some 0
           ∧ my_free 16 st' 65624 = Some st'
           ∧ my_realloc 16 st' 65624 16 = Some (with_malloc_call st' 1, 0).
Proof.
  intros st0 st.
  destruct split_block_leaves_ptr_and_address_never_resolves as (H1 & H2 & H3).
  split; [apply (H1 (mem st0) 65536 8); lia|].
  split.
  { apply (H2 (initial [Some region_a]) _ 0 8 65536).
    - vm_compute. reflexivity.
    - lia.
    - lia.
    - by left. }
  destruct (H3 16%nat st [65536; 65584; 131072] 8 65584 65536)
    as (st' & Hm & Hp & Hrest).
  - vm_compute. repeat split; reflexivity.
  - simpl. lia.
  - vm_compute. reflexivity.
  - lia.
  - vm_compute. discriminate.
  - exists st'. split; [exact Hm|]. split; [exact Hp|].
    destruct (Hrest [65536; 65584; 65632; 131072]) as (Hv & Hf & Hr).
    + vm_compute in Hm. injection Hm as <-. vm_compute. repeat split; reflexivity.
    + simpl. lia.
    + split; [exact Hv|]. split; [exact Hf | exact (Hr 16)].
Defined.

(** * Further properties of the allocator *)

Lemma load_le_bound (n : nat) (m : gmap Z Z) (a : Z) :
  load_le n m a < 256 ^ Z.of_nat n.
Proof.
  revert a. induction n as [|k IH]; intros a.
  - simpl. lia.
  - cbn [load_le]. pose proof (load8_range m a). pose proof (IH (a + 1)).
    rewrite Nat2Z.inj_succ, Z.pow_succ_r by lia. lia.
Qed.

Lemma size_of_bound (m : gmap Z Z) (b : Z) : size_of m b < 2 ^ 64.
Proof. apply (load_le_bound 8). Qed.

Lemma align_unfold (x : Z) :
  align x = (8 * ((x - 1) mod 2 ^ 64 / 8) + 8) mod 2 ^ 64.
Proof.
  unfold align, wrap64. rewrite Z.shiftr_div_pow2, Z.shiftl_mul_pow2 by lia.
  f_equal. change (2 ^ 3) with 8. lia.
Qed.

Lemma align_range (x : Z) : 0 <= align x < 2 ^ 64.
Proof. unfold align, wrap64. apply Z.mod_pos_bound. lia. Qed.

Lemma align_rounds_up_and_wraps_aux (x : Z) :
  0 < x <= 2 ^ 64 - 8 → x <= align x ∧ align x < x + 8.
Proof.
  intros Hx. rewrite align_unfold. rewrite (Z.mod_small (x - 1)) by lia.
  change (2 ^ 64) with 18446744073709551616 in *.
  Z.div_mod_to_equations. lia.
Qed.

(** X1.  [align] rounds a request up to the next multiple of 8: the result
    is always a multiple of 8 below 2^64; for a request between 1 and
    2^64 - 8 it is the least multiple of 8 that is not smaller; the request
    0 and the requests above 2^64 - 8 wrap around to 0. *)
Theorem align_rounds_up_and_wraps (x : Z) :
  (align x mod 8 = 0 ∧ 0 <= align x < 2 ^ 64)
  ∧ (0 < x <= 2 ^ 64 - 8 → x <= align x < x + 8)
  ∧ (x = 0 ∨ 2 ^ 64 - 8 < x < 2 ^ 64 → align x = 0).
Proof.
  rewrite align_unfold.
  split; [|split].
  - split; [|apply Z.mod_pos_bound; lia].
    generalize ((x - 1) mod 2 ^ 64 / 8). intros q.
    change (2 ^ 64) with 18446744073709551616.
    Z.div_mod_to_equations. lia.
  - intros Hx. rewrite (Z.mod_small (x - 1)) by lia.
    change (2 ^ 64) with 18446744073709551616 in *.
    Z.div_mod_to_equations. lia.
  - intros [-> | Hx].
    + vm_compute. reflexivity.
    + rewrite (Z.mod_small (x - 1)) by lia.
      assert ((x - 1) / 8 = 2 ^ 61 - 1) as ->.
      { symmetry. apply (Z.div_unique _ _ _ (x - 1 - 8 * (2 ^ 61 - 1))); lia. }
      vm_compute. reflexivity.
Qed.

Lemma align_rounds_up_and_wraps_witness :
  100 <= align 100 < 108 ∧ align (2 ^ 64 - 3) = 0.
Proof.
  destruct (align_rounds_up_and_wraps 100) as (_ & H & _).
  destruct (align_rounds_up_and_wraps (2 ^ 64 - 3)) as (_ & _ & H').
  split; [apply H; lia | apply H'; right; lia].
Defined.

Section Policies.

Implicit Types (m : gmap Z Z) (l : list Z) (st : state) (fuel : nat).

Lemma wrap64_excess m x size :
  0 <= size → size < size_of m x → wrap64 (size_of m x - size) = size_of m x - size.
Proof.
  intros H0 H1. pose proof (size_of_bound m x).
  unfold wrap64. apply Z.mod_small. lia.
Qed.

Lemma last_cons_default l (x d : Z) : List.last (x :: l) d = List.last l x.
Proof.
  revert x d. induction l as [|y l IH]; intros x d; [done|].
  change (List.last (x :: y :: l) d) with (List.last (y :: l) d).
  by rewrite (IH y d), (IH y x).
Qed.

Lemma first_fit_find fuel m size a last l :
  chain m a l → (length l < fuel)%nat →
  ∃ last', first_fit fuel m size a last
           = Some (default 0 (List.find (suitable m size) l), last')
           ∧ (List.find (suitable m size) l = None → last' = List.last l last).
Proof.
  revert fuel a last. induction l as [|x l IH]; intros fuel a last Hc Hf;
    destruct fuel as [|k]; cbn [length] in Hf; try lia.
  - simpl in Hc. subst a. simpl. eauto.
  - destruct Hc as (-> & Hx & Hc). cbn [first_fit List.find].
    destruct (x =? 0) eqn:E0; [lia|].
    fold (suitable m size x). destruct (suitable m size x).
    + eexists. split; [done|]. done.
    + destruct (IH k (next_of m x) x Hc) as (last' & -> & Hl); [lia|].
      eexists. split; [done|]. intros Hn. rewrite (Hl Hn).
      by rewrite last_cons_default.
Qed.

Lemma worst_fit_walk fuel m size a last dif best l :
  chain m a l → (length l < fuel)%nat → 0 <= size →
  ∃ b last', worst_fit fuel m size a last dif best = Some (b, last') ∧
    ((b ∈ l ∧ is_free m b = true ∧ size_of m b = size)
     ∨ ((∀ x, x ∈ l → is_free m x = true → size_of m x ≠ size)
        ∧ ((b = best
            ∧ ∀ x, x ∈ l → is_free m x = true → size < size_of m x →
                   size_of m x - size <= dif)
           ∨ (b ∈ l ∧ is_free m b = true ∧ size < size_of m b
              ∧ dif < size_of m b - size
              ∧ ∀ x, x ∈ l → is_free m x = true → size < size_of m x →
                     size_of m x <= size_of m b)))).
Proof.
  intros Hc Hf Hs. revert fuel a last dif best Hc Hf.
  induction l as [|x l IH]; intros fuel a last dif best Hc Hf;
    destruct fuel as [|k]; cbn [length] in Hf; try lia.
  - simpl in Hc. subst a. simpl. eexists _, _. split; [done|].
    right. split; [by intros ? ?%elem_of_nil|]. left.
    split; [done | by intros ? ?%elem_of_nil].
  - destruct Hc as (-> & Hx & Hc). cbn [worst_fit].
    destruct (x =? 0) eqn:E0; [lia|].
    destruct (is_free m x) eqn:Efree.
    2:{ destruct (IH k (next_of m x) x dif best Hc) as (b & last' & -> & H);
          [lia|].
        eexists _, _. split; [done|].
        destruct H as [(Hin & ? & ?) | (Hne & H)].
        - left. split; [apply elem_of_cons; by right | done].
        - right. split.
          { intros y [->|Hy]%elem_of_cons; [congruence | eauto]. }
          destruct H as [(-> & Hle) | (Hin & ? & ? & ? & Hmax)].
          + left. split; [done|].
            intros y [->|Hy]%elem_of_cons; [congruence | eauto].
          + right. split; [apply elem_of_cons; by right|].
            repeat split; try done.
            intros y [->|Hy]%elem_of_cons; [congruence | eauto]. }
    destruct (size_of m x =? size) eqn:Eex.
    { apply Z.eqb_eq in Eex. eexists _, _. split; [done|]. left.
      split; [apply elem_of_cons; by left | done]. }
    apply Z.eqb_neq in Eex.
    destruct ((size <? size_of m x) && (dif <? wrap64 (size_of m x - size)))
      eqn:Ebig.
    + apply andb_true_iff in Ebig as [Hgt Hdif].
      apply Z.ltb_lt in Hgt. rewrite wrap64_excess in * by done.
      apply Z.ltb_lt in Hdif.
      destruct (IH k (next_of m x) x (size_of m x - size) x Hc)
        as (b & last' & -> & H); [lia|].
      eexists _, _. split; [done|].
      destruct H as [(Hin & ? & ?) | (Hne & H)].
      * left. split; [apply elem_of_cons; by right | done].
      * right. split.
        { intros y [->|Hy]%elem_of_cons; [done | eauto]. }
        right. destruct H as [(-> & Hle) | (Hin & ? & ? & ? & Hmax)].
        -- split; [apply elem_of_cons; by left|]. repeat split; try done.
           intros y [->|Hy]%elem_of_cons Hfy Hgy; [lia|].
           specialize (Hle y Hy Hfy Hgy). lia.
        -- split; [apply elem_of_cons; by right|]. repeat split; try done; [lia|].
           intros y [->|Hy]%elem_of_cons Hfy Hgy; [lia | eauto].
    + assert (Hsmall : size < size_of m x → size_of m x - size <= dif).
      { intros Hgt. apply andb_false_iff in Ebig as [E|E].
        - apply Z.ltb_ge in E. lia.
        - rewrite wrap64_excess in E by done. apply Z.ltb_ge in E. lia. }
      destruct (IH k (next_of m x) x dif best Hc) as (b & last' & -> & H);
        [lia|].
      eexists _, _. split; [done|].
      destruct H as [(Hin & ? & ?) | (Hne & H)].
      * left. split; [apply elem_of_cons; by right | done].
      * right. split.
        { intros y [->|Hy]%elem_of_cons; [done | eauto]. }
        destruct H as [(-> & Hle) | (Hin & ? & ? & ? & Hmax)].
        -- left. split; [done|].
           intros y [->|Hy]%elem_of_cons Hfy Hgy; [auto | eauto].
        -- right. split; [apply elem_of_cons; by right|].
           repeat split; try done.
           intros y [->|Hy]%elem_of_cons Hfy Hgy; [|eauto].
           specialize (Hsmall Hgy). lia.
Qed.

Lemma best_fit_walk fuel m size a last dif best l :
  chain m a l → (length l < fuel)%nat → 0 <= size →
  ∃ b last', best_fit fuel m size a last dif best = Some (b, last') ∧
    ((b ∈ l ∧ is_free m b = true ∧ size_of m b = size)
     ∨ ((∀ x, x ∈ l → is_free m x = true → size_of m x ≠ size)
        ∧ ((b = best
            ∧ ∀ x, x ∈ l → is_free m x = true → size < size_of m x →
                   dif <= size_of m x - size)
           ∨ (b ∈ l ∧ is_free m b = true ∧ size < size_of m b
              ∧ size_of m b - size < dif
              ∧ ∀ x, x ∈ l → is_free m x = true → size < size_of m x →
                     size_of m b <= size_of m x)))).
Proof.
  intros Hc Hf Hs. revert fuel a last dif best Hc Hf.
  induction l as [|x l IH]; intros fuel a last dif best Hc Hf;
    destruct fuel as [|k]; cbn [length] in Hf; try lia.
  - simpl in Hc. subst a. simpl. eexists _, _. split; [done|].
    right. split; [by intros ? ?%elem_of_nil|]. left.
    split; [done | by intros ? ?%elem_of_nil].
  - destruct Hc as (-> & Hx & Hc). cbn [best_fit].
    destruct (x =? 0) eqn:E0; [lia|].
    destruct (is_free m x) eqn:Efree.
    2:{ destruct (IH k (next_of m x) x dif best Hc) as (b & last' & -> & H);
          [lia|].
        eexists _, _. split; [done|].
        destruct H as [(Hin & ? & ?) | (Hne & H)].
        - left. split; [apply elem_of_cons; by right | done].
        - right. split.
          { intros y [->|Hy]%elem_of_cons; [congruence | eauto]. }
          destruct H as [(-> & Hle) | (Hin & ? & ? & ? & Hmax)].
          + left. split; [done|].
            intros y [->|Hy]%elem_of_cons; [congruence | eauto].
          + right. split; [apply elem_of_cons; by right|].
            repeat split; try done.
            intros y [->|Hy]%elem_of_cons; [congruence | eauto]. }
    destruct (size_of m x =? size) eqn:Eex.
    { apply Z.eqb_eq in Eex. eexists _, _. split; [done|]. left.
      split; [apply elem_of_cons; by left | done]. }
    apply Z.eqb_neq in Eex.
    destruct ((size <? size_of m x) && (wrap64 (size_of m x - size) <? dif))
      eqn:Ebig.
    + apply andb_true_iff in Ebig as [Hgt Hdif].
      apply Z.ltb_lt in Hgt. rewrite wrap64_excess in * by done.
      apply Z.ltb_lt in Hdif.
      destruct (IH k (next_of m x) x (size_of m x - size) x Hc)
        as (b & last' & -> & H); [lia|].
      eexists _, _. split; [done|].
      destruct H as [(Hin & ? & ?) | (Hne & H)].
      * left. split; [apply elem_of_cons; by right | done].
      * right. split.
        { intros y [->|Hy]%elem_of_cons; [done | eauto]. }
        right. destruct H as [(-> & Hle) | (Hin & ? & ? & ? & Hmax)].
        -- split; [apply elem_of_cons; by left|]. repeat split; try done.
           intros y [->|Hy]%elem_of_cons Hfy Hgy; [lia|].
           specialize (Hle y Hy Hfy Hgy). lia.
        -- split; [apply elem_of_cons; by right|]. repeat split; try done; [lia|].
           intros y [->|Hy]%elem_of_cons Hfy Hgy; [lia | eauto].
    + assert (Hsmall : size < size_of m x → dif <= size_of m x - size).
      { intros Hgt. apply andb_false_iff in Ebig as [E|E].
        - apply Z.ltb_ge in E. lia.
        - rewrite wrap64_excess in E by done. apply Z.ltb_ge in E. lia. }
      destruct (IH k (next_of m x) x dif best Hc) as (b & last' & -> & H);
        [lia|].
      eexists _, _. split; [done|].
      destruct H as [(Hin & ? & ?) | (Hne & H)].
      * left. split; [apply elem_of_cons; by right | done].
      * right. split.
        { intros y [->|Hy]%elem_of_cons; [done | eauto]. }
        destruct H as [(-> & Hle) | (Hin & ? & ? & ? & Hmax)].
        -- left. split; [done|].
           intros y [->|Hy]%elem_of_cons Hfy Hgy; [auto | eauto].
        -- right. split; [apply elem_of_cons; by right|].
           repeat split; try done.
           intros y [->|Hy]%elem_of_cons Hfy Hgy; [|eauto].
           specialize (Hsmall Hgy). lia.
Qed.

Lemma suitable_cases m size x :
  suitable m size x = true
  ↔ is_free m x = true ∧ (size_of m x = size ∨ size < size_of m x).
Proof.
  unfold suitable. rewrite andb_true_iff, Z.leb_le. intuition lia.
Qed.

End Policies.

Lemma best_fit_last (fuel : nat) (m : gmap Z Z) (size a last dif best : Z)
    (l : list Z) :
  chain m a l → (length l < fuel)%nat →
  ∃ b last', best_fit fuel m size a last dif best = Some (b, last')
             ∧ (last' = List.last l last ∨ b ∈ l).
Proof.
  revert fuel a last dif best. induction l as [|x l IH];
    intros fuel a last dif best Hc Hf;
    destruct fuel as [|k]; cbn [length] in Hf; try lia.
  - simpl in Hc. subst a. simpl. eexists _, _. split; [done | by left].
  - destruct Hc as (-> & Hx & Hc). cbn [best_fit].
    destruct (x =? 0) eqn:E0; [lia|].
    assert (Hstep : ∀ dif' best',
              ∃ b last', best_fit k m size (next_of m x) x dif' best'
                         = Some (b, last')
                         ∧ (last' = List.last (x :: l) last ∨ b ∈ x :: l)).
    { intros dif' best'.
      destruct (IH k (next_of m x) x dif' best' Hc) as (b & last' & -> & H);
        [lia|].
      eexists _, _. split; [done|]. rewrite last_cons_default.
      destruct H as [->|H]; [by left | right; apply elem_of_cons; by right]. }
    destruct (is_free m x); [|apply Hstep].
    destruct (size_of m x =? size).
    { eexists _, _. split; [done|]. right. apply elem_of_cons. by left. }
    destruct (_ && _); apply Hstep.
Qed.

Lemma worst_fit_last (fuel : nat) (m : gmap Z Z) (size a last dif best : Z)
    (l : list Z) :
  chain m a l → (length l < fuel)%nat →
  ∃ b last', worst_fit fuel m size a last dif best = Some (b, last')
             ∧ (last' = List.last l last ∨ b ∈ l).
Proof.
  revert fuel a last dif best. induction l as [|x l IH];
    intros fuel a last dif best Hc Hf;
    destruct fuel as [|k]; cbn [length] in Hf; try lia.
  - simpl in Hc. subst a. simpl. eexists _, _. split; [done | by left].
  - destruct Hc as (-> & Hx & Hc). cbn [worst_fit].
    destruct (x =? 0) eqn:E0; [lia|].
    assert (Hstep : ∀ dif' best',
              ∃ b last', worst_fit k m size (next_of m x) x dif' best'
                         = Some (b, last')
                         ∧ (last' = List.last (x :: l) last ∨ b ∈ x :: l)).
    { intros dif' best'.
      destruct (IH k (next_of m x) x dif' best' Hc) as (b & last' & -> & H);
        [lia|].
      eexists _, _. split; [done|]. rewrite last_cons_default.
      destruct H as [->|H]; [by left | right; apply elem_of_cons; by right]. }
    destruct (is_free m x); [|apply Hstep].
    destruct (size_of m x =? size).
    { eexists _, _. split; [done|]. right. apply elem_of_cons. by left. }
    destruct (_ && _); apply Hstep.
Qed.

Lemma first_fit_returns_first_suitable_aux
    (fuel : nat) (st : state) (l : list Z) (last size : Z) :
  ledger st l → (length l < fuel)%nat → method st = 0 →
  ∃ last', find_block fuel st last size
           = Some (default 0 (List.find (suitable (mem st) size) l), last')
           ∧ (List.find (suitable (mem st) size) l = None
              → last' = List.last l last).
Proof.
  intros Hc Hf Hm. unfold find_block. rewrite Hm. cbn [Z.eqb].
  by apply first_fit_find.
Qed.

(** X2.  Under first fit, find_block returns the first block of the ledger
    that is free and at least as large as the request, and NULL when there
    is none; when it returns NULL, [last] is the tail of the ledger (or
    keeps its initial value on an empty ledger). *)
Theorem first_fit_returns_first_suitable
    (fuel : nat) (st : state) (l : list Z) (last size : Z) :
  ledger st l → (length l < fuel)%nat → method st = 0 →
  ∃ last', find_block fuel st last size
           = Some (default 0 (List.find (suitable (mem st) size) l), last')
           ∧ (List.find (suitable (mem st) size) l = None
              → last' = List.last l last).
Proof.
  intros Hc Hf Hm. unfold find_block. rewrite Hm. cbn [Z.eqb].
  by apply first_fit_find.
Qed.

Lemma first_fit_returns_first_suitable_witness :
  let st := state_after three_regions [Malloc 8; Malloc 64; Malloc 8; Free 1] in
  ∃ last', find_block 16 st 65536 16 = Some (131072, last').
Proof.
  intros st.
  destruct (first_fit_returns_first_suitable 16 st [65536; 131072; 196608]
              65536 16) as (last' & H & _).
  - vm_compute. repeat split; reflexivity.
  - simpl. lia.
  - vm_compute. reflexivity.
  - exists last'. rewrite H. vm_compute. reflexivity.
Defined.

(** X3.  Under worst fit, find_block returns NULL exactly when no block of
    the ledger is free and large enough.  A block it returns is free and
    large enough, and it either has exactly the requested size or is at
    least as large as every free block that is large enough. *)
Theorem worst_fit_finds_largest
    (fuel : nat) (st : state) (l : list Z) (last size : Z) :
  ledger st l → (length l < fuel)%nat → method st = 2 → 0 <= size →
  ∃ b last', find_block fuel st last size = Some (b, last')
    ∧ (b = 0 ↔ ∀ x, x ∈ l → suitable (mem st) size x = false)
    ∧ (b ≠ 0 →
       b ∈ l ∧ suitable (mem st) size b = true
       ∧ (size_of (mem st) b = size
          ∨ ∀ x, x ∈ l → suitable (mem st) size x = true →
                 size_of (mem st) x <= size_of (mem st) b)).
Proof.
  intros Hc Hf Hm Hs. unfold find_block. rewrite Hm. cbn [Z.eqb].
  destruct (worst_fit_walk fuel (mem st) size (base st) last 0 0 l Hc Hf Hs)
    as (b & last' & -> & H).
  exists b, last'. split; [done|].
  assert (Hpos : ∀ x, x ∈ l → x ≠ 0).
  { intros x Hx. pose proof (chain_positive _ _ _ _ Hc Hx). lia. }
  destruct H as [(Hin & Hfree & Hex) | (Hne & [(-> & Hle) | (Hin & Hfree & Hgt & _ & Hmax)])].
  - assert (Hsu : suitable (mem st) size b = true)
      by (apply suitable_cases; auto).
    split; [|intros _; auto].
    split; [intros ->; by destruct (Hpos 0 Hin)|].
    intros Hall. rewrite (Hall b Hin) in Hsu. done.
  - split; [|done]. split; [|done]. intros _ x Hx.
    destruct (suitable (mem st) size x) eqn:E; [|done].
    apply suitable_cases in E as (Hfx & [Hex|Hgt]).
    + by destruct (Hne x Hx Hfx).
    + specialize (Hle x Hx Hfx Hgt). lia.
  - assert (Hsu : suitable (mem st) size b = true)
      by (apply suitable_cases; auto).
    split.
    + split; [intros ->; by destruct (Hpos 0 Hin)|].
      intros Hall. rewrite (Hall b Hin) in Hsu. done.
    + intros _. split; [done|]. split; [done|]. right.
      intros x Hx [Hfx [Hex|Hgx]]%suitable_cases; [lia | eauto].
Qed.

Lemma worst_fit_finds_largest_witness :
  let st := state_after three_regions
              [Malloc 8; Malloc 64; Malloc 8; Free 0; Free 1; Control 2] in
  ∃ b last', find_block 16 st 65536 4 = Some (b, last') ∧ b ≠ 0.
Proof.
  intros st.
  destruct (worst_fit_finds_largest 16 st [65536; 131072; 196608] 65536 4)
    as (b & last' & H & Hz & _).
  - vm_compute. repeat split; reflexivity.
  - simpl. lia.
  - vm_compute. reflexivity.
  - lia.
  - exists b, last'. split; [done|]. intros Hb.
    pose proof (proj1 Hz Hb 131072) as Hall.
    assert (Hs : suitable (mem st) 4 131072 = true) by (vm_compute; reflexivity).
    rewrite Hall in Hs; [done|]. apply elem_of_cons. right.
    apply elem_of_cons. by left.
Defined.

(** X4.  Under best fit, find_block returns NULL exactly when every free
    block that is large enough exceeds the request by PAGESIZE (4096) bytes
    or more.  A block it returns is free, large enough, less than 4096
    bytes larger than the request, and no free block that is large enough
    is smaller. *)
Theorem best_fit_finds_smallest_within_a_page
    (fuel : nat) (st : state) (l : list Z) (last size : Z) :
  ledger st l → (length l < fuel)%nat → method st = 1 → 0 <= size →
  ∃ b last', find_block fuel st last size = Some (b, last')
    ∧ (b = 0 ↔ ∀ x, x ∈ l → suitable (mem st) size x = true →
                    size + PAGESIZE <= size_of (mem st) x)
    ∧ (b ≠ 0 →
       b ∈ l ∧ suitable (mem st) size b = true
       ∧ size_of (mem st) b < size + PAGESIZE
       ∧ ∀ x, x ∈ l → suitable (mem st) size x = true →
              size_of (mem st) b <= size_of (mem st) x).
Proof.
  intros Hc Hf Hm Hs. unfold find_block. rewrite Hm. cbn [Z.eqb].
  destruct (best_fit_walk fuel (mem st) size (base st) last PAGESIZE 0 l Hc Hf Hs)
    as (b & last' & -> & H).
  exists b, last'. split; [done|].
  assert (Hpos : ∀ x, x ∈ l → x ≠ 0).
  { intros x Hx. pose proof (chain_positive _ _ _ _ Hc Hx). lia. }
  unfold PAGESIZE in *.
  destruct H as [(Hin & Hfree & Hex) | (Hne & [(-> & Hle) | (Hin & Hfree & Hgt & Hlt & Hmin)])].
  - assert (Hsu : suitable (mem st) size b = true)
      by (apply suitable_cases; auto).
    split.
    + split; [intros ->; by destruct (Hpos 0 Hin)|].
      intros Hall. specialize (Hall b Hin Hsu). lia.
    + intros _. repeat split; try done; [lia|].
      intros x Hx [Hfx Hcase]%suitable_cases. lia.
  - split; [|done]. split; [|done]. intros _ x Hx
      [Hfx [Hex|Hgt]]%suitable_cases.
    + by destruct (Hne x Hx Hfx).
    + specialize (Hle x Hx Hfx Hgt). lia.
  - assert (Hsu : suitable (mem st) size b = true)
      by (apply suitable_cases; auto).
    split.
    + split; [intros ->; by destruct (Hpos 0 Hin)|].
      intros Hall. specialize (Hall b Hin Hsu). lia.
    + intros _. repeat split; try done; [lia|].
      intros x Hx [Hfx [Hex|Hgx]]%suitable_cases.
      * by destruct (Hne x Hx Hfx).
      * eauto.
Qed.

Lemma best_fit_finds_smallest_within_a_page_witness :
  let st := state_after three_regions
              [Malloc 8192; Malloc 8; Free 0; Control 1] in
  ∃ last', find_block 16 st 65536 8 = Some (0, last').
Proof.
  intros st.
  destruct (best_fit_finds_smallest_within_a_page 16 st [65536; 131072] 65536 8)
    as (b & last' & H & Hz & _).
  - vm_compute. repeat split; reflexivity.
  - simpl. lia.
  - vm_compute. reflexivity.
  - lia.
  - exists last'. rewrite H. do 2 f_equal. apply Hz.
    intros x Hx Hsu. apply elem_of_cons in Hx as [->|Hx].
    + vm_compute. discriminate.
    + apply elem_of_cons in Hx as [->|Hx];
        [|apply elem_of_nil in Hx; destruct Hx].
      assert (Hno : suitable (mem st) 8 131072 = false)
        by (vm_compute; reflexivity).
      congruence.
Defined.

Lemma find_block_sound (fuel : nat) (st : state) (l : list Z) (last size : Z) :
  ledger st l → (length l < fuel)%nat → 0 <= size →
  ∃ b last', find_block fuel st last size = Some (b, last')
             ∧ (b ≠ 0 → b ∈ l ∧ suitable (mem st) size b = true).
Proof.
  intros Hc Hf Hs. unfold find_block.
  destruct (method st =? 0).
  { destruct (first_fit_find fuel (mem st) size (base st) last l Hc Hf)
      as (last' & -> & _).
    eexists _, _. split; [done|].
    destruct (List.find _ l) as [b|] eqn:E; [|done].
    intros _. apply List.find_some in E as [Hin Hsu].
    split; [by apply list_elem_of_In | done]. }
  destruct (method st =? 1).
  { destruct (best_fit_walk fuel (mem st) size (base st) last PAGESIZE 0 l
                Hc Hf Hs) as (b & last' & -> & H).
    eexists _, _. split; [done|]. intros Hb.
    destruct H as [(? & ? & ?) | (_ & [(-> & _) | (? & ? & ? & _)])];
      [|done|]; (split; [done|]); apply suitable_cases; auto. }
  destruct (method st =? 2).
  { destruct (worst_fit_walk fuel (mem st) size (base st) last 0 0 l
                Hc Hf Hs) as (b & last' & -> & H).
    eexists _, _. split; [done|]. intros Hb.
    destruct H as [(? & ? & ?) | (_ & [(-> & _) | (? & ? & ? & _)])];
      [|done|]; (split; [done|]); apply suitable_cases; auto. }
  eexists _, _. split; [done|]. done.
Qed.

(** X5.  Whatever the policy, on a finite ledger my_malloc returns NULL
    (and then leaves the memory as it was), or the payload address of a
    block of the ledger that was free and at least as large as the aligned
    request, or the payload address of the mapping the operating system has
    just granted.  It never hands out a block that is in use or too
    small. *)
Theorem my_malloc_hands_out_free_or_fresh
    (fuel : nat) (st : state) (l : list Z) (size : Z) :
  ledger st l → (length l < fuel)%nat →
  ∃ st' p, my_malloc fuel st size = Some (st', p)
    ∧ ((p = 0 ∧ mem st' = mem st ∧ base st' = base st)
       ∨ (get_block p ∈ l
          ∧ suitable (mem st) (align size) (get_block p) = true
          ∧ mmap_answers st' = mmap_answers st)
       ∨ (∃ a, mmap_answers st = Some a :: mmap_answers st'
               ∧ p = data_of (Z.pos a))).
Proof.
  intros Hc Hf.
  assert (Hext : ∀ last st1 b1,
            extend_heap st last (align size) = (st1, b1) → b1 ≠ 0 →
            ∃ a, mmap_answers st = Some a :: mmap_answers st1 ∧ b1 = Z.pos a).
  { intros last st1 b1. unfold extend_heap, mmap.
    destruct (align size =? 0); [by intros [= <- <-]|].
    destruct (mmap_answers st) as [|[a|] rest] eqn:Ea;
      intros [= <- <-] Hb; try done.
    exists a. done. }
  destruct (my_malloc_chain fuel st size l Hc Hf) as (st' & p & Hm & Hnull).
  exists st', p. split; [done|].
  destruct (decide (p = 0)) as [->|Hp].
  { left. destruct (Hnull eq_refl) as (? & ? & _). done. }
  right. unfold my_malloc in Hm.
  destruct (base st =? 0) eqn:Eb; cbn [negb] in Hm.
  - destruct (extend_heap st 0 (align size)) as [st1 b1] eqn:He.
    destruct (b1 =? 0) eqn:E1; [by injection Hm as <- <-|].
    apply Z.eqb_neq in E1. destruct (Hext _ _ _ He E1) as (a & Ha & ->).
    injection Hm as <- <-. right. exists a.
    destruct (malloc_call _ =? 0); done.
  - destruct (find_block_sound fuel st l (base st) (align size) Hc Hf
                (align_nonneg size)) as (b & last & Hfind & Hb).
    rewrite Hfind in Hm. cbn [mbind option_bind] in Hm.
    destruct (b =? 0) eqn:E0; cbn [negb] in Hm.
    + destruct (extend_heap st last (align size)) as [st1 b1] eqn:He.
      destruct (b1 =? 0) eqn:E1; [by injection Hm as <- <-|].
      apply Z.eqb_neq in E1. destruct (Hext _ _ _ He E1) as (a & Ha & ->).
      injection Hm as <- <-. right. exists a.
      destruct (malloc_call _ =? 0); done.
    + apply Z.eqb_neq in E0. destruct (Hb E0) as [Hin Hsu].
      injection Hm as <- <-. left.
      replace (get_block (data_of b)) with b
        by (unfold get_block, data_of, BLOCK_SIZE; lia).
      repeat split; try done. by destruct (malloc_call _ =? 0).
Qed.

Lemma my_malloc_hands_out_free_or_fresh_witness :
  let st := state_after three_regions [Malloc 8; Malloc 64; Malloc 8; Free 1] in
  ∃ st' p, my_malloc 16 st 16 = Some (st', p).
Proof.
  intros st.
  destruct (my_malloc_hands_out_free_or_fresh 16 st [65536; 131072; 196608] 16)
    as (st' & p & H & _).
  - vm_compute. repeat split; reflexivity.
  - simpl. lia.
  - by exists st', p.
Defined.

Section Zeroing.

Implicit Types (m : gmap Z Z) (a : Z) (n : nat).

Lemma load8_store_zero_in n m a0 a :
  a0 <= a < a0 + Z.of_nat n → load8 (store_le n m a0 0) a = 0.
Proof.
  revert m a0. induction n as [|k IH]; intros m a0 Hin; [simpl in Hin; lia|].
  cbn [store_le]. change (0 / 256) with 0. change (0 mod 256) with 0.
  destruct (decide (a = a0)) as [->|Hne].
  - rewrite load8_store_le_out by lia. apply load8_insert_eq.
  - apply IH. lia.
Qed.

Lemma zero_fill_snoc m new (idx : list Z) i :
  fold_left (fun acc i => store64 acc (new + 8 * i) 0) (idx ++ [i]) m
  = store64 (fold_left (fun acc i => store64 acc (new + 8 * i) 0) idx m)
            (new + 8 * i) 0.
Proof. by rewrite fold_left_app. Qed.

(** What [k] rounds of the loop leave in memory when none of them faults. *)
Lemma zero_fill_nat m new (k : nat) a :
  load8 (fold_left (fun acc i => store64 acc (new + 8 * i) 0)
                   (seqZ 0 (Z.of_nat k)) m) a
  = if bool_decide (new <= a < new + 8 * Z.of_nat k) then 0 else load8 m a.
Proof.
  induction k as [|k IH].
  - simpl. case_bool_decide; first [reflexivity | lia].
  - rewrite seqZ_S, Nat2Z.inj_succ. rewrite zero_fill_snoc.
    rewrite Z.add_0_l. unfold store64 at 1.
    destruct (decide (new + 8 * Z.of_nat k <= a < new + 8 * Z.of_nat k + 8))
      as [Hin|Hout].
    + rewrite load8_store_zero_in by (simpl; lia).
      clear IH. case_bool_decide; first [reflexivity | lia].
    + rewrite load8_store_le_out by (simpl; lia). rewrite IH. clear IH.
      repeat case_bool_decide; first [reflexivity | lia].
Qed.

Lemma zero_fill_load8 m new s4 a :
  0 <= s4 →
  load8 (fold_left (fun acc i => store64 acc (new + 8 * i) 0) (seqZ 0 s4) m) a
  = if bool_decide (new <= a < new + 8 * s4) then 0 else load8 m a.
Proof.
  intros Hs. rewrite <- (Z2Nat.id s4) by done. apply zero_fill_nat.
Qed.

Lemma zero_loop_stuck (st : state) new (idx : list Z) :
  fold_left
    (fun acc i =>
       m ← acc;
       if forallb (mapped st) (seqZ (new + 8 * i) 8)
       then Some (store64 m (new + 8 * i) 0) else None) idx None
  = None.
Proof. induction idx as [|i idx IH]; [done|]. exact IH. Qed.

Lemma zero_loop_run (st : state) new (idx : list Z) m :
  (∀ i, i ∈ idx → forallb (mapped st) (seqZ (new + 8 * i) 8) = true) →
  fold_left
    (fun acc i =>
       m ← acc;
       if forallb (mapped st) (seqZ (new + 8 * i) 8)
       then Some (store64 m (new + 8 * i) 0) else None) idx (Some m)
  = Some (fold_left (fun acc i => store64 acc (new + 8 * i) 0) idx m).
Proof.
  revert m. induction idx as [|i idx IH]; intros m Hall; [done|].
  cbn [fold_left mbind option_bind].
  rewrite (Hall i) by (apply elem_of_cons; by left).
  apply IH. intros j Hj. apply Hall, elem_of_cons. by right.
Qed.

Lemma zero_loop_fault (st : state) new (idx : list Z) m :
  (∃ i, i ∈ idx ∧ forallb (mapped st) (seqZ (new + 8 * i) 8) = false) →
  fold_left
    (fun acc i =>
       m ← acc;
       if forallb (mapped st) (seqZ (new + 8 * i) 8)
       then Some (store64 m (new + 8 * i) 0) else None) idx (Some m)
  = None.
Proof.
  revert m. induction idx as [|i idx IH]; intros m (j & Hj & Hbad).
  - apply elem_of_nil in Hj. destruct Hj.
  - cbn [fold_left mbind option_bind].
    destruct (forallb (mapped st) (seqZ (new + 8 * i) 8)) eqn:E.
    + apply IH. exists j. split; [|done].
      apply elem_of_cons in Hj as [->|Hj]; [congruence|done].
    + apply zero_loop_stuck.
Qed.

Lemma word_mapped (st : state) a :
  forallb (mapped st) (seqZ a 8) = true
  ↔ ∀ b, a <= b < a + 8 → mapped st b = true.
Proof.
  rewrite forallb_forall. split.
  - intros H b Hb. apply H, list_elem_of_In, elem_of_seqZ. lia.
  - intros H b Hb. apply list_elem_of_In, elem_of_seqZ in Hb. apply H. lia.
Qed.

(** The loop runs to its end when every byte of its range is mapped. *)
Lemma zero_words_run (st : state) new s4 :
  0 <= s4 →
  (∀ a, new <= a < new + 8 * s4 → mapped st a = true) →
  zero_words st new s4
  = Some (fold_left (fun acc i => store64 acc (new + 8 * i) 0)
                    (seqZ 0 s4) (mem st)).
Proof.
  intros Hs Hall. unfold zero_words. apply zero_loop_run.
  intros i Hi. apply elem_of_seqZ in Hi. apply word_mapped.
  intros b Hb. apply Hall. lia.
Qed.

(** It has no result when a byte of its range is not. *)
Lemma zero_words_fault (st : state) new s4 :
  0 <= s4 →
  (∃ a, new <= a < new + 8 * s4 ∧ mapped st a = false) →
  zero_words st new s4 = None.
Proof.
  intros Hs (a & Ha & Hbad). unfold zero_words. apply zero_loop_fault.
  exists ((a - new) / 8). split.
  - apply elem_of_seqZ. split; [apply Z.div_pos; lia|].
    rewrite Z.add_0_l. apply Z.div_lt_upper_bound; lia.
  - destruct (forallb (mapped st) (seqZ (new + 8 * ((a - new) / 8)) 8)) eqn:E;
      [|done].
    rewrite word_mapped in E. rewrite <- Hbad. symmetry. apply E.
    pose proof (Z.mul_div_le (a - new) 8 ltac:(lia)).
    pose proof (Z.mul_succ_div_gt (a - new) 8 ltac:(lia)). lia.
Qed.

Lemma mapped_in (st : state) (len p a : Z) :
  In (EvMmap len (Some p)) (trace st) →
  p <= a < p + (len + PAGESIZE - 1) / PAGESIZE * PAGESIZE →
  mapped st a = true.
Proof.
  intros Hin Ha. unfold mapped. apply existsb_exists.
  exists (EvMmap len (Some p)). split; [done|]. cbn [in_mapping].
  apply andb_true_iff. split; [apply Z.leb_le|apply Z.ltb_lt]; lia.
Qed.

End Zeroing.

(** X6.  my_calloc returns NULL without touching the state when either
    argument is 0.  Otherwise, on a finite ledger and for a product of at
    most 2^61, my_malloc returns; when its result is NULL so is that of
    my_calloc; when it is an address [p], the loop stores zeroes over the
    32 * align(number * size) bytes from [p], which cover the
    [number * size] bytes asked for and as a rule more than the block
    holds.  If all those bytes lie in mapped pages my_calloc returns [p],
    every byte of the range reads 0 and every byte outside it is as
    my_malloc left it; if one of them does not, my_calloc does not
    return. *)
Theorem my_calloc_zeroes_32_times_aligned
    (fuel : nat) (st : state) (l : list Z) (number size : Z) :
  ledger st l → (length l < fuel)%nat →
  (number = 0 ∨ size = 0 → my_calloc fuel st number size = Some (st, 0))
  ∧ (number ≠ 0 → size ≠ 0 → 0 < number * size <= 2 ^ 61 →
     ∃ st1 p,
       my_malloc fuel (with_malloc_call st 1) (number * size) = Some (st1, p)
       ∧ number * size <= 32 * align (number * size)
       ∧ (p = 0 →
          my_calloc fuel st number size
          = Some (log_handler st1 "calloc" ALLOC_TYPE_CALLOC 0 0, 0))
       ∧ (p ≠ 0 →
          (∀ a, p <= a < p + 32 * align (number * size) → mapped st1 a = true) →
          ∃ st', my_calloc fuel st number size = Some (st', p)
                 ∧ ∀ a, load8 (mem st') a
                        = if bool_decide (p <= a < p + 32 * align (number * size))
                          then 0 else load8 (mem st1) a)
       ∧ (p ≠ 0 →
          (∃ a, p <= a < p + 32 * align (number * size) ∧ mapped st1 a = false) →
          my_calloc fuel st number size = None)).
Proof.
  intros Hc Hf. split.
  - unfold my_calloc. intros [-> | ->]; [done|].
    by rewrite Z.eqb_refl, orb_true_r.
  - intros Hn Hs Hprod. unfold my_calloc.
    apply Z.eqb_neq in Hn, Hs. rewrite Hn, Hs. cbn [orb].
    assert (Hw : wrap64 (number * size) = number * size)
      by (unfold wrap64; apply Z.mod_small; lia).
    rewrite Hw.
    assert (Hc1 : ledger (with_malloc_call st 1) l) by exact Hc.
    destruct (my_malloc_chain fuel _ (number * size) l Hc1 Hf)
      as (st1 & p & Hm & _).
    rewrite Hm. cbn [mbind option_bind].
    destruct (align_rounds_up_and_wraps_aux (number * size)) as (Hlo & Hhi); [lia|].
    assert (Hs4 : wrap64 (Z.shiftl (align (number * size)) 2)
                  = 4 * align (number * size)).
    { rewrite Z.shiftl_mul_pow2 by lia. change (2 ^ 2) with 4.
      unfold wrap64. rewrite Z.mod_small; lia. }
    rewrite Hs4.
    exists st1, p. split; [done|]. split; [lia|]. split; [|split].
    + intros ->. done.
    + intros Hp Hall. apply Z.eqb_neq in Hp. rewrite Hp. cbn [negb].
      rewrite zero_words_run by (first [lia | intros a Ha; apply Hall; lia]).
      cbn [mbind option_bind]. eexists. split; [done|].
      intros a. cbn [mem log_handler emit with_mem].
      rewrite zero_fill_load8 by lia.
      replace (8 * (4 * align (number * size)))
        with (32 * align (number * size)) by lia.
      done.
    + intros Hp (a & Ha & Hbad). apply Z.eqb_neq in Hp. rewrite Hp. cbn [negb].
      rewrite zero_words_fault; [done|lia|].
      exists a. split; [lia|done].
Qed.

Lemma my_calloc_zeroes_32_times_aligned_witness :
  let st := state_after three_regions [Malloc 8; Malloc 64; Malloc 8; Free 1] in
  ∃ st', my_calloc 16 st 2 8 = Some (st', 131112)
         ∧ load8 (mem st') 131112 = 0 ∧ load8 (mem st') 131623 = 0.
Proof.
  intros st.
  destruct (my_calloc_zeroes_32_times_aligned 16 st [65536; 131072; 196608] 2 8)
    as (_ & H).
  - vm_compute. repeat split; reflexivity.
  - simpl. lia.
  - destruct H as (st1 & p & Hm & _ & _ & H & _); [lia | lia | lia |].
    set (r := my_malloc 16 (with_malloc_call st 1) (2 * 8)) in Hm.
    assert (Ep : snd <$> r = Some 131112) by (vm_compute; reflexivity).
    assert (Et : (fun x => nth_error (trace x.1) 2) <$> r
                 = Some (Some (EvMmap 64 (Some 131072))))
      by (vm_compute; reflexivity).
    rewrite Hm in Ep, Et. cbn [fmap option_fmap option_map fst snd] in Ep, Et.
    injection Ep as ->. injection Et as Et.
    assert (Hin : In (EvMmap 64 (Some 131072)) (trace st1))
      by exact (nth_error_In (trace st1) 2 Et).
    change (align (2 * 8)) with 16 in H.
    destruct H as (st' & Hr & Hz); [lia| |].
    + intros a Ha. apply (mapped_in st1 64 131072); [done|].
      change ((64 + PAGESIZE - 1) / PAGESIZE * PAGESIZE) with 4096. lia.
    + exists st'. split; [exact Hr|].
      rewrite !Hz. split; by rewrite bool_decide_eq_true_2 by lia.
Defined.

(** my_calloc(1, 200) on the empty heap: my_malloc maps one page at
    0x10000 and returns 0x10028; the loop is to zero 6400 bytes, up to
    0x11928, and the page ends at 0x11000. *)
Lemma my_calloc_leaves_the_mapping :
  let st := initial [Some region_a] in
  returned [Some region_a] [Malloc 200] = Some [65576]
  ∧ wrap64 (Z.shiftl (align (wrap64 (1 * 200))) 2) = 800
  ∧ mapped (state_after [Some region_a] [Malloc 200]) 69631 = true
  ∧ mapped (state_after [Some region_a] [Malloc 200]) 69632 = false
  ∧ my_calloc 16 st 1 200 = None
  ∧ returned [Some region_a] [Calloc 1 200] = None.
Proof. repeat split; vm_compute; reflexivity. Qed.

(** Reads a header field back after a sequence of field writes. *)
Ltac read_fields :=
  unfold size_of, next_of, prev_of, free_of, ptr_of, set_size, set_next,
    set_prev, set_free, set_ptr, data_of, BLOCK_SIZE, load64, load32,
    store64, store32 in *;
  repeat first [ rewrite load_le_store_le_disjoint by (simpl; lia)
               | rewrite load_le_store_le_same ].

Lemma mod64_small (v : Z) : 0 <= v < 2 ^ 64 → v mod 256 ^ Z.of_nat 8 = v.
Proof. intros H. apply Z.mod_small. exact H. Qed.





Lemma extend_heap_effect (st st' : state) (last s b : Z) :
  extend_heap st last s = (st', b) → b ≠ 0 →
  0 <= s < 2 ^ 64 → 0 <= last < 2 ^ 64 → b + 40 < 2 ^ 64 →
  last = 0 ∨ last + 40 <= b ∨ b + 40 <= last →
  0 < b
  ∧ size_of (mem st') b = s ∧ next_of (mem st') b = 0
  ∧ prev_of (mem st') b = last ∧ ptr_of (mem st') b = data_of b
  ∧ is_free (mem st') b = false
  ∧ (last ≠ 0 → next_of (mem st') last = b)
  ∧ base st' = base st ∧ method st' = method st
  ∧ malloc_call st' = malloc_call st
  ∧ trace st' = trace st ++ [EvMmap s (Some b)]
  ∧ ∀ a, (a < b ∨ b + 40 <= a) →
         (last = 0 ∨ a < last + 8 ∨ last + 16 <= a) →
         load8 (mem st') a = load8 (mem st) a.
Proof.
  unfold extend_heap. destruct (mmap st s) as [st1 [a|]] eqn:Hm;
    [|intros [= <- <-]; done].
  intros [= <- <-] _ Hs Hlast Hb Hsep.
  pose proof (mmap_granted _ _ _ _ Hm) as Hpos.
  assert (Hst1 : mem st1 = mem st ∧ base st1 = base st ∧ method st1 = method st
                 ∧ malloc_call st1 = malloc_call st
                 ∧ trace st1 = trace st ++ [EvMmap s (Some a)]).
  { unfold mmap in Hm. destruct (s =? 0); [done|].
    destruct (mmap_answers st) as [|[a'|] rest]; try done.
    injection Hm as <- <-. done. }
  destruct Hst1 as (Hmem & Hbase & Hmeth & Hcall & Htrace).
  cbn [mem base method malloc_call trace with_mem]. rewrite Hmem.
  split; [done|].
  destruct (last =? 0) eqn:E; cbn [negb].
  - apply Z.eqb_eq in E. subst last.
    repeat split; try done.
    + read_fields. apply mod64_small. lia.
    + read_fields. done.
    + read_fields. done.
    + read_fields. apply mod64_small. lia.
    + unfold is_free. read_fields. done.
    + intros a0 Ha _. read_fields.
      rewrite !load8_store_le_out by (simpl; lia). done.
  - apply Z.eqb_neq in E. destruct Hsep as [?|Hsep]; [done|].
    repeat split; try done.
    + read_fields. apply mod64_small. lia.
    + read_fields. done.
    + read_fields. apply mod64_small. lia.
    + read_fields. apply mod64_small. lia.
    + unfold is_free. read_fields. done.
    + intros _. read_fields. apply mod64_small. lia.
    + intros a0 Ha [?|Hl]; [done|]. read_fields.
      rewrite !load8_store_le_out by (simpl; lia). done.
Qed.

(** X8.  When mmap grants a mapping at [b], extend_heap makes its first
    forty bytes a block header: size [s], no successor, predecessor [last],
    ptr at the payload, not free; when [last] is not NULL its next link now
    names [b].  One mmap event is recorded, and no byte outside the new
    header and the next link of [last] changes. *)
Theorem extend_heap_initialises_header (st st' : state) (last s b : Z) :
  extend_heap st last s = (st', b) → b ≠ 0 →
  0 <= s < 2 ^ 64 → 0 <= last < 2 ^ 64 → b + 40 < 2 ^ 64 →
  last = 0 ∨ last + 40 <= b ∨ b + 40 <= last →
  0 < b
  ∧ size_of (mem st') b = s ∧ next_of (mem st') b = 0
  ∧ prev_of (mem st') b = last ∧ ptr_of (mem st') b = data_of b
  ∧ is_free (mem st') b = false
  ∧ (last ≠ 0 → next_of (mem st') last = b)
  ∧ base st' = base st ∧ method st' = method st
  ∧ malloc_call st' = malloc_call st
  ∧ trace st' = trace st ++ [EvMmap s (Some b)]
  ∧ ∀ a, (a < b ∨ b + 40 <= a) →
         (last = 0 ∨ a < last + 8 ∨ last + 16 <= a) →
         load8 (mem st') a = load8 (mem st) a.
Proof. exact (extend_heap_effect st st' last s b). Qed.

Lemma extend_heap_initialises_header_witness :
  let st := state_after three_regions [Malloc 8] in
  let r := extend_heap st 65536 16 in
  size_of (mem r.1) 131072 = 16 ∧ next_of (mem r.1) 65536 = 131072.
Proof.
  intros st r.
  destruct (extend_heap_initialises_header st r.1 65536 16 131072)
    as (_ & Hsize & _ & _ & _ & _ & Hnext & _).
  - vm_compute. reflexivity.
  - lia.
  - lia.
  - lia.
  - lia.
  - right. left. lia.
  - split; [exact Hsize | apply Hnext; lia].
Defined.

(** X9.  On an empty heap, when mmap grants a mapping at [a], my_malloc
    of a request that does not align to 0 makes the mapping the only block
    of the ledger (size: the aligned request, not free) and returns
    [a + 40], an address that valid_addr accepts.  my_free of that address
    then empties the ledger again: the anchor is NULL, and the only system
    call it makes is [brk(a + aligned size)]; the mapping is not
    unmapped. *)
Theorem my_malloc_then_my_free_on_empty_heap
    (fuel : nat) (st : state) (size : Z) (a : positive)
    (rest : list (option positive)) :
  (0 < fuel)%nat → base st = 0 → mmap_answers st = Some a :: rest →
  align size ≠ 0 → Z.pos a + 40 < 2 ^ 64 →
  ∃ st1 st2,
    my_malloc fuel st size = Some (st1, data_of (Z.pos a))
    ∧ ledger st1 [Z.pos a]
    ∧ size_of (mem st1) (Z.pos a) = align size
    ∧ is_free (mem st1) (Z.pos a) = false
    ∧ valid_addr fuel st1 (data_of (Z.pos a)) = Some 1
    ∧ my_free fuel st1 (data_of (Z.pos a)) = Some st2
    ∧ base st2 = 0 ∧ mmap_answers st2 = rest
    ∧ trace st2 = trace st1 ++ [EvBrk (Z.pos a + align size);
                                EvLog "free" ALLOC_TYPE_FREE (data_of (Z.pos a)) 0].
Proof.
  intros Hfuel Hbase Hans Hal Ha.
  pose proof (align_range size) as Hrange.
  destruct (extend_heap st 0 (align size)) as [st0 b] eqn:He.
  assert (Hb : b = Z.pos a ∧ mmap_answers st0 = rest).
  { unfold extend_heap, mmap in He. apply Z.eqb_neq in Hal.
    rewrite Hal, Hans in He. by injection He as <- <-. }
  destruct Hb as [-> Hrest].
  destruct (extend_heap_effect st st0 0 (align size) (Z.pos a) He)
    as (_ & Hsize & Hnext & Hprev & Hptr & Hfree & _ & Hb0 & _ & Hcall & Htr & _);
    [lia | lia | lia | lia | by left |].
  set (st1 := with_malloc_call
                (if malloc_call (with_base st0 (Z.pos a)) =? 0
                 then log_handler (with_base st0 (Z.pos a)) "malloc"
                        ALLOC_TYPE_MALLOC (data_of (Z.pos a)) size
                 else with_base st0 (Z.pos a)) 0).
  assert (Hmem1 : mem st1 = mem st0).
  { subst st1. by destruct (malloc_call _ =? 0). }
  assert (Hbase1 : base st1 = Z.pos a).
  { subst st1. by destruct (malloc_call _ =? 0). }
  assert (Hans1 : mmap_answers st1 = rest).
  { subst st1. by destruct (malloc_call _ =? 0). }
  assert (Hblock : get_block (data_of (Z.pos a)) = Z.pos a)
    by (unfold get_block, data_of, BLOCK_SIZE; lia).
  assert (Hvalid : valid_addr fuel st1 (data_of (Z.pos a)) = Some 1).
  { unfold valid_addr. rewrite Hbase1, Hblock, Hmem1.
    replace (data_of (Z.pos a) =? 0) with false
      by (symmetry; apply Z.eqb_neq; unfold data_of; lia).
    replace (Z.pos a =? 0) with false by done. cbn [orb].
    destruct fuel as [|k]; [lia|]. cbn [valid_walk].
    replace (Z.pos a =? 0) with false by done.
    by rewrite Z.eqb_refl, Hptr, Z.eqb_refl. }
  set (m1 := set_free (mem st0) (Z.pos a) 1).
  assert (Hn1 : next_of m1 (Z.pos a) = 0).
  { rewrite <- Hnext. subst m1. clear. read_fields. done. }
  assert (Hp1 : prev_of m1 (Z.pos a) = 0).
  { rewrite <- Hprev. subst m1. clear. read_fields. done. }
  assert (Hs1 : size_of m1 (Z.pos a) = align size).
  { rewrite <- Hsize. subst m1. clear. read_fields. done. }
  eexists st1, _.
  split.
  { unfold my_malloc. rewrite Hbase. cbn [Z.eqb negb]. rewrite He.
    replace (Z.pos a =? 0) with false by done. done. }
  split.
  { unfold ledger. rewrite Hbase1, Hmem1. simpl. rewrite Hnext. done. }
  split; [by rewrite Hmem1|]. split; [by rewrite Hmem1|].
  split; [exact Hvalid|].
  split.
  { unfold my_free. rewrite Hvalid. cbn [mbind option_bind Z.eqb negb].
    rewrite Hblock, Hmem1. fold m1.
    unfold fusion. replace (Z.pos a =? 0) with false by done.
    destruct fuel as [|k]; [lia|]. cbn [fusion_loop].
    rewrite Hn1. cbn [Z.eqb negb andb mbind option_bind].
    rewrite Hn1, Hp1. cbn [Z.eqb]. reflexivity. }
  split; [done|]. split; [exact Hans1|].
  cbn [trace log_handler emit with_base with_mem mem]. rewrite Hs1.
  by rewrite <- app_assoc.
Qed.

Lemma my_malloc_then_my_free_on_empty_heap_witness :
  ∃ st1 st2,
    my_malloc 16 (initial three_regions) 200 = Some (st1, 65576)
    ∧ my_free 16 st1 65576 = Some st2 ∧ base st2 = 0.
Proof.
  destruct (my_malloc_then_my_free_on_empty_heap 16 (initial three_regions) 200
              region_a [Some region_b; Some region_c])
    as (st1 & st2 & Hm & _ & _ & _ & _ & Hf & Hb & _).
  - lia.
  - reflexivity.
  - reflexivity.
  - vm_compute. discriminate.
  - vm_compute. reflexivity.
  - exists st1, st2. done.
Defined.

Lemma extend_heap_trace (st st1 : state) (last s b1 : Z) :
  extend_heap st last s = (st1, b1) →
  (∃ res, trace st1 = trace st ++ [EvMmap s res])
  ∧ malloc_call st1 = malloc_call st ∧ (b1 ≠ 0 → 0 < b1).
Proof.
  unfold extend_heap, mmap. destruct (s =? 0).
  { intros [= <- <-]. split; [by eexists | done]. }
  destruct (mmap_answers st) as [|[a|] rest]; intros [= <- <-];
    (split; [by eexists | split; [done | lia]]).
Qed.

Lemma my_malloc_trace_aux (fuel : nat) (st : state) (l : list Z) (size : Z) :
  ledger st l → (length l < fuel)%nat →
  ∃ st' p ev,
    my_malloc fuel st size = Some (st', p)
    ∧ trace st' = trace st ++ ev
                  ++ (if (malloc_call st =? 0) && negb (p =? 0)
                      then [EvLog "malloc" ALLOC_TYPE_MALLOC p size] else [])
    ∧ (ev = [] ∨ ∃ res, ev = [EvMmap (align size) res])
    ∧ (p ≠ 0 → malloc_call st' = 0)
    ∧ (p = 0 → malloc_call st' = malloc_call st).
Proof.
  intros Hc Hf.
  assert (Hret : ∀ s0 b, 0 < b →
            ∃ st' p, malloc_return s0 b size = (st', p) ∧ p ≠ 0
              ∧ trace st' = trace s0
                   ++ (if (malloc_call s0 =? 0) && negb (p =? 0)
                       then [EvLog "malloc" ALLOC_TYPE_MALLOC p size] else [])
              ∧ malloc_call st' = 0).
  { intros s0 b Hb. unfold malloc_return. eexists _, _. split; [done|].
    assert (Hd : (data_of b =? 0) = false)
      by (apply Z.eqb_neq; unfold data_of; lia).
    split; [unfold data_of; lia|]. rewrite Hd.
    destruct (malloc_call s0 =? 0); cbn; [done | by rewrite app_nil_r]. }
  assert (Hmiss : ∀ last s0,
            (trace s0 = trace st ∧ malloc_call s0 = malloc_call st) →
            ∀ st1 b1, extend_heap st last (align size) = (st1, b1) →
            ∀ stb, (trace stb = trace st1 ∧ malloc_call stb = malloc_call st1) →
            ∃ st' p ev,
              (if b1 =? 0 then Some (st1, 0) else Some (malloc_return stb b1 size))
              = Some (st', p)
              ∧ trace st' = trace st ++ ev
                   ++ (if (malloc_call st =? 0) && negb (p =? 0)
                       then [EvLog "malloc" ALLOC_TYPE_MALLOC p size] else [])
              ∧ (ev = [] ∨ ∃ res, ev = [EvMmap (align size) res])
              ∧ (p ≠ 0 → malloc_call st' = 0)
              ∧ (p = 0 → malloc_call st' = malloc_call st)).
  { intros last s0 _ st1 b1 He stb [Htb Hcb].
    destruct (extend_heap_trace _ _ _ _ _ He) as ((res & Htr) & Hcall & Hpos).
    destruct (b1 =? 0) eqn:E1.
    - eexists st1, 0, [EvMmap (align size) res]. split; [done|].
      cbn [Z.eqb negb]. rewrite andb_false_r, app_nil_r.
      split; [done|]. split; [right; by eexists|]. done.
    - apply Z.eqb_neq in E1.
      destruct (Hret stb b1 (Hpos E1)) as (st' & p & -> & Hp & Ht & Hc0).
      eexists st', p, [EvMmap (align size) res]. split; [done|].
      rewrite Ht, Htb, Htr, Hcb, Hcall, <- app_assoc.
      split; [done|]. split; [right; by eexists|]. done. }
  unfold my_malloc. destruct (base st =? 0) eqn:Eb; cbn [negb].
  - destruct (extend_heap st 0 (align size)) as [st1 b1] eqn:He.
    apply (Hmiss 0 st (conj eq_refl eq_refl) st1 b1 He (with_base st1 b1)).
    done.
  - destruct (find_block_chain fuel st (base st) (align size) l Hc Hf)
      as (b & last & -> & Hb). cbn [mbind option_bind].
    destruct (b =? 0) eqn:E0; cbn [negb].
    + destruct (extend_heap st last (align size)) as [st1 b1] eqn:He.
      apply (Hmiss last st (conj eq_refl eq_refl) st1 b1 He st1). done.
    + apply Z.eqb_neq in E0. destruct Hb as [->|Hb]; [done|].
      pose proof (chain_positive _ _ _ _ Hc Hb) as Hpos.
      destruct (Hret (with_mem st (set_free (resplit (mem st) b (align size)) b 0))
                  b Hpos) as (st' & p & -> & Hp & Ht & Hc0).
      eexists st', p, []. split; [done|]. split; [exact Ht|].
      split; [by left|]. done.
Qed.

(** X10.  On a finite ledger my_malloc asks mmap at most once, and then
    for the aligned size.  It writes its "malloc" record, with the
    address it returns and the size as requested, exactly when it succeeds
    and found the [malloc_call] flag clear, and writes nothing else.
    Success clears the flag; failure leaves it as it was. *)
Theorem my_malloc_log_discipline
    (fuel : nat) (st : state) (l : list Z) (size : Z) :
  ledger st l → (length l < fuel)%nat →
  ∃ st' p ev,
    my_malloc fuel st size = Some (st', p)
    ∧ trace st' = trace st ++ ev
                  ++ (if (malloc_call st =? 0) && negb (p =? 0)
                      then [EvLog "malloc" ALLOC_TYPE_MALLOC p size] else [])
    ∧ (ev = [] ∨ ∃ res, ev = [EvMmap (align size) res])
    ∧ (p ≠ 0 → malloc_call st' = 0)
    ∧ (p = 0 → malloc_call st' = malloc_call st).
Proof. exact (my_malloc_trace_aux fuel st l size). Qed.

Lemma my_malloc_log_discipline_witness :
  let st := state_after three_regions [Malloc 8; Malloc 64; Free 0] in
  ∃ st' p, my_malloc 16 st 8 = Some (st', p).
Proof.
  intros st.
  destruct (my_malloc_log_discipline 16 st [65536; 131072] 8)
    as (st' & p & ev & H & _).
  - vm_compute. repeat split; reflexivity.
  - simpl. lia.
  - by exists st', p.
Defined.

(** X11.  my_realloc on a non-null address that does not resolve returns
    NULL and changes nothing but the [malloc_call] flag, which it leaves
    set.  The next my_malloc therefore writes no log record, although it
    may succeed. *)
Theorem my_realloc_unresolved_silences_next_malloc
    (fuel : nat) (st : state) (l : list Z) (ptr size : Z) :
  ledger st l → (length l < fuel)%nat → ptr ≠ 0 →
  resolves st l ptr = false →
  my_realloc fuel st ptr size = Some (with_malloc_call st 1, 0)
  ∧ ∀ n, ∃ st' p ev,
      my_malloc fuel (with_malloc_call st 1) n = Some (st', p)
      ∧ trace st' = trace st ++ ev
      ∧ (ev = [] ∨ ∃ res, ev = [EvMmap (align n) res]).
Proof.
  intros Hc Hf Hp Hr.
  assert (Hc0 : ledger (with_malloc_call st 1) l) by exact Hc.
  split.
  - unfold my_realloc. apply Z.eqb_neq in Hp. rewrite Hp.
    rewrite (valid_addr_resolves fuel _ l ptr Hc0 Hf).
    replace (resolves (with_malloc_call st 1) l ptr) with false by (by rewrite <- Hr).
    done.
  - intros n.
    destruct (my_malloc_trace_aux fuel _ l n Hc0 Hf)
      as (st' & p & ev & Hm & Ht & Hev & _).
    exists st', p, ev. split; [done|]. split; [|done].
    cbn in Ht. by rewrite app_nil_r in Ht.
Qed.

Lemma my_realloc_unresolved_silences_next_malloc_witness :
  let st := state_after three_regions [Malloc 8; Malloc 64; Free 0] in
  my_realloc 16 st 12345 8 = Some (with_malloc_call st 1, 0).
Proof.
  intros st.
  destruct (my_realloc_unresolved_silences_next_malloc 16 st [65536; 131072]
              12345 8) as [H _].
  - vm_compute. repeat split; reflexivity.
  - simpl. lia.
  - lia.
  - vm_compute. reflexivity.
  - exact H.
Defined.



Lemma unusable_free_none (m : gmap Z Z) (l : list Z) (c : Z) :
  (∀ x, x ∈ l → is_free m x = false) → unusable_free m l c = 0.
Proof.
  unfold unusable_free. induction l as [|x l IH]; intros Hall; [done|].
  simpl. rewrite (Hall x) by (apply elem_of_cons; by left). simpl.
  apply IH. intros y Hy. apply Hall. apply elem_of_cons. by right.
Qed.

Lemma unusable_free_cons (m : gmap Z Z) (x : Z) (l : list Z) (c : Z) :
  unusable_free m (x :: l) c
  = (if is_free m x && (size_of m x <? c) then size_of m x else 0)
    + unusable_free m l c.
Proof.
  unfold unusable_free. cbn [List.filter].
  by destruct (is_free m x && (size_of m x <? c)).
Qed.

(** A free block counts as unusable only when a larger block is in use,
    and that block is part of the total: the unusable bytes and the
    largest block in use together do not exceed the total. *)
Lemma unusable_free_cap (m : gmap Z Z) (l : list Z) (c : Z) :
  unusable_free m l c + cap m l <= total_size m l.
Proof.
  induction l as [|x l IH]; [done|].
  rewrite unusable_free_cons, cap_cons.
  change (total_size m (x :: l)) with (size_of m x + total_size m l).
  pose proof (size_of_nonneg m x). pose proof (cap_nonneg m l).
  destruct (is_free m x); cbn [negb andb]; [|lia].
  destruct (size_of m x <? c); lia.
Qed.

Lemma unusable_free_positive (m : gmap Z Z) (l : list Z) (c : Z) :
  0 < unusable_free m l c → 0 < c.
Proof.
  induction l as [|x l IH]; [done|]. rewrite unusable_free_cons.
  pose proof (size_of_nonneg m x).
  destruct (is_free m x && (size_of m x <? c)) eqn:E; [|done].
  apply andb_true_iff in E as [_ E]. apply Z.ltb_lt in E. lia.
Qed.

(** X13.  On a finite ledger whose sizes add up to less than 2^53,
    external_frag returns the NaN of 0.0 / 0.0 exactly when the sizes add
    up to 0, and otherwise a double between 0 and 100 in the order of
    double, hence neither a NaN nor an infinity: the roundings of the
    quotient and of the product by 100 do not carry the result past 100.
    When no block of the ledger is free and the sizes do not add up to 0,
    the result is 0. *)
Theorem external_frag_is_a_percentage (fuel : nat) (st : state) (l : list Z) :
  ledger st l → (length l < fuel)%nat → total_size (mem st) l < 2 ^ 53 →
  ((total_size (mem st) l = 0 ∧ external_frag fuel st = Some S754_nan)
   ∨ (total_size (mem st) l ≠ 0
      ∧ ∃ d, external_frag fuel st = Some d
             ∧ SFleb (to_double 0) d = true
             ∧ SFleb d (to_double 100) = true))
  ∧ ((∀ x, x ∈ l → is_free (mem st) x = false) →
     total_size (mem st) l ≠ 0 →
     external_frag fuel st = Some (to_double 0)).
Proof.
  intros Hc Hf Ht. rewrite (external_frag_chain fuel st l Hc Hf).
  pose proof (unusable_free_bounds (mem st) l (cap (mem st) l)) as Hb.
  pose proof (unusable_free_cap (mem st) l (cap (mem st) l)) as Hcap.
  pose proof (unusable_free_positive (mem st) l (cap (mem st) l)) as Hpos.
  assert (Hexact : fragmentation_ratio (mem st) l
            = dmul (ddiv (to_double (unusable_free (mem st) l (cap (mem st) l)))
                         (to_double (total_size (mem st) l)))
                   (to_double 100)).
  { unfold fragmentation_ratio.
    rewrite !dsum_exact; first done.
    - apply sizes_nonneg.
    - exact Ht.
    - apply sizes_nonneg.
    - unfold unusable_free in Hb. lia. }
  rewrite Hexact. clear Hexact.
  set (u := unusable_free (mem st) l (cap (mem st) l)) in *.
  set (t := total_size (mem st) l) in *.
  assert (Hzero : u = 0 → t ≠ 0 →
            dmul (ddiv (to_double u) (to_double t)) (to_double 100) = to_double 0).
  { intros -> Hne. destruct t as [|pt|pt]; [done| |lia].
    destruct (to_double_small pt Ht) as (c & e & -> & _). done. }
  split.
  - destruct (Z.eq_dec t 0) as [E|NE].
    + left. split; [done|]. rewrite E. replace u with 0 by lia. done.
    + right. split; [done|]. eexists. split; [done|].
      destruct (Z.eq_dec u 0) as [Eu|NEu].
      * rewrite Hzero by done. done.
      * destruct (ddiv_below_one u t) as (c & e & -> & Hd & He & Hle); [lia|lia|].
        by apply dmul_100_below.
  - intros Hall Hne. f_equal. apply Hzero; [|done].
    apply unusable_free_none, Hall.
Qed.

Lemma external_frag_is_a_percentage_witness :
  let st := state_after three_regions [Malloc 8; Malloc 64; Free 0] in
  view 16 st = [(65536, 8, true); (131072, 64, false)]
  ∧ ∃ d, external_frag 16 st = Some d
         ∧ SFleb (to_double 0) d = true ∧ SFleb d (to_double 100) = true.
Proof.
  intros st. split; [vm_compute; reflexivity|].
  destruct (external_frag_is_a_percentage 16 st [65536; 131072])
    as [[[H0 _]|(_ & d & H)] _].
  - vm_compute. repeat split; reflexivity.
  - simpl. lia.
  - vm_compute. reflexivity.
  - exfalso.
    assert (E : total_size (mem st) [65536; 131072] = 72)
      by (vm_compute; reflexivity).
    rewrite E in H0. clear E. discriminate H0.
  - exists d. exact H.
Defined.

Lemma check_scan_chain (fuel : nat) (m : gmap Z Z) (a : Z) (l : list Z) :
  chain m a l → (length l < fuel)%nat →
  ∃ lines, check_scan fuel m a = Some lines
    ∧ ((∃ x y, LWarnAdjacentFree x y ∈ lines) ↔ no_adjacent_free m l = false)
    ∧ (∀ x, LErrorInvalidSize x ∈ lines ↔ x ∈ l ∧ size_of m x = 0)
    ∧ (∀ ln, ln ∈ lines →
             (∃ x y, ln = LWarnAdjacentFree x y) ∨ ∃ x, ln = LErrorInvalidSize x).
Proof.
  revert fuel a. induction l as [|x l IH]; intros fuel a Hc Hf;
    destruct fuel as [|k]; cbn [length] in Hf; try lia.
  - simpl in Hc. subst a. simpl. eexists. split; [done|].
    split; [|split].
    + split; [intros (? & ? & ?%elem_of_nil); done | done].
    + intros y. split; [by intros ?%elem_of_nil | by intros [?%elem_of_nil _]].
    + by intros ? ?%elem_of_nil.
  - destruct Hc as (-> & Hx & Hc). cbn [check_scan].
    destruct (x =? 0) eqn:E0; [lia|].
    destruct (IH k (next_of m x) Hc) as (rest & -> & Hw & He & Hk); [lia|].
    cbn [mbind option_bind]. eexists. split; [done|].
    set (w := if is_free m x && negb (next_of m x =? 0) && is_free m (next_of m x)
              then [LWarnAdjacentFree x (next_of m x)] else []).
    set (e := if size_of m x <=? 0 then [LErrorInvalidSize x] else []).
    assert (Hwarn : (∃ a b, LWarnAdjacentFree a b ∈ w)
                    ↔ is_free m x && negb (next_of m x =? 0)
                      && is_free m (next_of m x) = true).
    { subst w. destruct (_ && _ && _).
      - split; [done|]. intros _. eexists _, _. apply elem_of_cons. by left.
      - split; [intros (? & ? & ?%elem_of_nil); done | done]. }
    assert (Hnw : ∀ a b, LWarnAdjacentFree a b ∉ e).
    { intros a b. subst e. destruct (_ <=? _); [|by intros ?%elem_of_nil].
      intros [?|?%elem_of_nil]%elem_of_cons; done. }
    assert (Herr : ∀ y, LErrorInvalidSize y ∈ e ↔ y = x ∧ size_of m x = 0).
    { intros y. subst e. pose proof (size_of_nonneg m x).
      destruct (size_of m x <=? 0) eqn:E.
      - apply Z.leb_le in E. split.
        + intros [[= ->]|?%elem_of_nil]%elem_of_cons; [split; [done|lia] | done].
        + intros [-> _]. apply elem_of_cons. by left.
      - apply Z.leb_gt in E. split; [by intros ?%elem_of_nil | lia]. }
    assert (Hne : ∀ y, LErrorInvalidSize y ∉ w).
    { intros y. subst w. destruct (_ && _ && _); [|by intros ?%elem_of_nil].
      intros [?|?%elem_of_nil]%elem_of_cons; done. }
    split; [|split].
    + assert (Hnaf : no_adjacent_free m (x :: l) = false
                     ↔ (is_free m x && negb (next_of m x =? 0)
                        && is_free m (next_of m x) = true)
                       ∨ no_adjacent_free m l = false).
      { destruct l as [|y l'].
        - simpl in Hc. rewrite Hc. simpl. rewrite andb_false_r.
          split; [done | by intros [?|?]].
        - destruct Hc as (Hy & Hy0 & _). rewrite <- Hy.
          replace (next_of m x =? 0) with false
            by (symmetry; apply Z.eqb_neq; lia).
          cbn [negb no_adjacent_free]. rewrite andb_true_r.
          destruct (is_free m x && is_free m (next_of m x));
            destruct (no_adjacent_free m (next_of m x :: l'));
            cbn; intuition congruence. }
      rewrite Hnaf. rewrite <- Hwarn, <- Hw. split.
      * intros (a & b & Hin). apply elem_of_app in Hin as [Hin|Hin];
          [left; eauto|].
        apply elem_of_app in Hin as [Hin|Hin]; [by destruct (Hnw a b)|].
        right. eauto.
      * intros [(a & b & Hin)|(a & b & Hin)]; exists a, b.
        -- apply elem_of_app. by left.
        -- apply elem_of_app. right. apply elem_of_app. by right.
    + intros y. split.
      * intros Hin. apply elem_of_app in Hin as [Hin|Hin];
          [by destruct (Hne y)|].
        apply elem_of_app in Hin as [Hin|Hin].
        -- apply Herr in Hin as [-> ?]. split; [apply elem_of_cons; by left|done].
        -- apply He in Hin as [? ?]. split; [apply elem_of_cons; by right|done].
      * intros [[->|Hin]%elem_of_cons Hs]; apply elem_of_app; right;
          apply elem_of_app.
        -- left. by apply Herr.
        -- right. by apply He.
    + intros ln Hin. apply elem_of_app in Hin as [Hin|Hin].
      { subst w. destruct (_ && _ && _); [|by apply elem_of_nil in Hin].
        apply elem_of_cons in Hin as [->|?%elem_of_nil]; [|done].
        left. by eexists _, _. }
      apply elem_of_app in Hin as [Hin|Hin]; [|by apply Hk].
      subst e. destruct (_ <=? _); [|by apply elem_of_nil in Hin].
      apply elem_of_cons in Hin as [->|?%elem_of_nil]; [|done].
      right. by eexists.
Qed.

(** X14.  On a finite ledger check_heap returns its report.  The report
    holds a warning about adjacent free blocks exactly when two neighbours
    of the ledger are both free, and an invalid-size error for a block
    exactly when that block is in the ledger and its size is 0.  With a
    null argument it prints the "Data is NULL" line only. *)
Theorem check_heap_reports_the_anomalies
    (fuel : nat) (st : state) (l : list Z) (brk_now data : Z) :
  ledger st l → (length l < fuel)%nat →
  check_heap fuel st brk_now 0 = Some [LDataIsNull]
  ∧ (data ≠ 0 → get_block data ≠ 0 →
     ∃ lines, check_heap fuel st brk_now data = Some lines
       ∧ ((∃ x y, LWarnAdjacentFree x y ∈ lines)
          ↔ no_adjacent_free (mem st) l = false)
       ∧ (∀ x, LErrorInvalidSize x ∈ lines
               ↔ x ∈ l ∧ size_of (mem st) x = 0)).
Proof.
  intros Hc Hf. split; [done|]. intros Hd Hb. unfold check_heap.
  apply Z.eqb_neq in Hd, Hb. rewrite Hd, Hb.
  destruct (check_scan_chain fuel (mem st) (base st) l Hc Hf)
    as (scan & -> & Hw & He & Hk).
  cbn [mbind option_bind]. eexists. split; [done|].
  set (head := _ ++ _ ++ _ ++ _ ++ _ ++ _).
  assert (Hhead : ∀ ln, ln ∈ head →
            (∀ x y, ln ≠ LWarnAdjacentFree x y) ∧ ∀ x, ln ≠ LErrorInvalidSize x).
  { intros ln Hin. subst head.
    repeat (apply elem_of_app in Hin as [Hin|Hin]);
      repeat (apply elem_of_cons in Hin as [->|Hin]);
      try (by apply elem_of_nil in Hin);
      repeat match goal with
             | |- context [if ?c then _ else _] => destruct c
             | H : context [if ?c then _ else _] |- _ => destruct c
             end;
      repeat (apply elem_of_cons in Hin as [->|Hin]);
      try (by apply elem_of_nil in Hin); done. }
  split.
  - rewrite <- Hw. split.
    + intros (x & y & Hin). apply elem_of_app in Hin as [Hin|Hin]; [|eauto].
      by destruct (proj1 (Hhead _ Hin) x y).
    + intros (x & y & Hin). exists x, y. apply elem_of_app. by right.
  - intros x. rewrite <- He. split.
    + intros Hin. apply elem_of_app in Hin as [Hin|Hin]; [|done].
      by destruct (proj2 (Hhead _ Hin) x).
    + intros Hin. apply elem_of_app. by right.
Qed.

Lemma check_heap_reports_the_anomalies_witness :
  let st := state_after three_regions
              [Malloc 8; Malloc 8; Malloc 8; Free 0; Free 1] in
  ∃ lines, check_heap 16 st 0 196648 = Some lines
           ∧ ∃ x y, LWarnAdjacentFree x y ∈ lines.
Proof.
  intros st.
  destruct (check_heap_reports_the_anomalies 16 st [65536; 131072; 196608]
              0 196648) as [_ H].
  - vm_compute. repeat split; reflexivity.
  - simpl. lia.
  - destruct H as (lines & Hl & Hw & _); [lia | vm_compute; discriminate |].
    exists lines. split; [exact Hl|]. apply Hw. vm_compute. reflexivity.
Defined.

Lemma usage_loop_chain (fuel : nat) (m : gmap Z Z) (a : Z) (l : list Z)
    (ta tf : Z) :
  chain m a l → (length l < fuel)%nat →
  usage_loop fuel m a (wrap64 ta) (wrap64 tf)
  = Some (wrap64 (ta + total_size m (List.filter (fun b => negb (is_free m b)) l)),
          wrap64 (tf + total_size m (List.filter (is_free m) l))).
Proof.
  revert fuel a ta tf. induction l as [|x l IH]; intros fuel a ta tf Hc Hf;
    destruct fuel as [|k]; cbn [length] in Hf; try lia.
  - simpl in Hc. subst a. simpl. unfold total_size. simpl.
    by rewrite !Z.add_0_r.
  - destruct Hc as (-> & Hx & Hc). cbn [usage_loop List.filter].
    destruct (x =? 0) eqn:E0; [lia|].
    destruct (is_free m x); cbn [negb].
    + replace (wrap64 (wrap64 tf + size_of m x))
        with (wrap64 (tf + size_of m x))
        by (unfold wrap64; by rewrite Zplus_mod_idemp_l).
      rewrite (IH k) by (done || lia). unfold total_size. simpl.
      by rewrite <- !Z.add_assoc.
    + replace (wrap64 (wrap64 ta + size_of m x))
        with (wrap64 (ta + size_of m x))
        by (unfold wrap64; by rewrite Zplus_mod_idemp_l).
      rewrite (IH k) by (done || lia). unfold total_size. simpl.
      by rewrite <- !Z.add_assoc.
Qed.

Lemma total_size_partition (m : gmap Z Z) (l : list Z) :
  total_size m (List.filter (fun b => negb (is_free m b)) l)
  + total_size m (List.filter (is_free m) l) = total_size m l.
Proof.
  unfold total_size. induction l as [|x l IH]; [done|].
  simpl. destruct (is_free m x); simpl; lia.
Qed.

(** X15.  On a finite ledger the two totals of memory_usage are the sum of
    the sizes of the blocks in use and the sum of the sizes of the free
    blocks, each reduced modulo 2^64; together the two sums are the sum of
    all sizes, the denominator of external_frag. *)
Theorem memory_usage_totals (fuel : nat) (st : state) (l : list Z) :
  ledger st l → (length l < fuel)%nat →
  memory_usage fuel st
  = Some (wrap64 (total_size (mem st)
                    (List.filter (fun b => negb (is_free (mem st) b)) l)),
          wrap64 (total_size (mem st) (List.filter (is_free (mem st)) l)))
  ∧ total_size (mem st) (List.filter (fun b => negb (is_free (mem st) b)) l)
    + total_size (mem st) (List.filter (is_free (mem st)) l)
    = total_size (mem st) l.
Proof.
  intros Hc Hf. split; [|apply total_size_partition].
  unfold memory_usage. change 0 with (wrap64 0) at 1 2.
  by rewrite (usage_loop_chain fuel (mem st) (base st) l 0 0 Hc Hf).
Qed.

Lemma memory_usage_totals_witness :
  let st := state_after three_regions [Malloc 8; Malloc 64; Malloc 8; Free 1] in
  memory_usage 16 st = Some (16, 64).
Proof.
  intros st.
  destruct (memory_usage_totals 16 st [65536; 131072; 196608]) as [H _].
  - vm_compute. repeat split; reflexivity.
  - simpl. lia.
  - rewrite H. vm_compute. reflexivity.
Defined.

Lemma trim_loop_empties (fuel : nat) (st st' : state) (current : Z) :
  trim_loop fuel st current = Some st' → current ≠ 0 → base st' = 0.
Proof.
  revert st current. induction fuel as [|k IH]; intros st current Ht Hc; [done|].
  cbn [trim_loop] in Ht. apply Z.eqb_neq in Hc as Hc'. rewrite Hc' in Ht.
  destruct (if negb (is_free (mem st) current)
            then my_free (S k) st (ptr_of (mem st) current) else Some st)
    as [st1|]; [|done].
  cbn [mbind option_bind] in Ht.
  destruct (fusion (S k) (mem st1) current) as [m2|]; [|done].
  cbn [mbind option_bind] in Ht.
  destruct (next_of m2 current =? 0) eqn:En.
  - apply Z.eqb_eq in En. cbn [mem with_base with_mem] in Ht. rewrite En in Ht.
    destruct k as [|k']; [done|]. cbn [trim_loop Z.eqb] in Ht.
    by injection Ht as <-.
  - apply Z.eqb_neq in En. cbn [mem with_mem] in Ht. by apply IH in Ht.
Qed.

(** X16.  mem_trim leaves an empty heap as it is.  On a non-empty heap,
    whenever its walk comes to an end the anchor is NULL: every block,
    free or in use, has become unreachable. *)
Theorem mem_trim_empties_the_ledger (fuel : nat) (st st' : state) :
  (0 < fuel)%nat →
  (base st = 0 → mem_trim fuel st = Some st)
  ∧ (mem_trim fuel st = Some st' → base st ≠ 0 → base st' = 0).
Proof.
  intros Hf. split.
  - intros Hb. unfold mem_trim. rewrite Hb. destruct fuel; [lia | done].
  - unfold mem_trim. apply trim_loop_empties.
Qed.

Lemma mem_trim_empties_the_ledger_witness :
  let st := state_after three_regions [Malloc 8; Malloc 64; Malloc 8; Free 1] in
  ∃ st', mem_trim 16 st = Some st' ∧ base st' = 0.
Proof.
  intros st.
  destruct (mem_trim 16 st) as [st'|] eqn:E; [|vm_compute in E; discriminate].
  exists st'. split; [done|].
  destruct (mem_trim_empties_the_ledger 16 st st') as [_ H]; [lia|].
  apply H; [exact E | vm_compute; discriminate].
Defined.

(** * The ledger under writes *)

Section Frames.

Implicit Types (m : gmap Z Z) (l : list Z).

Lemma load_le_ext (n : nat) m m' (a : Z) :
  (∀ i, a <= i < a + Z.of_nat n → load8 m' i = load8 m i) →
  load_le n m' a = load_le n m a.
Proof.
  revert a. induction n as [|k IH]; intros a H; [done|].
  cbn [load_le]. rewrite H by lia. rewrite IH; [done|].
  intros i Hi. apply H. lia.
Qed.

Lemma chain_ext m m' (a : Z) l :
  chain m a l → (∀ x, x ∈ l → next_of m' x = next_of m x) → chain m' a l.
Proof.
  revert a. induction l as [|x l IH]; intros a Hc Hn; [done|].
  destruct Hc as (-> & Hx & Hc). split; [done|]. split; [done|].
  rewrite Hn by (apply elem_of_cons; by left).
  apply IH; [done|]. intros y Hy. apply Hn. apply elem_of_cons. by right.
Qed.

Lemma last_default (l : list Z) (d d' : Z) :
  l ≠ [] → List.last l d = List.last l d'.
Proof.
  destruct l as [|x l]; [done|]. intros _. by rewrite !last_cons_default.
Qed.

Lemma chain_last_next m (a : Z) l (d : Z) :
  chain m a l → l ≠ [] → next_of m (List.last l d) = 0.
Proof.
  revert a. induction l as [|x l IH]; intros a Hc Hne; [done|].
  destruct Hc as (-> & Hx & Hc). destruct l as [|y l'].
  - simpl in *. exact Hc.
  - rewrite last_cons_default, (last_default (y :: l') x d) by done.
    by apply (IH (next_of m x)).
Qed.

Lemma last_in (l : list Z) (d : Z) : l ≠ [] → List.last l d ∈ l.
Proof.
  induction l as [|x l IH]; [done|]. intros _. destruct l as [|y l'].
  - apply elem_of_cons. by left.
  - apply elem_of_cons. right.
    rewrite last_cons_default, (last_default (y :: l') x d) by done.
    by apply IH.
Qed.

Lemma spaced_apart (l : list Z) (x y : Z) :
  spaced l → x ∈ l → y ∈ l → x ≠ y → x + 40 <= y ∨ y + 40 <= x.
Proof.
  induction l as [|z l IH]; intros Hs Hx Hy Hne; [by apply elem_of_nil in Hx|].
  destruct Hs as [Hz Hs]. rewrite Forall_forall in Hz.
  apply elem_of_cons in Hx as [->|Hx]; apply elem_of_cons in Hy as [->|Hy].
  - done.
  - by apply Hz.
  - destruct (Hz x Hx); lia.
  - by apply IH.
Qed.

(** Appending a block behind the tail of a chain. *)
Lemma chain_append m m' (a b : Z) l :
  chain m a l → l ≠ [] → spaced l →
  (∀ x, x ∈ l → x ≠ List.last l 0 → next_of m' x = next_of m x) →
  next_of m' (List.last l 0) = b → 0 < b → next_of m' b = 0 →
  chain m' a (l ++ [b]).
Proof.
  revert a. induction l as [|x l IH]; intros a Hc Hne Hsp Hkeep Hlast Hb Hb0;
    [done|].
  destruct Hc as (-> & Hx & Hc). destruct l as [|y l'].
  - simpl in *. split; [done|]. split; [done|]. rewrite Hlast. done.
  - cbn [app]. split; [done|]. split; [done|].
    assert (Hxl : x ≠ List.last (x :: y :: l') 0).
    { rewrite last_cons_default, (last_default (y :: l') x 0) by done.
      destruct Hsp as [Hfx _]. rewrite Forall_forall in Hfx.
      pose proof (last_in (y :: l') 0 ltac:(done)) as Hin.
      destruct (Hfx _ Hin); lia. }
    rewrite Hkeep by (done || apply elem_of_cons; by left).
    apply (IH (next_of m x)); try done.
    + by destruct Hsp.
    + intros z Hz Hzl. apply Hkeep; [apply elem_of_cons; by right|].
      by rewrite last_cons_default, (last_default (y :: l') x 0).
Qed.

End Frames.

Lemma chain_bound (m : gmap Z Z) (a : Z) (l : list Z) (x : Z) :
  chain m a l → a < 2 ^ 64 → x ∈ l → 0 < x < 2 ^ 64.
Proof.
  revert a. induction l as [|y l IH]; intros a Hc Ha Hx;
    [by apply elem_of_nil in Hx|].
  destruct Hc as (-> & Hy & Hc).
  apply elem_of_cons in Hx as [->|Hx]; [lia|].
  apply (IH (next_of m y)); [done | apply (load_le_bound 8) | done].
Qed.

Lemma find_block_miss_last (fuel : nat) (st : state) (l : list Z)
    (size last : Z) :
  ledger st l → (length l < fuel)%nat →
  method st = 0 ∨ method st = 1 ∨ method st = 2 →
  find_block fuel st (base st) size = Some (0, last) →
  last = List.last l (base st).
Proof.
  intros Hc Hf Hm. unfold find_block.
  assert (Hnot0 : 0 ∉ l).
  { intros H0. pose proof (chain_positive _ _ _ _ Hc H0). lia. }
  destruct Hm as [-> | [-> | ->]]; cbn [Z.eqb].
  - destruct (first_fit_find fuel (mem st) size (base st) (base st) l Hc Hf)
      as (last' & -> & Hl).
    destruct (List.find _ l) as [b|] eqn:E.
    + intros [= -> _]. apply List.find_some in E as [Hin _].
      by apply list_elem_of_In in Hin.
    + intros [= <-]. by apply Hl.
  - destruct (best_fit_last fuel (mem st) size (base st) (base st) PAGESIZE 0 l
                Hc Hf) as (b & last' & -> & H).
    intros [= -> ->]. by destruct H.
  - destruct (worst_fit_last fuel (mem st) size (base st) (base st) 0 0 l
                Hc Hf) as (b & last' & -> & H).
    intros [= -> ->]. by destruct H.
Qed.

(** X17.  When the search misses on a non-empty ledger whose headers do
    not overlap, and mmap grants a mapping away from them, my_malloc
    appends the new block behind the tail: the ledger is the old list
    followed by the new block, the size and the free flag of every old
    block are unchanged, the new block has the aligned size, is in use, has
    the old tail as predecessor, and the address returned resolves. *)
Theorem my_malloc_miss_appends_at_tail
    (fuel : nat) (st : state) (l : list Z) (size last : Z) (a : positive)
    (rest : list (option positive)) :
  ledger st l → l ≠ [] → (S (length l) < fuel)%nat → spaced l →
  method st = 0 ∨ method st = 1 ∨ method st = 2 →
  find_block fuel st (base st) (align size) = Some (0, last) →
  mmap_answers st = Some a :: rest → align size ≠ 0 →
  Z.pos a + 40 < 2 ^ 64 → base st < 2 ^ 64 →
  Forall (fun x => x + 40 <= Z.pos a ∨ Z.pos a + 40 <= x) l →
  ∃ st', my_malloc fuel st size = Some (st', data_of (Z.pos a))
    ∧ last = List.last l 0
    ∧ ledger st' (l ++ [Z.pos a])
    ∧ (∀ x, x ∈ l → size_of (mem st') x = size_of (mem st) x
                     ∧ is_free (mem st') x = is_free (mem st) x)
    ∧ size_of (mem st') (Z.pos a) = align size
    ∧ is_free (mem st') (Z.pos a) = false
    ∧ prev_of (mem st') (Z.pos a) = last
    ∧ valid_addr fuel st' (data_of (Z.pos a)) = Some 1.
Proof.
  intros Hc Hne Hf Hsp Hm Hfind Hans Hal Ha Hbase Hfar.
  pose proof (align_range size) as Hrange.
  assert (Hlast : last = List.last l 0).
  { rewrite (find_block_miss_last fuel st l _ _ Hc ltac:(lia) Hm Hfind).
    by apply last_default. }
  assert (Hlin : last ∈ l) by (rewrite Hlast; by apply last_in).
  pose proof (chain_bound _ _ _ _ Hc Hbase Hlin) as Hlb.
  rewrite Forall_forall in Hfar.
  assert (Hb0 : (base st =? 0) = false).
  { apply Z.eqb_neq. destruct l as [|x l']; [done|].
    destruct Hc as (Hb & ? & _). unfold ledger in *. lia. }
  destruct (extend_heap st last (align size)) as [st0 b] eqn:He.
  assert (Hb : b = Z.pos a).
  { unfold extend_heap, mmap in He. apply Z.eqb_neq in Hal.
    rewrite Hal, Hans in He. by injection He as <- <-. }
  subst b.
  destruct (extend_heap_effect st st0 last (align size) (Z.pos a) He)
    as (_ & Hsize & Hnext & Hprev & Hptr & Hfree & Hlink & Hbase0 & _ & _ & _
        & Hframe); [lia | lia | lia | lia | right; apply Hfar, Hlin |].
  assert (Hbytes : ∀ x n off, x ∈ l → (x ≠ last ∨ off + Z.of_nat n <= 8
                                        ∨ 16 <= off) →
            0 <= off → off + Z.of_nat n <= 40 →
            load_le n (mem st0) (x + off) = load_le n (mem st) (x + off)).
  { intros x n off Hx Hcase Hoff Hn. apply load_le_ext. intros i Hi.
    apply Hframe.
    - destruct (Hfar x Hx); lia.
    - right. destruct (decide (x = last)) as [->|Hxl].
      + destruct Hcase as [?|?]; [done | lia].
      + destruct (spaced_apart l x last Hsp Hx Hlin Hxl); lia. }
  set (st' := with_malloc_call
                (if malloc_call st0 =? 0
                 then log_handler st0 "malloc" ALLOC_TYPE_MALLOC
                        (data_of (Z.pos a)) size
                 else st0) 0).
  assert (Hmem' : mem st' = mem st0)
    by (subst st'; destruct (malloc_call st0 =? 0); reflexivity).
  assert (Hbase' : base st' = base st)
    by (subst st'; destruct (malloc_call st0 =? 0); exact Hbase0).
  assert (Hled : ledger st' (l ++ [Z.pos a])).
  { unfold ledger. rewrite Hmem', Hbase'.
    apply (chain_append (mem st)); try done.
    - intros x Hx Hxl. unfold next_of, load64.
      apply (Hbytes x 8%nat 8); [done | left; by rewrite Hlast | lia | simpl; lia].
    - rewrite <- Hlast. apply Hlink. lia. }
  exists st'. split.
  { unfold my_malloc. rewrite Hb0. cbn [negb]. rewrite Hfind.
    cbn [mbind option_bind Z.eqb negb]. rewrite He.
    replace (Z.pos a =? 0) with false by done. done. }
  split; [done|]. split; [done|].
  split.
  { intros x Hx. rewrite Hmem'. split.
    - unfold size_of, load64. rewrite <- (Z.add_0_r x).
      apply (Hbytes x 8%nat 0); [done | right; left; simpl; lia | lia | simpl; lia].
    - unfold is_free, free_of, load32. f_equal. f_equal.
      apply (Hbytes x 4%nat 24); [done | right; right; lia | lia | simpl; lia]. }
  rewrite Hmem'. split; [done|]. split; [done|]. split; [done|].
  rewrite (valid_addr_resolves fuel st' (l ++ [Z.pos a]) _ Hled)
    by (rewrite length_app; simpl; lia).
  unfold resolves.
  replace (get_block (data_of (Z.pos a))) with (Z.pos a)
    by (unfold get_block, data_of, BLOCK_SIZE; lia).
  replace (data_of (Z.pos a) =? 0) with false
    by (symmetry; apply Z.eqb_neq; unfold data_of; lia).
  rewrite bool_decide_eq_true_2
    by (apply elem_of_app; right; apply elem_of_cons; by left).
  by rewrite Hmem', Hptr, Z.eqb_refl.
Qed.

Lemma my_malloc_miss_appends_at_tail_witness :
  let st := state_after three_regions [Malloc 8; Malloc 64] in
  ∃ st', my_malloc 16 st 100 = Some (st', 196648)
         ∧ ledger st' [65536; 131072; 196608].
Proof.
  intros st.
  destruct (my_malloc_miss_appends_at_tail 16 st [65536; 131072] 100 131072
              region_c []) as (st' & Hm & _ & Hl & _).
  - vm_compute. repeat split; reflexivity.
  - done.
  - simpl. lia.
  - simpl. repeat split; repeat constructor; lia.
  - left. vm_compute. reflexivity.
  - vm_compute. reflexivity.
  - vm_compute. reflexivity.
  - vm_compute. discriminate.
  - vm_compute. reflexivity.
  - vm_compute. reflexivity.
  - repeat constructor; unfold region_c; lia.
  - exists st'. split; [exact Hm | exact Hl].
Defined.

Section Fusion.

Implicit Types (m : gmap Z Z) (l : list Z).

Lemma absorbed_ext m m' l :
  (∀ x, x ∈ l → is_free m' x = is_free m x) → absorbed m' l = absorbed m l.
Proof.
  induction l as [|x l IH]; intros H; [done|].
  destruct l as [|y l']; [done|].
  cbn [absorbed]. rewrite (H x) by (apply elem_of_cons; by left).
  destruct (is_free m x); [|done]. f_equal. apply IH.
  intros z Hz. apply H. apply elem_of_cons. by right.
Qed.

Lemma absorbed_sublist m l x : x ∈ absorbed m l → x ∈ l.
Proof.
  revert x. induction l as [|y l IH]; intros x Hx; [by apply elem_of_nil in Hx|].
  destruct l as [|z l']; [by apply elem_of_nil in Hx|].
  cbn [absorbed] in Hx. destruct (is_free m y); [|by apply elem_of_nil in Hx].
  apply elem_of_cons in Hx as [->|Hx]; [apply elem_of_cons; by left|].
  apply elem_of_cons. right. by apply IH.
Qed.

Lemma total_size_ext m m' l :
  (∀ x, x ∈ l → size_of m' x = size_of m x) → total_size m' l = total_size m l.
Proof.
  unfold total_size. induction l as [|x l IH]; intros H; [done|].
  simpl. rewrite (H x) by (apply elem_of_cons; by left). f_equal.
  apply IH. intros z Hz. apply H. apply elem_of_cons. by right.
Qed.

Lemma fusion_nothing_to_merge m (b : Z) l :
  chain m b (b :: l) → absorbed m l = [] →
  chain m b (b :: drop (length (absorbed m l)) l)
  ∧ size_of m b = wrap64 (size_of m b + total_size m (absorbed m l))
  ∧ is_free m b = is_free m b
  ∧ (∀ x, x ∈ l → size_of m x = size_of m x ∧ is_free m x = is_free m x
                   ∧ next_of m x = next_of m x)
  ∧ (absorbed m l = [] → m = m)
  ∧ ∀ i, (∀ x, x ∈ b :: l → i < x ∨ x + 40 <= i) → load8 m i = load8 m i.
Proof.
  intros Hc Hab. rewrite Hab. change (total_size m []) with 0.
  rewrite Z.add_0_r. change (drop (length []) l) with l.
  split; [exact Hc|]. split; [|done].
  unfold wrap64. symmetry. apply Z.mod_small.
  split; [apply size_of_nonneg | apply size_of_bound].
Qed.

Lemma fusion_loop_run (fuel : nat) m (b : Z) l :
  chain m b (b :: l) → spaced (b :: l) → (length l < fuel)%nat →
  ∃ m', fusion_loop fuel m b = Some m'
    ∧ chain m' b (b :: drop (length (absorbed m l)) l)
    ∧ size_of m' b = wrap64 (size_of m b + total_size m (absorbed m l))
    ∧ is_free m' b = is_free m b
    ∧ (∀ x, x ∈ l → size_of m' x = size_of m x
                     ∧ is_free m' x = is_free m x
                     ∧ next_of m' x = next_of m x)
    ∧ (absorbed m l = [] → m' = m)
    ∧ ∀ i, (∀ x, x ∈ b :: l → i < x ∨ x + 40 <= i) → load8 m' i = load8 m i.
Proof.
  revert m fuel. induction l as [|y l IH]; intros m fuel Hc Hsp Hf;
    (destruct fuel as [|k]; [cbn [length] in Hf; lia|]).
  - pose proof Hc as (_ & Hb & Hn). simpl in Hn.
    cbn [fusion_loop]. rewrite Hn. cbn [Z.eqb negb andb].
    exists m. split; [done|]. by apply fusion_nothing_to_merge.
  - pose proof Hc as Hc0. destruct Hc as (_ & Hb & Hy & Hy0 & Hc).
    assert (Hstay : absorbed m (y :: l) = [] →
              ∃ m', Some m = Some m'
                ∧ chain m' b (b :: drop (length (absorbed m (y :: l))) (y :: l))
                ∧ size_of m' b
                  = wrap64 (size_of m b + total_size m (absorbed m (y :: l)))
                ∧ is_free m' b = is_free m b
                ∧ (∀ x, x ∈ y :: l → size_of m' x = size_of m x
                                      ∧ is_free m' x = is_free m x
                                      ∧ next_of m' x = next_of m x)
                ∧ (absorbed m (y :: l) = [] → m' = m)
                ∧ ∀ i, (∀ x, x ∈ b :: y :: l → i < x ∨ x + 40 <= i) →
                       load8 m' i = load8 m i).
    { intros Hab. exists m. split; [done|]. by apply fusion_nothing_to_merge. }
    cbn [fusion_loop]. rewrite Hy.
    replace (y =? 0) with false by (symmetry; apply Z.eqb_neq; lia).
    cbn [negb andb orb].
    destruct (is_free m y) eqn:Efree.
    2:{ apply Hstay. destruct l; cbn [absorbed]; by rewrite ?Efree. }
    destruct l as [|z l'].
    { simpl in Hc. rewrite Hc. cbn [Z.eqb]. by apply Hstay. }
    destruct Hc as (Hz & Hz0 & Hc).
    rewrite Hz. replace (z =? 0) with false by (symmetry; apply Z.eqb_neq; lia).
    destruct Hsp as (Hfb & Hfy & Hsp'). rewrite Forall_forall in Hfb, Hfy.
    assert (Hby : b + 40 <= y ∨ y + 40 <= b)
      by (apply Hfb, elem_of_cons; by left).
    assert (Hbz : b + 40 <= z ∨ z + 40 <= b)
      by (apply Hfb, elem_of_cons; right; apply elem_of_cons; by left).
    assert (Hzb : z < 2 ^ 64) by (rewrite <- Hz; apply (load_le_bound 8)).
    set (s' := wrap64 (size_of m b + size_of m y)).
    set (m1 := set_size m b s').
    assert (Hn1b : next_of m1 b = y).
    { rewrite <- Hy. subst m1. clear. read_fields. done. }
    assert (Hn1y : next_of m1 y = z).
    { rewrite <- Hz. subst m1. clear -Hby. read_fields. done. }
    rewrite Hn1b, Hn1y.
    set (m2 := set_next m1 b z).
    assert (Hn2b : next_of m2 b = z).
    { subst m2. clear -Hz0 Hzb. read_fields. apply mod64_small. lia. }
    rewrite Hn2b. replace (z =? 0) with false by (symmetry; apply Z.eqb_neq; lia).
    cbn [negb].
    set (m3 := set_prev m2 z b).
    assert (Hkeep : ∀ x, x ∈ z :: l' →
              size_of m3 x = size_of m x ∧ is_free m3 x = is_free m x
              ∧ next_of m3 x = next_of m x).
    { intros x Hx.
      assert (Hxb : b + 40 <= x ∨ x + 40 <= b)
        by (apply Hfb, elem_of_cons; by right).
      assert (Hxz : x = z ∨ x + 40 <= z ∨ z + 40 <= x).
      { destruct (decide (x = z)) as [|Hne]; [by left|]. right.
        apply (spaced_apart (z :: l')); try done.
        apply elem_of_cons. by left. }
      subst m3 m2 m1. clear -Hxb Hxz. unfold is_free.
      repeat split; read_fields; done. }
    assert (Hsize3 : size_of m3 b = s').
    { subst m3 m2 m1. clear -Hbz. read_fields. apply mod64_small.
      subst s'. unfold wrap64. apply Z.mod_pos_bound. lia. }
    assert (Hfree3 : is_free m3 b = is_free m b).
    { subst m3 m2 m1. clear -Hbz. unfold is_free. read_fields. done. }
    assert (Hn3b : next_of m3 b = z).
    { rewrite <- Hn2b. subst m3. clear -Hbz. read_fields. done. }
    assert (Hc3 : chain m3 b (b :: z :: l')).
    { split; [done|]. split; [done|]. rewrite Hn3b.
      apply (chain_ext m); [by repeat split|]. intros x Hx. by apply Hkeep. }
    assert (Hsp3 : spaced (b :: z :: l')).
    { split; [|done]. apply Forall_forall. intros x Hx.
      apply Hfb. apply elem_of_cons. by right. }
    destruct (IH m3 k Hc3 Hsp3) as (m' & Hrun & Hc' & Hs' & Hf' & Hk' & _ & Hfr');
      [cbn [length] in *; lia|].
    assert (Hab3 : absorbed m3 (z :: l') = absorbed m (z :: l')).
    { apply absorbed_ext. intros x Hx. by apply Hkeep. }
    exists m'. split; [exact Hrun|].
    assert (Habs : absorbed m (y :: z :: l') = y :: absorbed m (z :: l'))
      by (cbn [absorbed]; by rewrite Efree).
    rewrite Habs. cbn [length drop]. rewrite <- Hab3.
    split; [exact Hc'|].
    split.
    { rewrite Hs', Hsize3, Hab3. subst s'. unfold total_size. cbn [map foldr].
      fold (total_size m3 (absorbed m (z :: l'))).
      fold (total_size m (absorbed m (z :: l'))).
      rewrite (total_size_ext m m3).
      - unfold wrap64. rewrite Zplus_mod_idemp_l. f_equal. lia.
      - intros x Hx. apply Hkeep. by apply absorbed_sublist in Hx. }
    split; [by rewrite Hf'|].
    assert (Hm3 : ∀ i, (i < b ∨ b + 16 <= i) → (i < z + 16 ∨ z + 24 <= i) →
              load8 m3 i = load8 m i).
    { intros i Hib Hiz. subst m3 m2 m1. clear -Hib Hiz.
      unfold set_prev, set_next, set_size, store64.
      rewrite !load8_store_le_out by (simpl; lia). done. }
    assert (Hout : ∀ i, (∀ x, x ∈ b :: z :: l' → i < x ∨ x + 40 <= i) →
              load8 m' i = load8 m i).
    { intros i Hi. rewrite Hfr' by done. apply Hm3.
      - destruct (Hi b); [apply elem_of_cons; by left | lia..].
      - destruct (Hi z); [apply elem_of_cons; right; apply elem_of_cons; by left
                         | lia..]. }
    split.
    { intros x Hx. apply elem_of_cons in Hx as [->|Hx].
      - assert (Hhdr : ∀ n off, 0 <= off → off + Z.of_nat n <= 40 →
                  load_le n m' (y + off) = load_le n m (y + off)).
        { intros n off Hoff Hn. apply load_le_ext. intros i Hi. apply Hout.
          intros w Hw. apply elem_of_cons in Hw as [->|Hw]; [lia|].
          destruct (Hfy w Hw); lia. }
        unfold is_free, size_of, next_of, free_of, load64, load32.
        rewrite <- (Z.add_0_r y) at 1 2.
        rewrite (Hhdr 8%nat 0), (Hhdr 4%nat 24), (Hhdr 8%nat 8)
          by (simpl; lia).
        by rewrite Z.add_0_r.
      - destruct (Hk' x Hx) as (-> & -> & ->). by apply Hkeep. }
    split; [done|].
    intros i Hi. apply Hout. intros x Hx. apply Hi.
    apply elem_of_cons in Hx as [->|Hx]; [apply elem_of_cons; by left|].
    apply elem_of_cons. right. apply elem_of_cons. by right.
Qed.

End Fusion.

Section Release.

Implicit Types (m : gmap Z Z) (l : list Z).

Lemma spaced_app_r l1 l2 : spaced (l1 ++ l2) → spaced l2.
Proof. induction l1 as [|x l1 IH]; [done|]. intros [_ H]. by apply IH. Qed.

Lemma spaced_app_apart l1 l2 (x y : Z) :
  spaced (l1 ++ l2) → x ∈ l1 → y ∈ l2 → x + 40 <= y ∨ y + 40 <= x.
Proof.
  induction l1 as [|z l1 IH]; intros Hs Hx Hy; [by apply elem_of_nil in Hx|].
  destruct Hs as [Hz Hs]. rewrite Forall_forall in Hz.
  apply elem_of_cons in Hx as [->|Hx]; [|by apply IH].
  apply Hz. apply elem_of_app. by right.
Qed.

Lemma chain_suffix m (a b : Z) l1 l2 :
  chain m a (l1 ++ b :: l2) → chain m b (b :: l2).
Proof.
  revert a. induction l1 as [|x l1 IH]; intros a Hc.
  - destruct Hc as (-> & Hc). by split.
  - destruct Hc as (_ & _ & Hc). by apply (IH (next_of m x)).
Qed.

Lemma chain_replace_suffix m m' (a b : Z) l1 l2 l2' :
  chain m a (l1 ++ b :: l2) →
  (∀ x, x ∈ l1 → next_of m' x = next_of m x) →
  chain m' b (b :: l2') → chain m' a (l1 ++ b :: l2').
Proof.
  revert a. induction l1 as [|x l1 IH]; intros a Hc Hk Hc'.
  - destruct Hc as (-> & _). exact Hc'.
  - destruct Hc as (-> & Hx & Hc). split; [done|]. split; [done|].
    rewrite Hk by (apply elem_of_cons; by left).
    apply IH; [done | | done].
    intros y Hy. apply Hk. apply elem_of_cons. by right.
Qed.

Lemma chain_truncate m m' (a x : Z) l1 l2 :
  chain m a (l1 ++ x :: l2) →
  (∀ y, y ∈ l1 → next_of m' y = next_of m y) →
  next_of m' x = 0 → chain m' a (l1 ++ [x]).
Proof.
  revert a. induction l1 as [|z l1 IH]; intros a Hc Hk Hx.
  - destruct Hc as (-> & Hpos & _). by repeat split.
  - destruct Hc as (-> & Hz & Hc). split; [done|]. split; [done|].
    rewrite Hk by (apply elem_of_cons; by left).
    apply IH; [done | | done].
    intros y Hy. apply Hk. apply elem_of_cons. by right.
Qed.

Lemma absorbed_shorter m l : l ≠ [] → (length (absorbed m l) < length l)%nat.
Proof.
  induction l as [|x l IH]; [done|]. intros _.
  destruct l as [|y l']; [simpl; lia|].
  change (absorbed m (x :: y :: l'))
    with (if is_free m x then x :: absorbed m (y :: l') else []).
  specialize (IH ltac:(done)).
  destruct (is_free m x); cbn [length] in *; lia.
Qed.

End Release.

(** X18.  fusion(NULL) does nothing.  On a block followed by the blocks
    [l] of a ledger whose headers do not overlap, fusion merges into the
    block the leading free blocks of [l], the last block of [l] excepted
    (a free tail is never absorbed): the size of the block grows by the sum
    of their sizes, modulo 2^64 and without their headers, the first block
    not absorbed becomes its successor, and the size, free flag and next
    link of every block of [l], its own free flag and all bytes outside the
    headers are unchanged. *)
Theorem fusion_merges_free_run_without_headers
    (fuel : nat) (m : gmap Z Z) (b : Z) (l : list Z) :
  fusion fuel m 0 = Some m
  ∧ (chain m b (b :: l) → spaced (b :: l) → (length l < fuel)%nat →
     ∃ m', fusion fuel m b = Some m'
       ∧ chain m' b (b :: drop (length (absorbed m l)) l)
       ∧ size_of m' b = wrap64 (size_of m b + total_size m (absorbed m l))
       ∧ is_free m' b = is_free m b
       ∧ (∀ x, x ∈ l → size_of m' x = size_of m x
                        ∧ is_free m' x = is_free m x
                        ∧ next_of m' x = next_of m x)
       ∧ (absorbed m l = [] → m' = m)
       ∧ ∀ i, (∀ x, x ∈ b :: l → i < x ∨ x + 40 <= i) →
              load8 m' i = load8 m i).
Proof.
  split; [done|]. intros Hc Hsp Hf. unfold fusion.
  destruct Hc as (? & Hb & ?) eqn:E. clear E.
  replace (b =? 0) with false by (symmetry; apply Z.eqb_neq; lia).
  apply fusion_loop_run; [by repeat split | done | done].
Qed.

Lemma fusion_merges_free_run_without_headers_witness :
  let st := state_after
              [Some 65536%positive; Some 131072%positive;
               Some 196608%positive; Some 262144%positive]
              [Malloc 8; Malloc 16; Malloc 24; Malloc 8; Free 1; Free 2] in
  ∃ m', fusion 16 (mem st) 65536 = Some m' ∧ size_of m' 65536 = 48.
Proof.
  intros st.
  destruct (fusion_merges_free_run_without_headers 16 (mem st) 65536
              [131072; 196608; 262144]) as [_ H].
  destruct H as (m' & Hm & _ & Hs & _).
  - vm_compute. repeat split; reflexivity.
  - simpl. repeat split; repeat constructor; lia.
  - simpl. lia.
  - exists m'. split; [exact Hm|]. rewrite Hs. vm_compute. reflexivity.
Defined.

Lemma set_free_keeps (m : gmap Z Z) (b v x : Z) :
  x = b ∨ x + 40 <= b ∨ b + 40 <= x →
  size_of (set_free m b v) x = size_of m x
  ∧ next_of (set_free m b v) x = next_of m x
  ∧ prev_of (set_free m b v) x = prev_of m x
  ∧ ptr_of (set_free m b v) x = ptr_of m x
  ∧ (x ≠ b → is_free (set_free m b v) x = is_free m x).
Proof.
  intros Hx. repeat split; try (read_fields; done).
  intros Hne. unfold is_free. read_fields. done.
Qed.

Lemma resolves_in (st : state) (l : list Z) (p : Z) :
  resolves st l p = true →
  p ≠ 0 ∧ get_block p ∈ l ∧ ptr_of (mem st) (get_block p) = p.
Proof.
  unfold resolves. intros H.
  apply andb_true_iff in H as [H Hp]. apply andb_true_iff in H as [H0 Hin].
  apply Z.eqb_eq in Hp. apply bool_decide_eq_true_1 in Hin.
  apply negb_true_iff, Z.eqb_neq in H0. done.
Qed.

(** X19.  my_free of an address that resolves to a block which is not the
    tail of a ledger with non-overlapping headers marks the block free and
    merges forward only: the blocks in front of it keep their place, size
    and flag (a free predecessor is not merged), the leading free blocks
    behind it, a free tail excepted, are absorbed with their sizes but not
    their headers, and the rest of the ledger follows.  No system call is
    made; one "free" record is written. *)
Theorem my_free_merges_forward_only
    (fuel : nat) (st : state) (l1 l2 : list Z) (b : Z) :
  ledger st (l1 ++ b :: l2) → spaced (l1 ++ b :: l2) →
  (length (l1 ++ b :: l2) < fuel)%nat →
  ptr_of (mem st) b = data_of b → l2 ≠ [] →
  ∃ st', my_free fuel st (data_of b) = Some st'
    ∧ ledger st' (l1 ++ b :: drop (length (absorbed (mem st) l2)) l2)
    ∧ is_free (mem st') b = true
    ∧ size_of (mem st') b
      = wrap64 (size_of (mem st) b + total_size (mem st) (absorbed (mem st) l2))
    ∧ (∀ x, x ∈ l1 ++ l2 → size_of (mem st') x = size_of (mem st) x
                            ∧ is_free (mem st') x = is_free (mem st) x)
    ∧ base st' = base st
    ∧ trace st' = trace st ++ [EvLog "free" ALLOC_TYPE_FREE (data_of b) 0].
Proof.
  intros Hc Hsp Hf Hptr Hl2.
  assert (Hbin : b ∈ l1 ++ b :: l2)
    by (apply elem_of_app; right; apply elem_of_cons; by left).
  pose proof (chain_positive _ _ _ _ Hc Hbin) as Hbpos.
  assert (Hblock : get_block (data_of b) = b)
    by (unfold get_block, data_of, BLOCK_SIZE; lia).
  assert (Hvalid : valid_addr fuel st (data_of b) = Some 1).
  { rewrite (valid_addr_resolves fuel st _ _ Hc Hf). unfold resolves.
    rewrite Hblock, Hptr, Z.eqb_refl, bool_decide_eq_true_2 by done.
    replace (data_of b =? 0) with false
      by (symmetry; apply Z.eqb_neq; unfold data_of; lia).
    done. }
  set (m := mem st) in *. set (m1 := set_free m b 1).
  assert (Hapart : ∀ x, x ∈ l1 ++ b :: l2 →
            x = b ∨ x + 40 <= b ∨ b + 40 <= x).
  { intros x Hx. destruct (decide (x = b)) as [|Hne]; [by left|]. right.
    by apply (spaced_apart (l1 ++ b :: l2)). }
  assert (Hm1 : ∀ x, x ∈ l1 ++ b :: l2 →
            size_of m1 x = size_of m x ∧ next_of m1 x = next_of m x
            ∧ (x ≠ b → is_free m1 x = is_free m x)).
  { intros x Hx.
    destruct (set_free_keeps m b 1 x (Hapart x Hx)) as (? & ? & _ & _ & ?).
    done. }
  assert (Hl2in : ∀ x, x ∈ l2 → x ∈ l1 ++ b :: l2 ∧ x ≠ b).
  { intros x Hx. split.
    - apply elem_of_app. right. apply elem_of_cons. by right.
    - apply spaced_app_r in Hsp. destruct Hsp as [Hfb _].
      rewrite Forall_forall in Hfb. destruct (Hfb x Hx); lia. }
  assert (Hl1in : ∀ x, x ∈ l1 → x ∈ l1 ++ b :: l2 ∧ (x + 40 <= b ∨ b + 40 <= x)).
  { intros x Hx. split; [apply elem_of_app; by left|].
    apply (spaced_app_apart l1 (b :: l2)); [done | done |].
    apply elem_of_cons. by left. }
  assert (Hc1 : chain m1 (base st) (l1 ++ b :: l2)).
  { apply (chain_ext m); [done|]. intros x Hx. by apply Hm1. }
  pose proof (chain_suffix _ _ _ _ _ Hc1) as Hsub.
  destruct (fusion_loop_run fuel m1 b l2 Hsub (spaced_app_r _ _ Hsp))
    as (m2 & Hrun & Hc2 & Hs2 & Hf2 & Hk2 & _ & Hfr2).
  { rewrite length_app in Hf. cbn [length] in Hf. lia. }
  assert (Hab : absorbed m1 l2 = absorbed m l2).
  { apply absorbed_ext. intros x Hx. destruct (Hl2in x Hx) as [Hin Hne].
    by apply Hm1. }
  rewrite Hab in Hc2, Hs2.
  assert (Hnext2 : next_of m2 b ≠ 0).
  { pose proof (absorbed_shorter m l2 Hl2) as Hlen.
    destruct (drop (length (absorbed m l2)) l2) as [|z rest] eqn:Ed.
    - apply (f_equal length) in Ed. rewrite length_drop in Ed.
      cbn [length] in Ed. lia.
    - destruct Hc2 as (_ & _ & Hz & Hz0 & _). lia. }
  assert (Hl1keep : ∀ x n off, x ∈ l1 → 0 <= off → off + Z.of_nat n <= 40 →
            load_le n m2 (x + off) = load_le n m1 (x + off)).
  { intros x n off Hx Hoff Hn. apply load_le_ext. intros i Hi. apply Hfr2.
    intros w Hw.
    pose proof (spaced_app_apart l1 (b :: l2) x w Hsp Hx Hw). lia. }
  exists (log_handler (with_mem st m2) "free" ALLOC_TYPE_FREE (data_of b) 0).
  split.
  { unfold my_free. rewrite Hvalid. cbn [mbind option_bind Z.eqb negb].
    rewrite Hblock. fold m m1. unfold fusion.
    replace (b =? 0) with false by (symmetry; apply Z.eqb_neq; lia).
    rewrite Hrun. cbn [mbind option_bind].
    apply Z.eqb_neq in Hnext2. rewrite Hnext2. done. }
  cbn [mem base trace log_handler emit with_mem].
  split.
  { unfold ledger. cbn [mem base log_handler emit with_mem].
    apply (chain_replace_suffix m1 m2 _ _ _ l2); [done | | done].
    intros x Hx. unfold next_of, load64.
    apply (Hl1keep x 8%nat 8 Hx); simpl; lia. }
  split.
  { rewrite Hf2. subst m1. unfold is_free. clear. read_fields. done. }
  split.
  { rewrite Hs2. f_equal. f_equal.
    - by apply Hm1.
    - apply total_size_ext. intros x Hx. apply absorbed_sublist in Hx.
      destruct (Hl2in x Hx) as [Hin _]. by apply Hm1. }
  split; [|done].
  intros x Hx. apply elem_of_app in Hx as [Hx|Hx].
  - destruct (Hl1in x Hx) as [Hin Hap].
    destruct (Hm1 x Hin) as (Hs & _ & Hfl). split.
    + rewrite <- Hs. unfold size_of, load64. rewrite <- (Z.add_0_r x).
      apply (Hl1keep x 8%nat 0 Hx); simpl; lia.
    + rewrite <- Hfl by lia. unfold is_free, free_of, load32. do 2 f_equal.
      apply (Hl1keep x 4%nat 24 Hx); simpl; lia.
  - destruct (Hl2in x Hx) as [Hin Hne]. destruct (Hk2 x Hx) as (-> & -> & _).
    destruct (Hm1 x Hin) as (Hs & _ & Hfl). split; [done | by apply Hfl].
Qed.

Lemma my_free_merges_forward_only_witness :
  let st := state_after three_regions [Malloc 8; Malloc 8; Malloc 8; Free 0] in
  ∃ st', my_free 16 st 131112 = Some st'
         ∧ ledger st' [65536; 131072; 196608]
         ∧ is_free (mem st') 65536 = true ∧ is_free (mem st') 131072 = true.
Proof.
  intros st.
  destruct (my_free_merges_forward_only 16 st [65536] [196608] 131072)
    as (st' & Hf & Hl & Hb & _ & Hk & _).
  - vm_compute. repeat split; reflexivity.
  - simpl. repeat split; repeat constructor; lia.
  - simpl. lia.
  - vm_compute. reflexivity.
  - done.
  - exists st'. split; [exact Hf|].
    assert (Ha : absorbed (mem st) [196608] = []) by reflexivity.
    rewrite Ha in Hl. split; [exact Hl|]. split; [|exact Hb].
    destruct (Hk 65536) as [_ Hfree]; [apply elem_of_cons; by left|].
    rewrite Hfree. vm_compute. reflexivity.
Defined.

(** X20.  my_free of an address that resolves to the tail block of a
    ledger with non-overlapping headers trusts the prev link of that block.
    When the link is NULL the anchor is set to NULL and the whole ledger is
    dropped, whatever blocks were in front of the tail.  When the link
    names a block [x] of the ledger, the next link of [x] is cleared: the
    ledger is cut right behind [x], so every block between [x] and the tail
    is dropped with the tail.  In both cases the only system call is
    [brk(tail + size of tail)]. *)
Theorem my_free_of_tail_cuts_at_prev
    (fuel : nat) (st : state) (l1 : list Z) (b : Z) :
  ledger st (l1 ++ [b]) → spaced (l1 ++ [b]) →
  (length (l1 ++ [b]) < fuel)%nat →
  ptr_of (mem st) b = data_of b →
  (prev_of (mem st) b = 0 →
   ∃ st', my_free fuel st (data_of b) = Some st'
     ∧ base st' = 0
     ∧ trace st' = trace st ++ [EvBrk (b + size_of (mem st) b);
                                EvLog "free" ALLOC_TYPE_FREE (data_of b) 0])
  ∧ (∀ la x lb, l1 = la ++ x :: lb → prev_of (mem st) b = x →
     ∃ st', my_free fuel st (data_of b) = Some st'
       ∧ ledger st' (la ++ [x])
       ∧ (∀ y, y ∈ la ++ [x] → size_of (mem st') y = size_of (mem st) y
                                ∧ is_free (mem st') y = is_free (mem st) y)
       ∧ trace st' = trace st ++ [EvBrk (b + size_of (mem st) b);
                                  EvLog "free" ALLOC_TYPE_FREE (data_of b) 0]).
Proof.
  intros Hc Hsp Hf Hptr.
  assert (Hbin : b ∈ l1 ++ [b])
    by (apply elem_of_app; right; apply elem_of_cons; by left).
  pose proof (chain_positive _ _ _ _ Hc Hbin) as Hbpos.
  assert (Hblock : get_block (data_of b) = b)
    by (unfold get_block, data_of, BLOCK_SIZE; lia).
  assert (Hvalid : valid_addr fuel st (data_of b) = Some 1).
  { rewrite (valid_addr_resolves fuel st _ _ Hc Hf). unfold resolves.
    rewrite Hblock, Hptr, Z.eqb_refl, bool_decide_eq_true_2 by done.
    replace (data_of b =? 0) with false
      by (symmetry; apply Z.eqb_neq; unfold data_of; lia).
    done. }
  set (m := mem st) in *. set (m1 := set_free m b 1).
  assert (Hnext : next_of m b = 0).
  { pose proof (chain_suffix _ _ _ _ _ Hc) as (_ & _ & Hn). exact Hn. }
  destruct (set_free_keeps m b 1 b) as (Hs1 & Hn1 & Hp1 & _); [by left|].
  fold m1 in Hs1, Hn1, Hp1. rewrite Hnext in Hn1.
  assert (Hfus : fusion fuel m1 b = Some m1).
  { unfold fusion.
    replace (b =? 0) with false by (symmetry; apply Z.eqb_neq; lia).
    destruct fuel as [|k]; [lia|]. cbn [fusion_loop]. by rewrite Hn1. }
  assert (Hstart : my_free fuel st (data_of b)
            = Some (log_handler
                 (let st2 := with_mem st m1 in
                  let st' := if prev_of m1 b =? 0 then with_base st2 0
                             else with_mem st2 (set_next m1 (prev_of m1 b) 0) in
                  emit st' (EvBrk (b + size_of (mem st') b)))
                 "free" ALLOC_TYPE_FREE (data_of b) 0)).
  { unfold my_free. rewrite Hvalid. cbn [mbind option_bind Z.eqb negb].
    rewrite Hblock. fold m m1. rewrite Hfus. cbn [mbind option_bind].
    by rewrite Hn1. }
  split.
  - intros Hprev. eexists. split; [exact Hstart|].
    rewrite Hp1, Hprev. cbn [Z.eqb]. cbv zeta.
    cbn [base mem trace log_handler emit with_base with_mem].
    rewrite Hs1. split; [done|]. by rewrite <- app_assoc.
  - intros la x lb -> Hprev.
    assert (Hxin : x ∈ (la ++ x :: lb) ++ [b]).
    { apply elem_of_app. left. apply elem_of_app. right.
      apply elem_of_cons. by left. }
    pose proof (chain_positive _ _ _ _ Hc Hxin) as Hxpos.
    assert (Hxb : x + 40 <= b ∨ b + 40 <= x).
    { apply (spaced_app_apart (la ++ x :: lb) [b]); [done | |
        apply elem_of_cons; by left].
      apply elem_of_app. right. apply elem_of_cons. by left. }
    eexists. split; [exact Hstart|].
    rewrite Hp1, Hprev.
    replace (x =? 0) with false by (symmetry; apply Z.eqb_neq; lia).
    cbv zeta. cbn [base mem trace log_handler emit with_base with_mem].
    set (m' := set_next m1 x 0).
    assert (Hkeep : ∀ y, y ∈ la ++ [x] →
              (y = x ∨ y + 40 <= x ∨ x + 40 <= y)
              ∧ (y + 40 <= b ∨ b + 40 <= y)).
    { intros y Hy. rewrite <- app_assoc in Hsp. cbn [app] in Hsp.
      apply elem_of_app in Hy as [Hy|Hy].
      - split.
        + right. apply (spaced_app_apart la (x :: lb ++ [b])); [done..|].
          apply elem_of_cons. by left.
        + apply (spaced_app_apart la (x :: lb ++ [b])); [done..|].
          apply elem_of_cons. right. apply elem_of_app. right.
          apply elem_of_cons. by left.
      - apply elem_of_cons in Hy as [->|Hy]; [|by apply elem_of_nil in Hy].
        split; [by left | done]. }
    split.
    { unfold ledger. cbn [mem base log_handler emit with_mem].
      rewrite <- app_assoc in Hc. cbn [app] in Hc.
      apply (chain_truncate m m' _ _ _ (lb ++ [b])); [exact Hc | |].
      - intros y Hy.
        destruct (Hkeep y) as [Hyx Hyb]; [apply elem_of_app; by left|].
        assert (y ≠ x).
        { intros ->. rewrite <- app_assoc in Hsp. cbn [app] in Hsp.
          pose proof (spaced_app_apart la (x :: lb ++ [b]) x x Hsp Hy
                        ltac:(apply elem_of_cons; by left)). lia. }
        subst m' m1. clear -Hyx Hyb H. read_fields. done.
      - subst m' m1. clear. read_fields. done. }
    split.
    { intros y Hy. destruct (Hkeep y Hy) as [Hyx Hyb].
      subst m' m1. clear -Hyx Hyb. unfold is_free.
      split; read_fields; done. }
    assert (Hsz : size_of m' b = size_of m b).
    { subst m' m1. clear -Hxb. read_fields. done. }
    rewrite Hsz. by rewrite <- app_assoc.
Qed.

Lemma my_free_of_tail_cuts_at_prev_witness :
  let st := state_after three_regions [Malloc 4096; Malloc 8; Free 0; Malloc 8] in
  ∃ st', my_free 16 st 131112 = Some st' ∧ ledger st' [65536].
Proof.
  intros st.
  destruct (my_free_of_tail_cuts_at_prev 16 st [65536; 65584] 131072)
    as [_ H].
  - vm_compute. repeat split; reflexivity.
  - simpl. repeat split; repeat constructor; lia.
  - simpl. lia.
  - vm_compute. reflexivity.
  - destruct (H [] 65536 [65584]) as (st' & Hf & Hl & _).
    + reflexivity.
    + vm_compute. reflexivity.
    + exists st'. split; [exact Hf | exact Hl].
Defined.




Section Copy.

Implicit Types (m : gmap Z Z) (n : nat).

Lemma load8_store_le_in n m (a0 v a : Z) :
  a0 <= a < a0 + Z.of_nat n →
  load8 (store_le n m a0 v) a = (v / 256 ^ (a - a0)) mod 256.
Proof.
  revert m a0 v. induction n as [|k IH]; intros m a0 v Hin;
    [simpl in Hin; lia|].
  cbn [store_le]. destruct (decide (a = a0)) as [->|Hne].
  - rewrite load8_store_le_out by lia. rewrite load8_insert_eq.
    rewrite Z.sub_diag. change (256 ^ 0) with 1. rewrite Z.div_1_r.
    apply Zmod_mod.
  - rewrite IH by lia.
    replace (a - a0) with (Z.succ (a - (a0 + 1))) by lia.
    rewrite Z.pow_succ_r by lia. rewrite Z.div_div by lia. done.
Qed.

Lemma load_le_byte n m (src j : Z) :
  0 <= j < Z.of_nat n →
  (load_le n m src / 256 ^ j) mod 256 = load8 m (src + j).
Proof.
  revert src j. induction n as [|k IH]; intros src j Hj; [simpl in Hj; lia|].
  cbn [load_le]. pose proof (load8_range m src) as Hr.
  destruct (decide (j = 0)) as [->|Hne].
  - change (256 ^ 0) with 1. rewrite Z.div_1_r, (Z.add_0_r src).
    rewrite (Z.mul_comm 256), Z_mod_plus_full. by apply Z.mod_small.
  - replace j with (Z.succ (j - 1)) at 1 by lia.
    rewrite Z.pow_succ_r by lia. rewrite <- Z.div_div by lia.
    replace ((load8 m src + 256 * load_le k m (src + 1)) / 256)
      with (load_le k m (src + 1)).
    + rewrite IH by lia. f_equal. lia.
    + rewrite (Z.mul_comm 256), Z.div_add by lia.
      rewrite (Z.div_small (load8 m src)) by lia. lia.
Qed.

Lemma load_le_shift n m m' (a a' : Z) :
  (∀ j, 0 <= j < Z.of_nat n → load8 m' (a' + j) = load8 m (a + j)) →
  load_le n m' a' = load_le n m a.
Proof.
  revert a a'. induction n as [|k IH]; intros a a' H; [done|].
  cbn [load_le]. rewrite <- (Z.add_0_r a'), <- (Z.add_0_r a) at 1.
  rewrite H by lia. rewrite !Z.add_0_r. f_equal. f_equal. apply IH.
  intros j Hj. rewrite <- !Z.add_assoc. apply H. lia.
Qed.

(** Copying [n] bytes from [s] to [d] through one load and one store. *)
Lemma load8_copy n m (d s a : Z) :
  load8 (store_le n m d (load_le n m s)) a
  = if bool_decide (d <= a < d + Z.of_nat n) then load8 m (s + (a - d))
    else load8 m a.
Proof.
  case_bool_decide as Hin.
  - rewrite load8_store_le_in by done. apply load_le_byte. lia.
  - apply load8_store_le_out. lia.
Qed.

Lemma copy_loop_run (k fuel : nat) m (src dst ps pd ns nd i : Z) :
  let C := (Z.min ns nd + 3) / 4 in
  0 <= Z.min ns nd <= 2 ^ 64 - 4 →
  (ps + 4 * C <= pd ∨ pd + 4 * C <= ps) →
  (src + 8 <= pd ∨ pd + 4 * C <= src) →
  (dst + 8 <= pd ∨ pd + 4 * C <= dst) →
  size_of m src = ns → size_of m dst = nd →
  0 <= i → Z.of_nat k = C - i → (k < fuel)%nat →
  ∃ m', copy_loop fuel m src dst ps pd i = Some m'
    ∧ ∀ a, load8 m' a
           = if bool_decide (pd + 4 * i <= a < pd + 4 * C)
             then load8 m (ps + (a - pd)) else load8 m a.
Proof.
  intros C HN Hsd Hsrc Hdst. revert fuel m i.
  assert (HC : 4 * C <= Z.min ns nd + 3 ∧ Z.min ns nd <= 4 * C).
  { subst C. pose proof (Z.div_mod (Z.min ns nd + 3) 4 ltac:(lia)).
    pose proof (Z.mod_pos_bound (Z.min ns nd + 3) 4 ltac:(lia)). lia. }
  induction k as [|k IH]; intros fuel m i Hns Hnd Hi Hk Hf;
    (destruct fuel as [|fuel']; [lia|]); cbn [copy_loop].
  - assert (i = C) by lia. subst i. rewrite Hns, Hnd.
    assert (Hw : wrap64 (C * 4) = C * 4)
      by (unfold wrap64; apply Z.mod_small; lia).
    rewrite Hw.
    replace ((C * 4 <? ns) && (C * 4 <? nd)) with false.
    2:{ symmetry. apply andb_false_iff.
        destruct (Z.min_spec ns nd) as [[? Hmin]|[? Hmin]]; rewrite Hmin in HC;
          [left | right]; apply Z.ltb_ge; lia. }
    exists m. split; [done|]. intros a. case_bool_decide; [lia | done].
  - assert (Hlt : i < C) by lia. rewrite Hns, Hnd.
    assert (Hw : wrap64 (i * 4) = i * 4)
      by (unfold wrap64; apply Z.mod_small; lia).
    assert (Hw1 : wrap64 (i + 1) = i + 1)
      by (unfold wrap64; apply Z.mod_small; lia).
    rewrite Hw, Hw1.
    replace ((i * 4 <? ns) && (i * 4 <? nd)) with true.
    2:{ symmetry. apply andb_true_iff. split; apply Z.ltb_lt; lia. }
    set (mn := store32 m (pd + 4 * i) (load32 m (ps + 4 * i))).
    assert (Hmn : ∀ a, load8 mn a
              = if bool_decide (pd + 4 * i <= a < pd + 4 * i + 4)
                then load8 m (ps + 4 * i + (a - (pd + 4 * i))) else load8 m a).
    { intros a. subst mn. unfold store32, load32. rewrite load8_copy.
      repeat case_bool_decide; try done; simpl in *; lia. }
    destruct (IH fuel' mn (i + 1)) as (m' & Hrun & Hm'); try lia.
    { rewrite <- Hns. unfold size_of, load64. apply load_le_ext.
      intros a Ha. rewrite Hmn. case_bool_decide; [lia | done]. }
    { rewrite <- Hnd. unfold size_of, load64. apply load_le_ext.
      intros a Ha. rewrite Hmn. case_bool_decide; [lia | done]. }
    exists m'. split; [exact Hrun|]. intros a. rewrite Hm'.
    destruct (decide (pd + 4 * (i + 1) <= a < pd + 4 * C)) as [Hin|Hout].
    + rewrite bool_decide_eq_true_2 by done.
      rewrite bool_decide_eq_true_2 by lia.
      rewrite Hmn. rewrite bool_decide_eq_false_2 by lia. done.
    + rewrite bool_decide_eq_false_2 by done. rewrite Hmn.
      destruct (decide (pd + 4 * i <= a < pd + 4 * i + 4)) as [Hin|Hout'].
      * rewrite bool_decide_eq_true_2 by done.
        rewrite bool_decide_eq_true_2 by lia. f_equal. lia.
      * rewrite bool_decide_eq_false_2 by done.
        rewrite bool_decide_eq_false_2 by lia. done.
Qed.

End Copy.

(** X22.  copy_block does nothing when the ptr field of either block is
    NULL.  Otherwise it copies from the source payload pointer to the
    destination payload pointer the smaller of the two sizes, rounded up
    to a multiple of 4: afterwards each of these destination bytes holds
    what the corresponding source byte held, and every other byte is
    unchanged -- provided the destination range overlaps neither the source
    range nor the size fields of the two blocks. *)
Theorem copy_block_copies_smaller_size
    (fuel : nat) (m : gmap Z Z) (src dst : Z) :
  (ptr_of m src = 0 ∨ ptr_of m dst = 0 → copy_block fuel m src dst = Some m)
  ∧ (let ps := ptr_of m src in
     let pd := ptr_of m dst in
     let C := (Z.min (size_of m src) (size_of m dst) + 3) / 4 in
     ps ≠ 0 → pd ≠ 0 →
     Z.min (size_of m src) (size_of m dst) <= 2 ^ 64 - 4 →
     (ps + 4 * C <= pd ∨ pd + 4 * C <= ps) →
     (src + 8 <= pd ∨ pd + 4 * C <= src) →
     (dst + 8 <= pd ∨ pd + 4 * C <= dst) →
     (Z.to_nat C < fuel)%nat →
     ∃ m', copy_block fuel m src dst = Some m'
       ∧ Z.min (size_of m src) (size_of m dst) <= 4 * C
       ∧ ∀ a, load8 m' a
              = if bool_decide (pd <= a < pd + 4 * C)
                then load8 m (ps + (a - pd)) else load8 m a).
Proof.
  split.
  - unfold copy_block. intros [-> | ->]; [done|].
    by rewrite Z.eqb_refl, orb_true_r.
  - intros ps pd C Hps Hpd HN Hsd Hsrc Hdst Hf.
    pose proof (size_of_nonneg m src). pose proof (size_of_nonneg m dst).
    assert (HC : 0 <= C ∧ Z.min (size_of m src) (size_of m dst) <= 4 * C).
    { subst C.
      pose proof (Z.div_mod (Z.min (size_of m src) (size_of m dst) + 3) 4
                    ltac:(lia)).
      pose proof (Z.mod_pos_bound
                    (Z.min (size_of m src) (size_of m dst) + 3) 4 ltac:(lia)).
      lia. }
    unfold copy_block. fold ps pd.
    apply Z.eqb_neq in Hps, Hpd. rewrite Hps, Hpd. cbn [orb].
    destruct (copy_loop_run (Z.to_nat C) fuel m src dst ps pd
                (size_of m src) (size_of m dst) 0) as (m' & Hrun & Hm');
      try done; try lia.
    exists m'. split; [exact Hrun|]. split; [lia|].
    intros a. rewrite Hm'. fold C. by rewrite Z.mul_0_r, Z.add_0_r.
Qed.

Lemma copy_block_copies_smaller_size_witness :
  let m := store64 (mem (state_after three_regions [Malloc 8; Malloc 16]))
             65576 81985529216486895 in
  ∃ m', copy_block 16 m 65536 131072 = Some m'
        ∧ load64 m' 131112 = 81985529216486895.
Proof.
  intros m.
  destruct (copy_block_copies_smaller_size 16 m 65536 131072) as [_ H].
  destruct H as (m' & Hc & _ & Hm').
  - vm_compute. discriminate.
  - vm_compute. discriminate.
  - vm_compute. discriminate.
  - left. vm_compute. discriminate.
  - left. vm_compute. discriminate.
  - left. vm_compute. discriminate.
  - vm_compute. lia.
  - exists m'. split; [exact Hc|].
    transitivity (load64 m 65576); [|vm_compute; reflexivity].
    unfold load64. apply load_le_shift. intros j Hj. rewrite Hm'.
    assert (Hpd : ptr_of m 131072 = 131112) by (vm_compute; reflexivity).
    assert (Hps : ptr_of m 65536 = 65576) by (vm_compute; reflexivity).
    assert (HC : (Z.min (size_of m 65536) (size_of m 131072) + 3) / 4 = 2)
      by (vm_compute; reflexivity).
    rewrite Hpd, Hps, HC. rewrite bool_decide_eq_true_2 by (simpl in Hj; lia).
    f_equal. lia.
Defined.

(** X23.  On a finite ledger valid_addr answers 1 exactly for a non-null
    address whose header, forty bytes below, is a block of the ledger with
    its ptr field equal to the address, and 0 otherwise.  The free flag
    plays no part: after the flag of the block has been set to any value
    the address still resolves, so an address that was released and is
    still in the ledger is accepted again. *)
Theorem valid_addr_ignores_free_flag
    (fuel : nat) (st : state) (l : list Z) (p : Z) :
  ledger st l → (length l < fuel)%nat →
  valid_addr fuel st p = Some (if resolves st l p then 1 else 0)
  ∧ (resolves st l p = true → spaced l →
     ∀ v, valid_addr fuel
            (with_mem st (set_free (mem st) (get_block p) v)) p = Some 1).
Proof.
  intros Hc Hf. split; [by apply valid_addr_resolves|].
  intros Hr Hsp v. destruct (resolves_in st l p Hr) as (Hp & Hin & Hptr).
  set (b := get_block p) in *.
  assert (Hc' : ledger (with_mem st (set_free (mem st) b v)) l).
  { unfold ledger. cbn [mem base with_mem].
    apply (chain_ext (mem st)); [done|]. intros x Hx.
    assert (x = b ∨ x + 40 <= b ∨ b + 40 <= x).
    { destruct (decide (x = b)); [by left|]. right.
      by apply (spaced_apart l). }
    by destruct (set_free_keeps (mem st) b v x) as (_ & ? & _). }
  rewrite (valid_addr_resolves fuel _ l p Hc' Hf). unfold resolves.
  cbn [mem with_mem]. fold b.
  destruct (set_free_keeps (mem st) b v b) as (_ & _ & _ & -> & _); [by left|].
  rewrite Hptr, Z.eqb_refl, bool_decide_eq_true_2 by done.
  apply Z.eqb_neq in Hp. by rewrite Hp.
Qed.

Lemma valid_addr_ignores_free_flag_witness :
  let st := state_after three_regions [Malloc 8; Malloc 8; Free 0] in
  valid_addr 16 st 65576 = Some 1.
Proof.
  intros st.
  destruct (valid_addr_ignores_free_flag 16 st [65536; 131072] 65576)
    as [H _].
  - vm_compute. repeat split; reflexivity.
  - simpl. lia.
  - rewrite H. vm_compute. reflexivity.
Defined.

(** X24.  set_method stores any integer.  With a policy other than 0, 1
    and 2 find_block finds nothing and leaves [last] at the head of the
    ledger, so on a non-empty heap every my_malloc maps a new region and
    links it right behind the head block: the ledger becomes the head
    followed by the new block, and every other block is dropped from
    it. *)
Theorem my_malloc_with_unknown_method_cuts_ledger
    (fuel : nat) (st : state) (h : Z) (l : list Z) (v size : Z) (a : positive)
    (rest : list (option positive)) :
  method (set_method st v) = v
  ∧ (ledger st (h :: l) → (2 < fuel)%nat →
     method st ≠ 0 → method st ≠ 1 → method st ≠ 2 →
     mmap_answers st = Some a :: rest → align size ≠ 0 →
     h < 2 ^ 64 → Z.pos a + 40 < 2 ^ 64 →
     h + 40 <= Z.pos a ∨ Z.pos a + 40 <= h →
     find_block fuel st (base st) (align size) = Some (0, h)
     ∧ ∃ st', my_malloc fuel st size = Some (st', data_of (Z.pos a))
         ∧ ledger st' [h; Z.pos a]
         ∧ valid_addr fuel st' (data_of (Z.pos a)) = Some 1).
Proof.
  split; [done|].
  intros Hc Hf H0 H1 H2 Hans Hal Hh Ha Hsep.
  destruct Hc as (Hbase & Hpos & Hc).
  pose proof (align_range size) as Hrange.
  assert (Hfind : find_block fuel st (base st) (align size) = Some (0, h)).
  { unfold find_block. apply Z.eqb_neq in H0, H1, H2.
    by rewrite H0, H1, H2, Hbase. }
  split; [exact Hfind|].
  destruct (extend_heap st h (align size)) as [st0 b] eqn:He.
  assert (Hb : b = Z.pos a).
  { unfold extend_heap, mmap in He. apply Z.eqb_neq in Hal.
    rewrite Hal, Hans in He. by injection He as <- <-. }
  subst b.
  destruct (extend_heap_effect st st0 h (align size) (Z.pos a) He)
    as (_ & _ & Hnext & _ & Hptr & _ & Hlink & Hbase0 & _);
    [lia | lia | lia | lia | by right |].
  set (st' := with_malloc_call
                (if malloc_call st0 =? 0
                 then log_handler st0 "malloc" ALLOC_TYPE_MALLOC
                        (data_of (Z.pos a)) size
                 else st0) 0).
  assert (Hmem' : mem st' = mem st0)
    by (subst st'; destruct (malloc_call st0 =? 0); reflexivity).
  assert (Hbase' : base st' = h)
    by (subst st'; destruct (malloc_call st0 =? 0); cbn; congruence).
  assert (Hled : ledger st' [h; Z.pos a]).
  { unfold ledger. rewrite Hmem', Hbase'. simpl.
    rewrite Hlink by lia. rewrite Hnext. done. }
  exists st'. split.
  { unfold my_malloc. rewrite Hbase.
    replace (h =? 0) with false by (symmetry; apply Z.eqb_neq; lia).
    cbn [negb]. rewrite <- Hbase, Hfind.
    cbn [mbind option_bind Z.eqb negb]. rewrite He.
    replace (Z.pos a =? 0) with false by done. done. }
  split; [done|].
  rewrite (valid_addr_resolves fuel st' [h; Z.pos a] _ Hled)
    by (simpl; lia).
  unfold resolves.
  replace (get_block (data_of (Z.pos a))) with (Z.pos a)
    by (unfold get_block, data_of, BLOCK_SIZE; lia).
  replace (data_of (Z.pos a) =? 0) with false
    by (symmetry; apply Z.eqb_neq; unfold data_of; lia).
  rewrite bool_decide_eq_true_2
    by (apply elem_of_cons; right; apply elem_of_cons; by left).
  by rewrite Hmem', Hptr, Z.eqb_refl.
Qed.

Lemma my_malloc_with_unknown_method_cuts_ledger_witness :
  let st := set_method (state_after three_regions [Malloc 8; Malloc 8]) 5 in
  ∃ st', my_malloc 16 st 8 = Some (st', 196648)
         ∧ ledger st' [65536; 196608].
Proof.
  intros st.
  destruct (my_malloc_with_unknown_method_cuts_ledger 16 st 65536 [131072]
              5 8 region_c []) as [_ H].
  destruct H as (_ & st' & Hm & Hl & _).
  - vm_compute. repeat split; reflexivity.
  - lia.
  - vm_compute. discriminate.
  - vm_compute. discriminate.
  - vm_compute. discriminate.
  - vm_compute. reflexivity.
  - vm_compute. discriminate.
  - lia.
  - vm_compute. reflexivity.
  - left. unfold region_c. lia.
  - exists st'. split; [exact Hm | exact Hl].
Defined.

(** X25.  my_calloc multiplies in [size_t] and does not check the
    product.  When [number * size] is a non-zero multiple of 2^64, the
    request that reaches my_malloc is 0: under first fit, on a ledger with
    a free block, my_calloc returns the payload address of the first free
    block, a non-null result, and zeroes no byte at all. *)
Theorem my_calloc_product_wraps
    (fuel : nat) (st : state) (l : list Z) (number size b : Z) :
  ledger st l → (length l < fuel)%nat → method st = 0 →
  number ≠ 0 → size ≠ 0 → wrap64 (number * size) = 0 →
  List.find (is_free (mem st)) l = Some b →
  ∃ st', my_calloc fuel st number size = Some (st', data_of b)
    ∧ data_of b ≠ 0
    ∧ mem st' = set_free (resplit (mem st) b 0) b 0.
Proof.
  intros Hc Hf Hm Hn Hs Hw Hfind.
  assert (Hsame : ∀ x, suitable (mem st) (align 0) x = is_free (mem st) x).
  { intros x. unfold suitable.
    replace (align 0) with 0 by (vm_compute; reflexivity).
    replace (0 <=? size_of (mem st) x) with true
      by (symmetry; apply Z.leb_le, size_of_nonneg).
    apply andb_true_r. }
  assert (Hsuit : List.find (suitable (mem st) (align 0)) l = Some b).
  { rewrite <- Hfind. clear -Hsame. induction l as [|x l' IH]; [done|].
    cbn [List.find]. rewrite Hsame. by destruct (is_free (mem st) x). }
  apply List.find_some in Hfind as Hb. destruct Hb as [Hin Hfree].
  apply list_elem_of_In in Hin.
  pose proof (chain_positive _ _ _ _ Hc Hin) as Hpos.
  assert (Hb0 : (base st =? 0) = false).
  { apply Z.eqb_neq. intros H0. unfold ledger in Hc. rewrite H0 in Hc.
    destruct l as [|x l']; [by apply elem_of_nil in Hin|].
    destruct Hc as (? & ? & _). lia. }
  assert (Hc1 : ledger (with_malloc_call st 1) l) by exact Hc.
  destruct (first_fit_returns_first_suitable_aux fuel (with_malloc_call st 1) l
              (base st) (align 0) Hc1 Hf Hm) as (last' & Hfb & _).
  cbn [mem with_malloc_call] in Hfb. rewrite Hsuit in Hfb. cbn in Hfb.
  unfold my_calloc. apply Z.eqb_neq in Hn, Hs. rewrite Hn, Hs. cbn [orb].
  rewrite Hw. unfold my_malloc.
  cbn [base mem with_malloc_call]. rewrite Hb0. cbn [negb].
  rewrite Hfb. cbn [mbind option_bind].
  replace (b =? 0) with false by (symmetry; apply Z.eqb_neq; lia).
  cbn [negb]. unfold malloc_return. cbn [malloc_call with_mem with_malloc_call].
  cbn [Z.eqb mbind option_bind].
  replace (data_of b =? 0) with false
    by (symmetry; apply Z.eqb_neq; unfold data_of; lia).
  cbn [negb]. eexists. split; [reflexivity|].
  split; [unfold data_of; lia|].
  cbn [mem log_handler emit with_mem with_malloc_call].
  change (wrap64 (Z.shiftl (align 0) 2)) with 0. done.
Qed.

Lemma my_calloc_product_wraps_witness :
  let st := state_after three_regions [Malloc 8; Malloc 8; Free 0] in
  ∃ st', my_calloc 16 st (2 ^ 32) (2 ^ 32) = Some (st', 65576).
Proof.
  intros st.
  destruct (my_calloc_product_wraps 16 st [65536; 131072] (2 ^ 32) (2 ^ 32)
              65536) as (st' & Hc & _).
  - vm_compute. repeat split; reflexivity.
  - simpl. lia.
  - vm_compute. reflexivity.
  - lia.
  - lia.
  - vm_compute. reflexivity.
  - vm_compute. reflexivity.
  - exists st'. exact Hc.
Defined.

(** X26.  my_realloc with a NULL address is my_malloc of the size with the
    [malloc_call] flag set: on a finite ledger it returns what that
    my_malloc returns, asks mmap at most once, and writes exactly one log
    record, of kind "realloc" and with size 0 -- no "malloc" record, and the
    "realloc" record is written even when the allocation failed and the
    address logged is NULL. *)
Theorem my_realloc_of_null_allocates
    (fuel : nat) (st : state) (l : list Z) (size : Z) :
  ledger st l → (length l < fuel)%nat →
  ∃ st1 st' p ev,
    my_malloc fuel (with_malloc_call st 1) size = Some (st1, p)
    ∧ my_realloc fuel st 0 size = Some (st', p)
    ∧ mem st' = mem st1 ∧ base st' = base st1
    ∧ trace st' = trace st ++ ev ++ [EvLog "realloc" ALLOC_TYPE_REALLOC p 0]
    ∧ (ev = [] ∨ ∃ res, ev = [EvMmap (align size) res])
    ∧ (p ≠ 0 → malloc_call st' = 0) ∧ (p = 0 → malloc_call st' = 1).
Proof.
  intros Hc Hf.
  assert (Hc0 : ledger (with_malloc_call st 1) l) by exact Hc.
  destruct (my_malloc_trace_aux fuel _ l size Hc0 Hf)
    as (st1 & p & ev & Hm & Ht & Hev & Hp1 & Hp0).
  cbn [trace malloc_call with_malloc_call Z.eqb andb] in Ht, Hp0.
  rewrite app_nil_r in Ht.
  exists st1, (log_handler st1 "realloc" ALLOC_TYPE_REALLOC p 0), p, ev.
  split; [exact Hm|]. split.
  { unfold my_realloc. cbn [Z.eqb]. by rewrite Hm. }
  cbn [mem base trace malloc_call log_handler emit].
  split; [done|]. split; [done|]. split; [by rewrite Ht, <- app_assoc|].
  split; [done|]. split; [exact Hp1 | exact Hp0].
Qed.

Lemma my_realloc_of_null_allocates_witness :
  let st := state_after three_regions [Malloc 8; Malloc 8; Free 0] in
  ∃ st' p, my_realloc 16 st 0 8 = Some (st', p).
Proof.
  intros st.
  destruct (my_realloc_of_null_allocates 16 st [65536; 131072] 8)
    as (st1 & st' & p & ev & _ & H & _).
  - vm_compute. repeat split; reflexivity.
  - simpl. lia.
  - by exists st', p.
Defined.
